(** * DGSLEffectFactory: a shallow embedding of Src/DGSLEffectFactory.cpp

    The factory builds effects, textures and pixel shaders on a Direct3D
    device and shares them by name.  The embedding keeps the shape of the
    C++ code: the fields of [DGSLEffectFactory::Impl] are a record, each
    method is a computation in a state-and-exception monad, wide strings
    are lists of UTF-16 code units, and the calls made on collaborators
    that live outside this file (the DGSLEffect object, the DDS and WIC
    loaders, the binary reader, the device) are recorded rather than
    interpreted. *)

From Stdlib Require Import ZArith NArith List Ascii String Lia.
From Stdlib Require Import Floats.SpecFloat.
From stdpp Require Import base option list gmap.

Local Open Scope Z_scope.

(** ** Wide strings and the C runtime routines used by the factory *)

(** A [wchar_t] is a 16-bit code unit; a [const WCHAR*] is either the null
    pointer or the characters found before the terminating NUL. *)
Abbreviation wchar := N (only parsing).
Abbreviation wstring := (list N) (only parsing).
Abbreviation LPCWSTR := (option (list N)) (only parsing).

(** The [L"..."] literals of the source. *)
Definition L (s : string) : wstring :=
  map N_of_ascii (list_ascii_of_string s).

(** [p && *p] on a string pointer. *)
Definition nonempty (p : LPCWSTR) : bool :=
  match p with
  | Some (_ :: _) => true
  | _ => false
  end.

(** [towlower] in the "C" locale. *)
Definition towlower (c : wchar) : wchar :=
  if ((65 <=? c) && (c <=? 90))%N then (c + 32)%N else c.

(** [_wcsicmp]: lexicographic comparison of the lower-cased strings; the
    sign of the result is the order, zero means equal. *)
Fixpoint _wcsicmp (a b : wstring) : Z :=
  match a, b with
  | [], [] => 0
  | [], y :: _ => - Z.of_N (towlower y)
  | x :: _, [] => Z.of_N (towlower x)
  | x :: a', y :: b' =>
      if (towlower x =? towlower y)%N then _wcsicmp a' b'
      else Z.of_N (towlower x) - Z.of_N (towlower y)
  end.

(** [wcschr]: offset of the first occurrence of [c], [None] for NULL. *)
Fixpoint wcschr (s : wstring) (c : wchar) : option nat :=
  match s with
  | [] => None
  | x :: s' => if (x =? c)%N then Some O else S <$> wcschr s' c
  end.

(** [wcsrchr]: offset of the last occurrence of [c], [None] for NULL. *)
Fixpoint wcsrchr (s : wstring) (c : wchar) : option nat :=
  match s with
  | [] => None
  | x :: s' =>
      match wcsrchr s' c with
      | Some i => Some (S i)
      | None => if (x =? c)%N then Some O else None
      end
  end.

(** Windows SDK and CRT constants. *)
Definition MAX_PATH : nat := 260.
Definition _MAX_EXT : nat := 256.

(** [wcscpy_s] and [wcscat_s] into a buffer of [size] elements: [None]
    stands for the invalid-parameter handler, which is invoked when the
    result and its terminator do not fit. *)
Definition wcscpy_s (size : nat) (src : wstring) : option wstring :=
  if (length src <? size)%nat then Some src else None.

Definition wcscat_s (size : nat) (dst src : wstring) : option wstring :=
  if (length dst + length src <? size)%nat then Some (dst ++ src) else None.

(** The scan of [_wsplitpath_s] over the path that follows the drive:
    [slash] is the offset one past the last path separator seen, [dot]
    the offset of the last period that is not itself a separator. *)
Fixpoint splitpath_scan (s : wstring) (pos : nat) (slash dot : option nat)
  : option nat * option nat :=
  match s with
  | [] => (slash, dot)
  | c :: s' =>
      if ((c =? 47) || (c =? 92))%N
      then splitpath_scan s' (S pos) (Some (S pos)) dot
      else if (c =? 46)%N
      then splitpath_scan s' (S pos) slash (Some pos)
      else splitpath_scan s' (S pos) slash dot
  end.

(** [_wsplitpath_s( name, nullptr, 0, nullptr, 0, nullptr, 0, ext, _MAX_EXT )]:
    the extension, with its leading period, of the last path component;
    empty when there is none, and cleared when it does not fit the buffer
    (ERANGE). *)
Definition _wsplitpath_s (path : wstring) : wstring :=
  let p := match path with
           | _ :: c :: rest => if (c =? 58)%N then rest else path
           | _ => path
           end in
  let '(slash, dot) := splitpath_scan p O None None in
  let ext := match dot with
             | Some d => if (default O slash <=? d)%nat then drop d p else []
             | None => []
             end in
  if (length ext <? _MAX_EXT)%nat then ext else [].

(** ** Material descriptions *)

(** A C [float] is an IEEE 754 value; [x != 0] is false exactly on the two
    zeros and true on everything else, NaN included. *)
Abbreviation float := spec_float (only parsing).

Definition float_ne_zero (x : float) : bool :=
  negb (SFeqb x (S754_zero false)).

Record XMFLOAT3 := mkXMFLOAT3 { x : float; y : float; z : float }.

(** [c.x != 0 || c.y != 0 || c.z != 0] *)
Definition any_component_nonzero (c : XMFLOAT3) : bool :=
  float_ne_zero (x c) || float_ne_zero (y c) || float_ne_zero (z c).

(** The fields of [IEffectFactory::EffectInfo] read by this file. *)
Record EffectInfo := mkEffectInfo {
  name : LPCWSTR;
  specularPower : float;
  alpha : float;
  ambientColor : XMFLOAT3;
  diffuseColor : XMFLOAT3;
  specularColor : XMFLOAT3;
  emissiveColor : XMFLOAT3;
  texture : LPCWSTR
}.

(** [DGSLEffectInfo] extends [EffectInfo] with [const WCHAR* textures[7]]
    and the pixel shader name; only the entries 0..6 of [textures] exist. *)
Record DGSLEffectInfo := mkDGSLEffectInfo {
  base :> EffectInfo;
  textures : nat -> LPCWSTR;
  pixelShader : LPCWSTR
}.

(** ** Devices, COM objects and effects *)

Abbreviation ID3D11Device := nat (only parsing).
Abbreviation ID3D11DeviceContext := nat (only parsing).
(** Shader resource views and pixel shaders are COM objects, identified by
    their address. *)
Abbreviation SRV := nat (only parsing).
Abbreviation PS := nat (only parsing).
Abbreviation EffectPtr := nat (only parsing).

Abbreviation HRESULT := Z (only parsing).
Definition FAILED (hr : HRESULT) : bool := hr <? 0.
Definition S_OK : HRESULT := 0.
Definition E_FAIL : HRESULT := -2147467259.

Definition D3D_FEATURE_LEVEL_10_0 : Z := 40960.

(** The methods of [DGSLEffect] the factory calls.  [SetTexture] has two
    overloads, with and without the slot number. *)
Inductive EffectCall :=
  | EnableDefaultLighting
  | SetLightingEnabled (value : bool)
  | SetAmbientColor (value : XMFLOAT3)
  | SetDiffuseColor (value : XMFLOAT3)
  | SetAlpha (value : float)
  | SetSpecularColor (value : XMFLOAT3)
  | SetSpecularPower (value : float)
  | DisableSpecular
  | SetEmissiveColor (value : XMFLOAT3)
  | SetTexture (value : SRV)
  | SetTextureAt (whichTexture : Z) (value : SRV)
  | SetTextureEnabled (value : bool).

(** A [DGSLEffect] object: the arguments of its constructor and the calls
    made on it so far, oldest first. *)
Record DGSLEffect := mkDGSLEffect {
  eff_device : ID3D11Device;
  eff_pixelShader : option PS;
  eff_calls : list EffectCall
}.

(** ** The factory implementation object and the world around it *)

Inductive CacheId := EffectCache | TextureCache | ShaderCache.

#[global] Instance CacheId_eq_dec : EqDecision CacheId.
Proof. solve_decision. Defined.

(** What happens outside the effect objects: mutex operations, accesses
    to the three [std::map]s, and calls to the external loaders. *)
Inductive Event :=
  | EvLock
  | EvUnlock
  | EvFind (c : CacheId) (key : wstring)
  | EvInsert (c : CacheId) (key : wstring)
  | EvClear (c : CacheId)
  | EvAddRef (object : nat)
  | EvDDS (fileName : wstring) (hr : HRESULT)
  | EvWIC (d3dContext : option ID3D11DeviceContext) (fileName : wstring)
          (hr : HRESULT)
  | EvReadEntireFile (fileName : wstring) (hr : HRESULT)
  | EvDeviceCreatePixelShader (hr : HRESULT).

(** The data members of [DGSLEffectFactory::Impl].  The mutex carries no
    data of its own: its state is the balance of [EvLock] and [EvUnlock]
    in the trace. *)
Record Impl := mkImpl {
  device : ID3D11Device;
  mEffectCache : gmap wstring EffectPtr;
  mTextureCache : gmap wstring SRV;
  mShaderCache : gmap wstring PS;
  mSharing : bool
}.

(** [Impl(device) : device(device), mSharing(true)] *)
Definition Impl_ctor (dev : ID3D11Device) : Impl :=
  mkImpl dev ∅ ∅ ∅ true.

Record World := mkWorld {
  effects : list DGSLEffect;     (* the effect at address [i] is [effects !! i] *)
  next_object : nat;             (* address of the next COM object created *)
  trace : list Event             (* oldest first *)
}.

Record State := mkState { this : Impl; world : World }.

(** What the build and the external collaborators decide.  The loaders
    read files, so their results may depend on everything that happened
    before the call. *)
Record Env := mkEnv {
  (* WINAPI_FAMILY is defined and equals WINAPI_FAMILY_PHONE_APP *)
  phone_app : bool;
  GetFeatureLevel : ID3D11Device -> Z;
  dds_result : list Event -> ID3D11Device -> wstring -> HRESULT;
  wic_result : list Event -> ID3D11Device -> option ID3D11DeviceContext ->
               wstring -> HRESULT;
  read_result : list Event -> wstring -> HRESULT;
  shader_result : list Event -> ID3D11Device -> wstring -> HRESULT
}.

(** ** The monad: state, C++ exceptions, and process termination *)

Inductive exception :=
  | invalid_arguments            (* std::exception("invalid arguments") *)
  | failed_hresult (hr : HRESULT).

Inductive Outcome (A : Type) :=
  | Returns (a : A)
  | Throws (e : exception)
  | Aborts.                      (* the CRT invalid-parameter handler *)
Arguments Returns {A} a.
Arguments Throws {A} e.
Arguments Aborts {A}.

Definition M (A : Type) := State -> Outcome A * State.

Definition ret {A} (a : A) : M A := fun st => (Returns a, st).

Definition bind {A B} (m : M A) (f : A -> M B) : M B :=
  fun st =>
    match m st with
    | (Returns a, st') => f a st'
    | (Throws e, st') => (Throws e, st')
    | (Aborts, st') => (Aborts, st')
    end.

Declare Scope dgsl_scope.
Delimit Scope dgsl_scope with dgsl.
Notation "x <- m ;; f" := (bind m (fun x => f))
  (at level 100, m at next level, right associativity) : dgsl_scope.
Notation "m ;; f" := (bind m (fun _ => f))
  (at level 100, right associativity) : dgsl_scope.
Local Open Scope dgsl_scope.

Definition throw {A} (e : exception) : M A := fun st => (Throws e, st).
Definition abort {A} : M A := fun st => (Aborts, st).

Definition gets {A} (f : Impl -> A) : M A := fun st => (Returns (f (this st)), st).

Definition modify_impl (f : Impl -> Impl) : M unit :=
  fun st => (Returns tt, mkState (f (this st)) (world st)).

Definition modify_world (f : World -> World) : M unit :=
  fun st => (Returns tt, mkState (this st) (f (world st))).

Definition emit (ev : Event) : M unit :=
  modify_world (fun w => mkWorld (effects w) (next_object w) (trace w ++ [ev])).

(** [if (b) { m }] *)
Definition when (b : bool) (m : M unit) : M unit :=
  if b then m else ret tt.

(** A CRT routine that may invoke the invalid-parameter handler. *)
Definition crt {A} (r : option A) : M A :=
  match r with
  | Some a => ret a
  | None => abort
  end.

(** [{ std::lock_guard<std::mutex> lock(mutex); m }]: the guard releases
    the mutex when the block is left, by return or by exception. *)
Definition lock_guard {A} (m : M A) : M A :=
  fun st =>
    match (emit EvLock ;; m) st with
    | (Aborts, st') => (Aborts, st')
    | (r, st') => (r, snd (emit EvUnlock st'))
    end.

(** ** Primitive operations *)

(** The three caches map a [std::wstring] to a pointer. *)
Definition cache_of (c : CacheId) (i : Impl) : gmap wstring nat :=
  match c with
  | EffectCache => mEffectCache i
  | TextureCache => mTextureCache i
  | ShaderCache => mShaderCache i
  end.

Definition set_cache (c : CacheId) (f : gmap wstring nat -> gmap wstring nat)
  (i : Impl) : Impl :=
  match c with
  | EffectCache =>
      mkImpl (device i) (f (mEffectCache i)) (mTextureCache i)
        (mShaderCache i) (mSharing i)
  | TextureCache =>
      mkImpl (device i) (mEffectCache i) (f (mTextureCache i))
        (mShaderCache i) (mSharing i)
  | ShaderCache =>
      mkImpl (device i) (mEffectCache i) (mTextureCache i)
        (f (mShaderCache i)) (mSharing i)
  end.

(** [std::map::insert]: an existing entry is kept. *)
Definition map_insert (k : wstring) (v : nat) (m : gmap wstring nat)
  : gmap wstring nat :=
  match m !! k with
  | Some _ => m
  | None => <[k := v]> m
  end.

(** [cache.find( key )]: [None] is [cache.end()], [Some p] an iterator
    whose [second] is [p]. *)
Definition cache_find (c : CacheId) (key : wstring) : M (option nat) :=
  emit (EvFind c key) ;; gets (fun i => cache_of c i !! key).

Definition cache_insert (c : CacheId) (key : wstring) (v : nat) : M unit :=
  emit (EvInsert c key) ;; modify_impl (set_cache c (map_insert key v)).

Definition cache_clear (c : CacheId) : M unit :=
  emit (EvClear c) ;; modify_impl (set_cache c (fun _ => ∅)).

(** [it == cache.end()] *)
Definition is_end (it : option nat) : bool :=
  match it with
  | None => true
  | Some _ => false
  end.

(** [std::wstring( p )] for a pointer already known to be non-null. *)
Definition wstr (p : LPCWSTR) : wstring := default [] p.

(** [std::make_shared<DGSLEffect>( device )] and
    [std::make_shared<DGSLEffect>( device, ps )]: a new effect object at a
    new address. *)
Definition make_shared (dev : ID3D11Device) (ps : option PS) : M EffectPtr :=
  fun st =>
    let w := world st in
    (Returns (length (effects w)),
     mkState (this st)
       (mkWorld (effects w ++ [mkDGSLEffect dev ps []]) (next_object w) (trace w))).

Definition add_call (c : EffectCall) (e : DGSLEffect) : DGSLEffect :=
  mkDGSLEffect (eff_device e) (eff_pixelShader e) (eff_calls e ++ [c]).

(** [effect->c] *)
Definition call (effect : EffectPtr) (c : EffectCall) : M unit :=
  modify_world (fun w =>
    mkWorld (alter (add_call c) effect (effects w)) (next_object w) (trace w)).

(** A COM object created by a collaborator. *)
Definition new_object : M nat :=
  fun st =>
    let w := world st in
    (Returns (next_object w),
     mkState (this st) (mkWorld (effects w) (S (next_object w)) (trace w))).

Definition get_trace : M (list Event) :=
  fun st => (Returns (trace (world st)), st).

(** Modelled from the spec: [ThrowIfFailed] is declared in a header that
    is not part of this file.  The factory "only orchestrates calls into
    those collaborators", and a failing collaborator surfaces as an
    exception: a failure code is thrown, a success code is not. *)
Definition ThrowIfFailed (hr : HRESULT) : M unit :=
  if FAILED hr then throw (failed_hresult hr) else ret tt.

(** The external loaders.  Each returns its HRESULT and, on success, the
    object it created (stored through the out-pointer in the source). *)
Definition CreateDDSTextureFromFile (env : Env) (dev : ID3D11Device)
  (fileName : wstring) : M (HRESULT * SRV) :=
  tr <- get_trace ;;
  let hr := dds_result env tr dev fileName in
  emit (EvDDS fileName hr) ;;
  if FAILED hr then ret (hr, O)
  else (srv <- new_object ;; ret (hr, srv)).

Definition CreateWICTextureFromFile (env : Env) (dev : ID3D11Device)
  (d3dContext : option ID3D11DeviceContext) (fileName : wstring)
  : M (HRESULT * SRV) :=
  tr <- get_trace ;;
  let hr := wic_result env tr dev d3dContext fileName in
  emit (EvWIC d3dContext fileName hr) ;;
  if FAILED hr then ret (hr, O)
  else (srv <- new_object ;; ret (hr, srv)).

(** [BinaryReader::ReadEntireFile( name, data, &dataSize )] *)
Definition ReadEntireFile (env : Env) (fileName : wstring) : M HRESULT :=
  tr <- get_trace ;;
  let hr := read_result env tr fileName in
  emit (EvReadEntireFile fileName hr) ;;
  ret hr.

(** [device->CreatePixelShader( data.get(), dataSize, nullptr, pixelShader )]
    on the bytes just read from [fileName]. *)
Definition device_CreatePixelShader (env : Env) (dev : ID3D11Device)
  (fileName : wstring) : M (HRESULT * PS) :=
  tr <- get_trace ;;
  let hr := shader_result env tr dev fileName in
  emit (EvDeviceCreatePixelShader hr) ;;
  if FAILED hr then ret (hr, O)
  else (ps <- new_object ;; ret (hr, ps)).

(** An out-parameter ([ID3D11ShaderResourceView**], [ID3D11PixelShader**])
    is either null or the address of a pointer of the caller; what the
    method stores through it is the result of the computation. *)
Inductive OutPtr := NullOut | ValidOut.

(** ** The methods of [DGSLEffectFactory::Impl] *)

Definition CreateTexture (env : Env) (name : LPCWSTR)
  (deviceContext : option ID3D11DeviceContext) (textureView : OutPtr) : M SRV :=
  match name, textureView with
  | Some name, ValidOut =>
      it <- cache_find TextureCache name ;;
      sharing <- gets mSharing ;;
      match sharing, it with
      | true, Some srv =>
          emit (EvAddRef srv) ;;
          ret srv
      | _, _ =>
          dev <- gets device ;;
          r <- (if phone_app env then
                  r <- CreateDDSTextureFromFile env dev name ;;
                  ThrowIfFailed (fst r) ;; ret r
                else
                  let ext := _wsplitpath_s name in
                  if _wcsicmp ext (L ".dds") =? 0 then
                    r <- CreateDDSTextureFromFile env dev name ;;
                    ThrowIfFailed (fst r) ;; ret r
                  else
                    match deviceContext with
                    | Some ctx =>
                        lock_guard
                          (r <- CreateWICTextureFromFile env dev (Some ctx) name ;;
                           ThrowIfFailed (fst r) ;; ret r)
                    | None =>
                        r <- CreateWICTextureFromFile env dev None name ;;
                        ThrowIfFailed (fst r) ;; ret r
                    end) ;;
          sharing <- gets mSharing ;;
          when (sharing && nonempty (Some name) && is_end it)
            (lock_guard (cache_insert TextureCache name (snd r))) ;;
          ret (snd r)
      end
  | _, _ => throw invalid_arguments
  end.

Definition CreatePixelShader (env : Env) (name : LPCWSTR) (pixelShader : OutPtr)
  : M PS :=
  match name, pixelShader with
  | Some name, ValidOut =>
      it <- cache_find ShaderCache name ;;
      sharing <- gets mSharing ;;
      match sharing, it with
      | true, Some ps =>
          emit (EvAddRef ps) ;;
          ret ps
      | _, _ =>
          hr <- ReadEntireFile env name ;;
          ThrowIfFailed hr ;;
          dev <- gets device ;;
          r <- device_CreatePixelShader env dev name ;;
          ThrowIfFailed (fst r) ;;
          sharing <- gets mSharing ;;
          when (sharing && nonempty (Some name) && is_end it)
            (lock_guard (cache_insert ShaderCache name (snd r))) ;;
          ret (snd r)
      end
  | _, _ => throw invalid_arguments
  end.

Definition CreateEffect (env : Env) (info : EffectInfo)
  (deviceContext : option ID3D11DeviceContext) : M EffectPtr :=
  it <- (if nonempty (name info) then cache_find EffectCache (wstr (name info))
         else ret None) ;;
  sharing <- gets mSharing ;;
  match sharing, it with
  | true, Some cached => ret cached
  | _, _ =>
      dev <- gets device ;;
      effect <- make_shared dev None ;;
      call effect EnableDefaultLighting ;;
      call effect (SetLightingEnabled true) ;;
      call effect (SetAmbientColor (ambientColor info)) ;;
      call effect (SetDiffuseColor (diffuseColor info)) ;;
      call effect (SetAlpha (alpha info)) ;;
      when (any_component_nonzero (specularColor info))
        (call effect (SetSpecularColor (specularColor info)) ;;
         call effect (SetSpecularPower (specularPower info))) ;;
      when (any_component_nonzero (emissiveColor info))
        (call effect (SetEmissiveColor (emissiveColor info))) ;;
      when (nonempty (texture info))
        (srv <- CreateTexture env (texture info) deviceContext ValidOut ;;
         call effect (SetTexture srv) ;;
         call effect (SetTextureEnabled true)) ;;
      sharing <- gets mSharing ;;
      when (sharing && nonempty (name info) && is_end it)
        (lock_guard (cache_insert EffectCache (wstr (name info)) effect)) ;;
      ret effect
  end.

(** [for( int j = 0; j < n; ++j ) body(j)], as the list of its indices. *)
Fixpoint for_each (js : list nat) (body : nat -> M unit) : M unit :=
  match js with
  | [] => ret tt
  | j :: js' => body j ;; for_each js' body
  end.

(** The part of the pixel shader name that selects the variant: what
    follows the last underscore, cut at its first period. *)
Definition shader_root (pixelShader : wstring) : M wstring :=
  root <- match wcsrchr pixelShader 95%N with
          | Some last => crt (wcscpy_s MAX_PATH (drop (S last) pixelShader))
          | None => crt (wcscpy_s MAX_PATH pixelShader)
          end ;;
  ret match wcschr root 46%N with
      | Some first => take first root
      | None => root
      end.

(** Lines 141 to 199 of [CreateDGSLEffect]: the effect is constructed
    according to the root of the pixel shader name, and the locals
    [lighting] and [allowSpecular] are set.  The result is
    [(effect, lighting, allowSpecular)]. *)
Definition shader_variant (env : Env) (dev : ID3D11Device)
  (info : DGSLEffectInfo) : M (EffectPtr * bool * bool) :=
  if negb (nonempty (pixelShader info)) then
    effect <- make_shared dev None ;; ret (effect, true, true)
  else
    root <- shader_root (wstr (pixelShader info)) ;;
    if _wcsicmp root (L "lambert") =? 0 then
      effect <- make_shared dev None ;; ret (effect, true, false)
    else if _wcsicmp root (L "phong") =? 0 then
      effect <- make_shared dev None ;; ret (effect, true, true)
    else if _wcsicmp root (L "unlit") =? 0 then
      effect <- make_shared dev None ;; ret (effect, false, true)
    else if GetFeatureLevel env dev <? D3D_FEATURE_LEVEL_10_0 then
      root <- crt (wcscat_s MAX_PATH root (L ".cso")) ;;
      ps <- CreatePixelShader env (Some root) ValidOut ;;
      effect <- make_shared dev (Some ps) ;; ret (effect, true, true)
    else
      ps <- CreatePixelShader env (pixelShader info) ValidOut ;;
      effect <- make_shared dev (Some ps) ;; ret (effect, true, true).

Definition CreateDGSLEffect (env : Env) (info : DGSLEffectInfo)
  (deviceContext : option ID3D11DeviceContext) : M EffectPtr :=
  it <- (if nonempty (name info) then cache_find EffectCache (wstr (name info))
         else ret None) ;;
  sharing <- gets mSharing ;;
  match sharing, it with
  | true, Some cached => ret cached
  | _, _ =>
      dev <- gets device ;;
      v <- shader_variant env dev info ;;
      let '(effect, lighting, allowSpecular) := v in
      when lighting
        (call effect EnableDefaultLighting ;;
         call effect (SetLightingEnabled true)) ;;
      call effect (SetAmbientColor (ambientColor info)) ;;
      call effect (SetDiffuseColor (diffuseColor info)) ;;
      call effect (SetAlpha (alpha info)) ;;
      (if allowSpecular && any_component_nonzero (specularColor info) then
         call effect (SetSpecularColor (specularColor info)) ;;
         call effect (SetSpecularPower (specularPower info))
       else
         call effect DisableSpecular) ;;
      when (any_component_nonzero (emissiveColor info))
        (call effect (SetEmissiveColor (emissiveColor info))) ;;
      when (nonempty (texture info))
        (srv <- CreateTexture env (texture info) deviceContext ValidOut ;;
         call effect (SetTexture srv) ;;
         call effect (SetTextureEnabled true)) ;;
      for_each (seq 0 7) (fun j =>
        when (nonempty (textures info j))
          (srv <- CreateTexture env (textures info j) deviceContext ValidOut ;;
           call effect (SetTextureAt (Z.of_nat j + 1) srv) ;;
           call effect (SetTextureEnabled true))) ;;
      sharing <- gets mSharing ;;
      when (sharing && nonempty (name info) && is_end it)
        (lock_guard (cache_insert EffectCache (wstr (name info)) effect)) ;;
      ret effect
  end.

Definition ReleaseCache : M unit :=
  lock_guard
    (cache_clear EffectCache ;;
     cache_clear TextureCache ;;
     cache_clear ShaderCache).

Definition SetSharing (enabled : bool) : M unit :=
  modify_impl (fun i =>
    mkImpl (device i) (mEffectCache i) (mTextureCache i) (mShaderCache i) enabled).

(** ** The lock discipline, read off the trace *)

(** Where the lock discipline wants the lookups ([find]): under the mutex
    like the writes, or before it is taken. *)
Inductive LookupRule := LookupsLocked | LookupsUnlocked.

(** [discipline rule held evs] replays [evs] from a mutex that is [held]
    or not.  It fails when the (non-recursive) mutex is locked twice or
    unlocked while free, when a cache is written or cleared without the
    mutex, and when a cache is searched against the [rule].  Otherwise it
    gives the state of the mutex at the end. *)
Fixpoint discipline (rule : LookupRule) (held : bool) (evs : list Event)
  : option bool :=
  match evs with
  | [] => Some held
  | EvLock :: evs' => if held then None else discipline rule true evs'
  | EvUnlock :: evs' => if held then discipline rule false evs' else None
  | EvInsert _ _ :: evs' | EvClear _ :: evs' =>
      if held then discipline rule held evs' else None
  | EvFind _ _ :: evs' =>
      match rule, held with
      | LookupsLocked, true | LookupsUnlocked, false => discipline rule held evs'
      | _, _ => None
      end
  | _ :: evs' => discipline rule held evs'
  end.

(** ** Running a method *)

Definition outcome {A} (m : M A) (st : State) : Outcome A := fst (m st).
Definition final {A} (m : M A) (st : State) : State := snd (m st).

(** What every method but [ReleaseCache] and [SetSharing] guarantees
    about the implementation object and the trace, whatever the outcome:
    the device and the sharing flag stay, cache entries are never removed
    or replaced, and the events added keep the discipline in which writes
    are locked and lookups are not, ending with the mutex free. *)
Record extends (st st' : State) : Prop := mk_extends {
  ext_device : device (this st') = device (this st);
  ext_sharing : mSharing (this st') = mSharing (this st);
  ext_caches : forall c k v,
    cache_of c (this st) !! k = Some v -> cache_of c (this st') !! k = Some v;
  ext_objects : (next_object (world st) <= next_object (world st'))%nat;
  ext_trace : exists evs,
    trace (world st') = trace (world st) ++ evs /\
    discipline LookupsUnlocked false evs = Some false
}.

(** The state after more events. *)
Definition traced (evs : list Event) (st : State) : State :=
  mkState (this st)
    (mkWorld (effects (world st)) (next_object (world st))
       (trace (world st) ++ evs)).

(** The calls to the texture loaders among some events. *)
Definition is_loader_call (ev : Event) : bool :=
  match ev with
  | EvDDS _ _ | EvWIC _ _ _ => true
  | _ => false
  end.

(** The calls that read and create a pixel shader among some events. *)
Definition is_shader_call (ev : Event) : bool :=
  match ev with
  | EvReadEntireFile _ _ | EvDeviceCreatePixelShader _ => true
  | _ => false
  end.

(** ** The public class and the instance pool *)

(** A [DGSLEffectFactory] holds a shared pointer to its implementation
    object. *)
Record DGSLEffectFactory := mkFactory { pImpl : nat }.

(** The process: the global [instancePool], and the [Impl] objects
    allocated so far, [impls !! a] being the one at address [a]. *)
Record Process := mkProcess {
  instancePool : gmap ID3D11Device nat;
  impls : list Impl
}.

(** The pool is empty when the program starts. *)
Definition process_start : Process := mkProcess ∅ [].

(** Modelled from the spec: [SharedResourcePool::DemandCreate] is declared
    in SharedResourcePool.h, which is not part of this file.  The factory
    is "a caching layer keyed by device instance", and "only one of these
    helpers is allocated per D3D device": the pool is searched for the
    device, and an implementation object is constructed on it and entered
    in the pool only when none is found. *)
Definition DemandCreate (dev : ID3D11Device) (p : Process) : nat * Process :=
  match instancePool p !! dev with
  | Some a => (a, p)
  | None =>
      let a := length (impls p) in
      (a, mkProcess (<[dev := a]> (instancePool p)) (impls p ++ [Impl_ctor dev]))
  end.

(** [DGSLEffectFactory::DGSLEffectFactory( device )
      : pImpl( Impl::instancePool.DemandCreate( device ) )] *)
Definition DGSLEffectFactory_ctor (dev : ID3D11Device) (p : Process)
  : DGSLEffectFactory * Process :=
  (mkFactory (fst (DemandCreate dev p)), snd (DemandCreate dev p)).

(** Factories constructed one after the other on the devices [devs]. *)
Fixpoint construct_all (devs : list ID3D11Device) (p : Process)
  : list DGSLEffectFactory * Process :=
  match devs with
  | [] => ([], p)
  | dev :: devs' =>
      let r := DGSLEffectFactory_ctor dev p in
      let rs := construct_all devs' (snd r) in
      (fst r :: fst rs, snd rs)
  end.

(** Every entry of the pool points to an implementation object built on
    the device it is entered under. *)
Definition pool_ok (p : Process) : Prop :=
  forall dev a, instancePool p !! dev = Some a ->
  exists impl, impls p !! a = Some impl /\ device impl = dev.

(** What a later process keeps of an earlier one. *)
Definition pool_grows (p p' : Process) : Prop :=
  (forall dev a, instancePool p !! dev = Some a ->
                 instancePool p' !! dev = Some a) /\
  (forall a impl, impls p !! a = Some impl -> impls p' !! a = Some impl).

(** ** The shader root, in the words of the specification *)

(** "the substring after the last '_' (or the whole name if there is no
    '_')": [rest] is what follows the last underscore seen so far. *)
Fixpoint after_last_underscore (s rest : list N) : list N :=
  match s with
  | [] => rest
  | c :: s' =>
      if (c =? 95)%N then after_last_underscore s' s'
      else after_last_underscore s' rest
  end.

(** "truncated at the first '.'" *)
Fixpoint before_first_period (s : list N) : list N :=
  match s with
  | [] => []
  | c :: s' => if (c =? 46)%N then [] else c :: before_first_period s'
  end.

Definition spec_root (pixelShader : list N) : list N :=
  before_first_period (after_last_underscore pixelShader pixelShader).

(** ** Effects under construction *)

(** The state in which a method looks for the shader of an effect: the
    effect cache has been searched if the effect has a name. *)
Definition after_lookup (info : EffectInfo) (st : State) : State :=
  final (if nonempty (name info)
         then cache_find EffectCache (wstr (name info))
         else ret None) st.

(** The effect cache misses for a request: sharing is off, the request
    has no name, or no effect is cached under its name. *)
Definition effect_miss (info : EffectInfo) (st : State) : Prop :=
  mSharing (this st) = false \/
  nonempty (name info) = false \/
  mEffectCache (this st) !! wstr (name info) = None.

(** While a method configures the effect it has just constructed after
    the effects [h], on [dev] with the shader [ps]: the calls made on it
    so far are [log], the effect cache is [ec], no other effect was
    touched, and the rest of the state extends [st0]. *)
Definition building (st0 : State) (h : list DGSLEffect) (dev : nat)
  (ps : option nat) (log : list EffectCall) (ec : gmap (list N) nat)
  (st : State) : Prop :=
  extends st0 st /\
  effects (world st) = h ++ [mkDGSLEffect dev ps log] /\
  mEffectCache (this st) = ec.

(** What a step of the configuration does to the effect under
    construction and to the effect cache: [S r ext ec ec'] relates its
    outcome [r], the calls [ext] it adds to the effect, and the effect
    cache before and after it. *)
Definition appends {A} (st0 : State) (h : list DGSLEffect) (dev : nat)
  (ps : option nat) (m : M A)
  (S : Outcome A -> list EffectCall ->
       gmap (list N) nat -> gmap (list N) nat -> Prop) : Prop :=
  forall log ec st,
    building st0 h dev ps log ec st ->
    exists ext ec',
      building st0 h dev ps (log ++ ext) ec' (final m st) /\
      S (outcome m st) ext ec ec'.

(** The decision table of [CreateDGSLEffect] for the pixel shader name
    [p], read in the state [st] in which the shader is looked for: which
    shader [ps] the effect is constructed with, and whether it is lit and
    may be specular. *)
Definition variant_table (env : Env) (dev : nat) (p : LPCWSTR) (st : State)
  (ps : option nat) (lighting allowSpecular : bool) : Prop :=
  (nonempty p = false -> ps = None /\ lighting = true /\ allowSpecular = true) /\
  (nonempty p = true ->
   let root := spec_root (wstr p) in
   (_wcsicmp root (L "lambert") = 0 ->
    ps = None /\ lighting = true /\ allowSpecular = false) /\
   (_wcsicmp root (L "phong") = 0 ->
    ps = None /\ lighting = true /\ allowSpecular = true) /\
   (_wcsicmp root (L "unlit") = 0 ->
    ps = None /\ lighting = false /\ allowSpecular = true) /\
   (_wcsicmp root (L "lambert") <> 0 ->
    _wcsicmp root (L "phong") <> 0 ->
    _wcsicmp root (L "unlit") <> 0 ->
    lighting = true /\ allowSpecular = true /\
    exists file loaded,
      file = (if GetFeatureLevel env dev <? D3D_FEATURE_LEVEL_10_0
              then root ++ L ".cso" else wstr p) /\
      outcome (CreatePixelShader env (Some file) ValidOut) st = Returns loaded /\
      ps = Some loaded)).

(** [srv] is what [CreateTexture] returned for the texture named [t], in
    some state of the factory (nothing is said of a texture not named). *)
Definition loaded_by (env : Env) (ctx : option nat) (t : LPCWSTR) (srv : nat)
  : Prop :=
  nonempty t = true ->
  exists st, outcome (CreateTexture env t ctx ValidOut) st = Returns srv.

(** The calls each part of the configuration makes. *)
Definition lighting_calls (lighting : bool) : list EffectCall :=
  if lighting then [EnableDefaultLighting; SetLightingEnabled true] else [].

Definition color_calls (info : EffectInfo) : list EffectCall :=
  [SetAmbientColor (ambientColor info); SetDiffuseColor (diffuseColor info);
   SetAlpha (alpha info)].

Definition specular_calls (info : EffectInfo) : list EffectCall :=
  if any_component_nonzero (specularColor info)
  then [SetSpecularColor (specularColor info);
        SetSpecularPower (specularPower info)]
  else [].

Definition dgsl_specular_calls (allowSpecular : bool) (info : EffectInfo)
  : list EffectCall :=
  if allowSpecular && any_component_nonzero (specularColor info)
  then [SetSpecularColor (specularColor info);
        SetSpecularPower (specularPower info)]
  else [DisableSpecular].

Definition emissive_calls (info : EffectInfo) : list EffectCall :=
  if any_component_nonzero (emissiveColor info)
  then [SetEmissiveColor (emissiveColor info)]
  else [].

Definition texture_calls (t : LPCWSTR) (srv : SRV) : list EffectCall :=
  if nonempty t then [SetTexture srv; SetTextureEnabled true] else [].

Definition slot_calls (t : LPCWSTR) (j : nat) (srv : SRV) : list EffectCall :=
  if nonempty t
  then [SetTextureAt (Z.of_nat j + 1) srv; SetTextureEnabled true]
  else [].

(** The calls of the loop over the extra texture slots [js], [srvs] being
    the views loaded for them. *)
Definition slots_calls (ts : nat -> LPCWSTR) (js : list nat) (srvs : list SRV)
  : list EffectCall :=
  concat (zip_with (fun j srv => slot_calls (ts j) j srv) js srvs).

(** A method keeps the lock discipline under a rule for lookups: the
    events it adds to the trace replay without fault from a free mutex and
    leave it free. *)
Definition keeps_discipline {A} (rule : LookupRule) (m : M A) (st : State)
  : Prop :=
  exists evs,
    trace (world (final m st)) = trace (world st) ++ evs /\
    discipline rule false evs = Some false.

(** How a method that creates effects shares them under the name [n]:
    with sharing on, a cached effect is returned as it is and nothing is
    constructed or changed; otherwise, when the method returns, it returns
    a new effect, allocated after the effects there were, and has cached
    it under [n] if sharing is on, and when it does not return (a load
    has thrown) the effect cache is as it was; and no entry of the effect
    cache is ever removed or replaced. *)
Definition shares_effects (create : M nat) (n : list N) (st : State) : Prop :=
  (mSharing (this st) = true ->
   forall e, mEffectCache (this st) !! n = Some e ->
   create st = (Returns e, traced [EvFind EffectCache n] st)) /\
  (mSharing (this st) = false \/ mEffectCache (this st) !! n = None ->
   (forall e, outcome create st = Returns e ->
    e = length (effects (world st)) /\
    (exists new,
       effects (world (final create st)) = effects (world st) ++ [new]) /\
    mEffectCache (this (final create st)) =
      (if mSharing (this st)
       then <[n := e]> (mEffectCache (this st))
       else mEffectCache (this st))) /\
   ((forall e, outcome create st <> Returns e) ->
    mEffectCache (this (final create st)) = mEffectCache (this st))) /\
  (forall k e, mEffectCache (this st) !! k = Some e ->
   mEffectCache (this (final create st)) !! k = Some e).

(** What the calls made on an effect say about the material, whichever
    method built it: the ambient colour, the diffuse colour and alpha are
    set, to the values of the description and to no other; the emissive
    colour is set, to the value of the description, exactly when one of
    its components is not zero; and a texture is set exactly when the
    description names one. *)
Definition material_configured (info : EffectInfo) (calls : list EffectCall)
  : Prop :=
  (forall c, In (SetAmbientColor c) calls <-> c = ambientColor info) /\
  (forall c, In (SetDiffuseColor c) calls <-> c = diffuseColor info) /\
  (forall a, In (SetAlpha a) calls <-> a = alpha info) /\
  (forall c, In (SetEmissiveColor c) calls <->
     c = emissiveColor info /\
     any_component_nonzero (emissiveColor info) = true) /\
  ((exists srv, In (SetTexture srv) calls) <-> nonempty (texture info) = true).

(** The specular colour and power are set, to the values of the
    description, exactly when [allowed] and one of the components of the
    colour is not zero. *)
Definition specular_configured (allowed : bool) (info : EffectInfo)
  (calls : list EffectCall) : Prop :=
  (forall c, In (SetSpecularColor c) calls <->
     c = specularColor info /\
     allowed && any_component_nonzero (specularColor info) = true) /\
  (forall p, In (SetSpecularPower p) calls <->
     p = specularPower info /\
     allowed && any_component_nonzero (specularColor info) = true).

(** The seven extra slots: slot [j + 1] is set exactly when the
    description names a texture for it, no other slot is set, and
    texturing is enabled exactly when some texture is named. *)
Definition slots_configured (info : DGSLEffectInfo) (calls : list EffectCall)
  : Prop :=
  (forall j, (j < 7)%nat ->
     (exists srv, In (SetTextureAt (Z.of_nat j + 1) srv) calls) <->
     nonempty (textures info j) = true) /\
  (forall k srv, In (SetTextureAt k srv) calls -> 1 <= k <= 7) /\
  (In (SetTextureEnabled true) calls <->
     nonempty (texture info) = true \/
     exists j, (j < 7)%nat /\ nonempty (textures info j) = true).

(** The pixel shader name selects the "lambert" variant. *)
Definition is_lambert (p : LPCWSTR) : bool :=
  nonempty p && (_wcsicmp (spec_root (wstr p)) (L "lambert") =? 0).

(** ** The resources an effect method loads *)

(** The state [st] with the effects [h] in place of its own: the
    implementation object, the object counter and the trace are those of
    [st]. *)
Definition with_effects (h : list DGSLEffect) (st : State) : State :=
  mkState (this st) (mkWorld h (next_object (world st)) (trace (world st))).

(** The state after the texture [t] of a description was dealt with from
    [st]: [CreateTexture] has run on it if it is named, and nothing has
    happened if it is not. *)
Definition texture_loaded (env : Env) (ctx : option ID3D11DeviceContext)
  (t : LPCWSTR) (st : State) : State :=
  if nonempty t then final (CreateTexture env t ctx ValidOut) st else st.

(** The same for the textures [ts], one after the other. *)
Definition textures_loaded (env : Env) (ctx : option ID3D11DeviceContext)
  (ts : list LPCWSTR) (st : State) : State :=
  foldl (fun s t => texture_loaded env ctx t s) st ts.

(** The events of entering a new effect in the effect cache, which is
    done when sharing is on and the effect has a name. *)
Definition caching_events (sharing : bool) (name : LPCWSTR) : list Event :=
  if sharing && nonempty name
  then [EvLock; EvInsert EffectCache (wstr name); EvUnlock]
  else [].

(** What a method that has built an effect leaves beside the effects and
    the effect cache is what the state [s] has: the texture cache, the
    shader cache, the object counter, and the trace, to which only the
    events of caching the effect were added. *)
Definition resources_as (sharing : bool) (name : LPCWSTR) (s st' : State)
  : Prop :=
  mTextureCache (this st') = mTextureCache (this s) /\
  mShaderCache (this st') = mShaderCache (this s) /\
  next_object (world st') = next_object (world s) /\
  trace (world st') = trace (world s) ++ caching_events sharing name.

(** A step of the configuration of the effect just constructed after the
    effects [h], with the state it leaves: [S r ext s s'] relates its
    outcome [r], the calls [ext] it adds to the effect, and the state
    before and after it, effects apart. *)
Definition configures {A} (h : list DGSLEffect) (dev : nat) (ps : option nat)
  (m : M A) (S : Outcome A -> list EffectCall -> State -> State -> Prop)
  : Prop :=
  forall log s,
    exists ext s',
      final m (with_effects (h ++ [mkDGSLEffect dev ps log]) s) =
        with_effects (h ++ [mkDGSLEffect dev ps (log ++ ext)]) s' /\
      S (outcome m (with_effects (h ++ [mkDGSLEffect dev ps log]) s)) ext s s'.

(** ** The public methods of [DGSLEffectFactory] *)

(** The running program: the implementation objects with their pool, and
    the world that all of them act on. *)
Record Program := mkProgram { process : Process; heap : World }.

(** [pImpl->m( ... )]: the method runs on the implementation object the
    factory points to, which keeps what the method leaves in its fields.
    [None] is the undefined behaviour of a call through a pointer that
    holds no object. *)
Definition deref {A} (f : DGSLEffectFactory) (m : M A) (g : Program)
  : option (Outcome A * Program) :=
  match impls (process g) !! pImpl f with
  | Some impl =>
      let r := m (mkState impl (heap g)) in
      Some (fst r,
            mkProgram
              (mkProcess (instancePool (process g))
                 (<[pImpl f := this (snd r)]> (impls (process g))))
              (world (snd r)))
  | None => None
  end.

(** The public methods forward to the implementation object.  Where the
    source passes the factory itself ([this]) for the nested calls of
    [CreateTexture] and [CreatePixelShader], these come back to the same
    implementation object, as the methods above have them. *)
Module Factory.

(** [return pImpl->CreateEffect( this, info, deviceContext );] *)
Definition CreateEffect (env : Env) (f : DGSLEffectFactory) (info : EffectInfo)
  (deviceContext : option ID3D11DeviceContext) :=
  deref f (CreateEffect env info deviceContext).

(** [return pImpl->CreateTexture( name, deviceContext, textureView );] *)
Definition CreateTexture (env : Env) (f : DGSLEffectFactory) (name : LPCWSTR)
  (deviceContext : option ID3D11DeviceContext) (textureView : OutPtr) :=
  deref f (CreateTexture env name deviceContext textureView).

(** [return pImpl->CreateDGSLEffect( this, info, deviceContext );] *)
Definition CreateDGSLEffect (env : Env) (f : DGSLEffectFactory)
  (info : DGSLEffectInfo) (deviceContext : option ID3D11DeviceContext) :=
  deref f (CreateDGSLEffect env info deviceContext).

(** [pImpl->CreatePixelShader( shader, pixelShader );] *)
Definition CreatePixelShader (env : Env) (f : DGSLEffectFactory)
  (shader : LPCWSTR) (pixelShader : OutPtr) :=
  deref f (CreatePixelShader env shader pixelShader).

(** [pImpl->ReleaseCache();] *)
Definition ReleaseCache (f : DGSLEffectFactory) := deref f ReleaseCache.

(** [pImpl->SetSharing( enabled );] *)
Definition SetSharing (f : DGSLEffectFactory) (enabled : bool) :=
  deref f (SetSharing enabled).

End Factory.

(** ** Sequences of calls *)

(** A call of one of the six methods of the implementation object. *)
Inductive Request :=
  | RequestEffect (info : EffectInfo) (deviceContext : option ID3D11DeviceContext)
  | RequestDGSLEffect (info : DGSLEffectInfo)
      (deviceContext : option ID3D11DeviceContext)
  | RequestTexture (name : LPCWSTR) (deviceContext : option ID3D11DeviceContext)
      (textureView : OutPtr)
  | RequestPixelShader (name : LPCWSTR) (pixelShader : OutPtr)
  | RequestReleaseCache
  | RequestSetSharing (enabled : bool).

(** The state a call leaves, whether it returns or throws. *)
Definition serve (env : Env) (st : State) (q : Request) : State :=
  match q with
  | RequestEffect info ctx => final (CreateEffect env info ctx) st
  | RequestDGSLEffect info ctx => final (CreateDGSLEffect env info ctx) st
  | RequestTexture name ctx out => final (CreateTexture env name ctx out) st
  | RequestPixelShader name out => final (CreatePixelShader env name out) st
  | RequestReleaseCache => final ReleaseCache st
  | RequestSetSharing enabled => final (SetSharing enabled) st
  end.

Definition serve_all (env : Env) (qs : list Request) (st : State) : State :=
  foldl (serve env) st qs.

(** ** How a call may end *)

(** [fails_only may_throw may_abort r]: the outcome [r] is a return; or
    the failure code of a collaborator, thrown, if [may_throw]; or the
    end of the process, if [may_abort].  It is never the exception for
    invalid arguments. *)
Definition fails_only {A} (may_throw may_abort : bool) (r : Outcome A) : Prop :=
  match r with
  | Returns _ => True
  | Throws (failed_hresult hr) => may_throw = true /\ FAILED hr = true
  | Throws invalid_arguments => False
  | Aborts => may_abort = true
  end.

Definition ends {A} (may_throw may_abort : bool) (m : M A) : Prop :=
  forall st, fails_only may_throw may_abort (outcome m st).

(** The root selects one of the three built-in variants. *)
Definition builtin_root (root : wstring) : bool :=
  (_wcsicmp root (L "lambert") =? 0) ||
  (_wcsicmp root (L "phong") =? 0) ||
  (_wcsicmp root (L "unlit") =? 0).

(** What [CreateDGSLEffect] copies into [root] from the pixel shader name
    [s], and what is left of it once cut at the first period. *)
Definition root_copied (s : wstring) : wstring :=
  match wcsrchr s 95%N with
  | Some last => drop (S last) s
  | None => s
  end.

Definition root_cut (s : wstring) : wstring :=
  match wcschr (root_copied s) 46%N with
  | Some first => take first (root_copied s)
  | None => root_copied s
  end.

(** The buffer [wchar_t root[ MAX_PATH ]] is too small for the name [p]:
    for what is copied into it, or, on a device below feature level 10.0
    and for a shader that is not built in, for the root with ".cso"
    appended. *)
Definition root_overflows (env : Env) (dev : ID3D11Device) (p : LPCWSTR)
  : bool :=
  nonempty p &&
  ((MAX_PATH <=? length (root_copied (wstr p)))%nat ||
   (negb (builtin_root (root_cut (wstr p))) &&
    (GetFeatureLevel env dev <? D3D_FEATURE_LEVEL_10_0) &&
    (MAX_PATH <=? length (root_cut (wstr p)) + 4)%nat)).

(** The description names a file to load: a texture, one of the seven
    extra textures, or a pixel shader that is not built in. *)
Definition dgsl_loads (info : DGSLEffectInfo) : bool :=
  nonempty (texture info) ||
  existsb (fun j => nonempty (textures info j)) (seq 0 7) ||
  (nonempty (pixelShader info) &&
   negb (builtin_root (root_cut (wstr (pixelShader info))))).

(** ** Conditions kept while a method runs *)

(** [step P m R E]: from a state in [P], the method [m] returns a value
    [a] in a state in [R a], or ends otherwise in a state in [E]. *)
Definition step {A} (P : State -> Prop) (m : M A) (R : A -> State -> Prop)
  (E : State -> Prop) : Prop :=
  forall st, P st ->
    match outcome m st with
    | Returns a => R a (final m st)
    | _ => E (final m st)
    end.

(** The handles held by the caches: no entry is under the empty name; a
    cached effect is one of the effects allocated, a cached texture or
    shader an object created earlier; and no object is cached twice, be
    it under two names of a cache or as a texture and as a shader. *)
Record cache_ok (st : State) : Prop := mk_cache_ok {
  ok_keys : forall c, cache_of c (this st) !! [] = None;
  ok_effects : forall k e,
    mEffectCache (this st) !! k = Some e ->
    (e < length (effects (world st)))%nat;
  ok_textures : forall k v,
    mTextureCache (this st) !! k = Some v -> (v < next_object (world st))%nat;
  ok_shaders : forall k v,
    mShaderCache (this st) !! k = Some v -> (v < next_object (world st))%nat;
  ok_names : forall c k k' v,
    cache_of c (this st) !! k = Some v -> cache_of c (this st) !! k' = Some v ->
    k = k';
  ok_kinds : forall k k' v,
    mTextureCache (this st) !! k = Some v ->
    mShaderCache (this st) !! k' = Some v -> False
}.

(** The same while the effect [oe] is being configured: it is allocated,
    and not cached yet. *)
Definition cache_ok_building (oe : option EffectPtr) (st : State) : Prop :=
  cache_ok st /\
  forall e, oe = Some e ->
    (e < length (effects (world st)))%nat /\
    forall k, mEffectCache (this st) !! k <> Some e.

(** The implementation object is [i], whatever happens in the world. *)
Definition impl_is (i : Impl) (oe : option EffectPtr) (st : State) : Prop :=
  this st = i.

(** The effects [h] are where they were and as they were, and the effect
    being configured is none of them. *)
Definition effects_kept (h : list DGSLEffect) (oe : option EffectPtr)
  (st : State) : Prop :=
  take (length h) (effects (world st)) = h /\
  forall e, oe = Some e -> (length h <= e)%nat.

(** ** The mutex, read off the trace *)

(** The events that happen while the mutex is held, [held] telling
    whether it is at the start. *)
Fixpoint under_lock (held : bool) (evs : list Event) : list Event :=
  match evs with
  | [] => []
  | EvLock :: evs' => under_lock true evs'
  | EvUnlock :: evs' => under_lock false evs'
  | ev :: evs' =>
      if held then ev :: under_lock held evs' else under_lock held evs'
  end.

(** ** Sample inputs *)

(** A desktop build on a feature level 11.0 device where every file
    loads, the same with every load failing, a Windows Phone build, and a
    feature level 9.3 device. *)
Definition env_desktop : Env :=
  mkEnv false (fun _ => 45056) (fun _ _ _ => S_OK) (fun _ _ _ _ => S_OK)
    (fun _ _ => S_OK) (fun _ _ _ => S_OK).

Definition env_no_files : Env :=
  mkEnv false (fun _ => 45056) (fun _ _ _ => E_FAIL) (fun _ _ _ _ => E_FAIL)
    (fun _ _ => E_FAIL) (fun _ _ _ => E_FAIL).

Definition env_phone : Env :=
  mkEnv true (fun _ => 45056) (fun _ _ _ => S_OK) (fun _ _ _ _ => S_OK)
    (fun _ _ => S_OK) (fun _ _ _ => S_OK).

Definition env_level_9_3 : Env :=
  mkEnv false (fun _ => 37632) (fun _ _ _ => S_OK) (fun _ _ _ _ => S_OK)
    (fun _ _ => S_OK) (fun _ _ _ => S_OK).

(** A factory implementation just constructed on device 1, no effect
    allocated yet, COM objects allocated from address 100. *)
Definition st_fresh : State :=
  mkState (Impl_ctor 1%nat) (mkWorld [] 100%nat []).

(** The same with sharing switched off. *)
Definition st_unshared : State := final (SetSharing false) st_fresh.

Definition black : XMFLOAT3 :=
  mkXMFLOAT3 (S754_zero false) (S754_zero false) (S754_zero false).

Definition float_one : float := S754_finite false 8388608 (-23).

Definition white : XMFLOAT3 := mkXMFLOAT3 float_one float_one float_one.

(** A material named "brick" with a WIC texture and no specular or
    emissive colour. *)
Definition info_brick : EffectInfo :=
  mkEffectInfo (Some (L "brick")) float_one float_one white white black black
    (Some (L "brick.png")).

(** An unnamed, untextured, shiny material. *)
Definition info_anonymous : EffectInfo :=
  mkEffectInfo None float_one float_one white white white black None.

(** A shiny DGSL material named "wall" with the built-in lambert shader, a
    DDS texture, and a normal map in the third extra slot. *)
Definition dinfo_wall : DGSLEffectInfo :=
  mkDGSLEffectInfo
    (mkEffectInfo (Some (L "wall")) float_one float_one white white white black
       (Some (L "wall.dds")))
    (fun j => if (j =? 2)%nat then Some (L "wall_n.png") else None)
    (Some (L "Wall_Lambert.hlsl")).

(** An unnamed DGSL material with a shader of its own. *)
Definition dinfo_glow : DGSLEffectInfo :=
  mkDGSLEffectInfo info_anonymous (fun _ => None) (Some (L "glow.cso")).

(** The factory after "brick" was created, and after "wood.dds" was
    loaded. *)
Definition st_brick : State :=
  final (CreateEffect env_desktop info_brick None) st_fresh.

Definition st_wood : State :=
  final (CreateTexture env_desktop (Some (L "wood.dds")) None ValidOut) st_fresh.

(** An unnamed material for the built-in unlit shader, one whose pixel
    shader name is 260 characters long, and a DGSL material that is named
    "brick" like [info_brick]. *)
Definition dinfo_unlit : DGSLEffectInfo :=
  mkDGSLEffectInfo info_anonymous (fun _ => None) (Some (L "sky_unlit.dgsl")).

Definition dinfo_long : DGSLEffectInfo :=
  mkDGSLEffectInfo info_anonymous (fun _ => None) (Some (repeat 97%N 260)).

Definition dinfo_brick : DGSLEffectInfo :=
  mkDGSLEffectInfo info_brick (fun _ => None) (Some (L "brick_phong.hlsl")).

(** "wood.dds" is loaded, then sharing is switched off. *)
Definition calls_wood : list Request :=
  [RequestTexture (Some (L "wood.dds")) None ValidOut; RequestSetSharing false].

(** A program with one implementation object, on device 1, and two
    factories that hold it. *)
Definition program_one : Program :=
  mkProgram (mkProcess {[1%nat := 0%nat]} [Impl_ctor 1%nat])
    (mkWorld [] 100%nat []).

Definition factory_a : DGSLEffectFactory := mkFactory 0.
Definition factory_b : DGSLEffectFactory := mkFactory 0.

(** The same program after "wood.dds" was loaded through the first
    factory. *)
Definition program_wood : Program :=
  match Factory.CreateTexture env_desktop factory_a (Some (L "wood.dds")) None
          ValidOut program_one with
  | Some (_, g) => g
  | None => program_one
  end.

(** * Properties *)

#[local] Set Warnings "-clear-no-such-hyp".

(** ** Basic facts *)

Example ext_dds : _wsplitpath_s (L "media\wood.DDS") = L ".DDS".
Proof. reflexivity. Qed.

Example ext_dir_dot : _wsplitpath_s (L "a.dds/wood") = [].
Proof. reflexivity. Qed.

Example ext_drive : _wsplitpath_s (L "c:tex.v2.png") = L ".png".
Proof. reflexivity. Qed.

Example icmp_dds : _wcsicmp (L ".DdS") (L ".dds") = 0.
Proof. reflexivity. Qed.

Lemma discipline_app rule held evs1 evs2 :
  discipline rule held (evs1 ++ evs2) =
  match discipline rule held evs1 with
  | Some held' => discipline rule held' evs2
  | None => None
  end.
Proof.
  revert held; induction evs1 as [|ev evs1 IH]; intros held; [reflexivity|].
  destruct ev, held, rule; simpl; try apply IH; reflexivity.
Qed.

Lemma extends_refl st : extends st st.
Proof.
  split; auto. exists []. split; [by rewrite app_nil_r | reflexivity].
Qed.

Lemma extends_trans st1 st2 st3 :
  extends st1 st2 -> extends st2 st3 -> extends st1 st3.
Proof.
  intros [d1 s1 c1 o1 (e1 & t1 & g1)] [d2 s2 c2 o2 (e2 & t2 & g2)].
  split; [congruence | congruence | auto | lia |].
  exists (e1 ++ e2). split.
  - rewrite t2, t1. by rewrite app_assoc.
  - rewrite discipline_app, g1. exact g2.
Qed.

Lemma map_insert_lookup_old (k : wstring) (v : nat) (m : gmap wstring nat)
  (k' : wstring) (v' : nat) :
  m !! k' = Some v' -> map_insert k v m !! k' = Some v'.
Proof.
  intros H. unfold map_insert. destruct (m !! k) eqn:E; [done|].
  destruct (decide (k = k')) as [->|Hne]; [congruence|].
  by rewrite lookup_insert_ne.
Qed.

Lemma map_insert_fresh (k : wstring) (v : nat) (m : gmap wstring nat) :
  m !! k = None -> map_insert k v m = <[k := v]> m.
Proof. intros H. unfold map_insert. by rewrite H. Qed.

Lemma bind_run {A B} (m : M A) (f : A -> M B) st :
  bind m f st =
  match outcome m st with
  | Returns a => f a (final m st)
  | Throws e => (Throws e, final m st)
  | Aborts => (Aborts, final m st)
  end.
Proof.
  unfold bind, outcome, final. destruct (m st) as [[a|e|] st']; reflexivity.
Qed.

(** ** Symbolic execution of the small methods *)

Ltac unfold_monad :=
  unfold cache_find, cache_insert, cache_clear, lock_guard, when, crt,
    ThrowIfFailed, CreateDDSTextureFromFile, CreateWICTextureFromFile,
    ReadEntireFile, device_CreatePixelShader, make_shared, call, new_object,
    get_trace, emit, gets, modify_impl, modify_world, bind, ret, throw, abort,
    outcome, final, traced in *.

Ltac case_split :=
  match goal with
  | |- context [match ?b with _ => _ end] =>
      lazymatch b with
      | context [match _ with _ => _ end] => fail
      | _ => destruct b eqn:?
      end
  end.

Ltac reuse_case :=
  match goal with
  | H : ?b = true |- context [?b] => rewrite H
  | H : ?b = false |- context [?b] => rewrite H
  | H : ?o = None |- context [?o] => rewrite H
  | H : ?o = Some _ |- context [?o] => rewrite H
  end.

Ltac run_method :=
  unfold_monad; repeat (simpl; first [reuse_case | case_split]); simpl.

Ltac solve_extends :=
  try congruence;
  try apply extends_refl;
  split; simpl;
  first
    [ reflexivity
    | congruence
    | lia
    | by (intros [] ? ? ?; simpl; auto using map_insert_lookup_old)
    | by (rewrite <- ?app_assoc; eexists; split; [reflexivity | reflexivity]) ].

Lemma CreateTexture_extends env name ctx out st :
  extends st (final (CreateTexture env name ctx out) st).
Proof. unfold CreateTexture. run_method; solve_extends. Qed.

Lemma CreatePixelShader_extends env name out st :
  extends st (final (CreatePixelShader env name out) st).
Proof. unfold CreatePixelShader. run_method; solve_extends. Qed.

(** Loading a texture or a shader touches no effect, and only its own
    cache. *)
Lemma CreateTexture_frame env name ctx out st :
  let st' := final (CreateTexture env name ctx out) st in
  effects (world st') = effects (world st) /\
  mEffectCache (this st') = mEffectCache (this st) /\
  mShaderCache (this st') = mShaderCache (this st).
Proof. unfold CreateTexture. run_method; auto. Qed.

Lemma CreatePixelShader_frame env name out st :
  let st' := final (CreatePixelShader env name out) st in
  effects (world st') = effects (world st) /\
  mEffectCache (this st') = mEffectCache (this st) /\
  mTextureCache (this st') = mTextureCache (this st).
Proof. unfold CreatePixelShader. run_method; auto. Qed.

Lemma CreateTexture_hit env n ctx st srv :
  mSharing (this st) = true ->
  mTextureCache (this st) !! n = Some srv ->
  CreateTexture env (Some n) ctx ValidOut st =
  (Returns srv, traced [EvFind TextureCache n; EvAddRef srv] st).
Proof.
  intros Hs Hc. unfold CreateTexture. unfold_monad. simpl.
  rewrite Hs, Hc. simpl. by rewrite <- app_assoc.
Qed.

Lemma CreatePixelShader_hit env n st ps :
  mSharing (this st) = true ->
  mShaderCache (this st) !! n = Some ps ->
  CreatePixelShader env (Some n) ValidOut st =
  (Returns ps, traced [EvFind ShaderCache n; EvAddRef ps] st).
Proof.
  intros Hs Hc. unfold CreatePixelShader. unfold_monad. simpl.
  rewrite Hs, Hc. simpl. by rewrite <- app_assoc.
Qed.

Ltac absurd_bool :=
  exfalso;
  repeat match goal with
         | H : _ && _ = true |- _ => apply andb_prop in H; destruct H
         end;
  simpl in *; congruence.

Ltac assoc_traces := rewrite <- ?app_assoc in *; simpl in *.

Ltac solve_events :=
  assoc_traces; do 2 eexists;
  split; [reflexivity | split; [eassumption | simpl; auto]].

Lemma CreateTexture_miss env n ctx st :
  mSharing (this st) = false \/ mTextureCache (this st) !! n = None ->
  forall srv,
  outcome (CreateTexture env (Some n) ctx ValidOut) st = Returns srv ->
  let st' := final (CreateTexture env (Some n) ctx ValidOut) st in
  srv = next_object (world st) /\
  next_object (world st') = S srv /\
  mTextureCache (this st') =
    (if mSharing (this st) && nonempty (Some n)
     then <[n := srv]> (mTextureCache (this st))
     else mTextureCache (this st)) /\
  exists evs hr,
    trace (world st') = trace (world st) ++ evs /\
    FAILED hr = false /\
    (List.filter is_loader_call evs = [EvDDS n hr] \/
     List.filter is_loader_call evs = [EvWIC ctx n hr]).
Proof.
  intros Hmiss srv. unfold CreateTexture. run_method.
  all: intros; simplify_eq; try (destruct Hmiss; congruence); try absurd_bool.
  all: rewrite ?map_insert_fresh by assumption.
  all: repeat split; try reflexivity.
  all: solve_events.
Qed.

Lemma CreatePixelShader_miss env n st :
  mSharing (this st) = false \/ mShaderCache (this st) !! n = None ->
  forall ps,
  outcome (CreatePixelShader env (Some n) ValidOut) st = Returns ps ->
  let st' := final (CreatePixelShader env (Some n) ValidOut) st in
  ps = next_object (world st) /\
  next_object (world st') = S ps /\
  mShaderCache (this st') =
    (if mSharing (this st) && nonempty (Some n)
     then <[n := ps]> (mShaderCache (this st))
     else mShaderCache (this st)) /\
  exists evs hr hr',
    trace (world st') = trace (world st) ++ evs /\
    FAILED hr = false /\
    FAILED hr' = false /\
    List.filter is_shader_call evs =
      [EvReadEntireFile n hr; EvDeviceCreatePixelShader hr'].
Proof.
  intros Hmiss ps. unfold CreatePixelShader. run_method.
  all: intros; simplify_eq; try (destruct Hmiss; congruence); try absurd_bool.
  all: rewrite ?map_insert_fresh by assumption.
  all: repeat split; try reflexivity.
  all: assoc_traces; do 3 eexists.
  all: split; [reflexivity|]; (split; [|split; [|reflexivity]]); assumption.
Qed.

(** On a miss the outcome is decided by the one loader call: the call
    throws the failure code of the loader, or returns the new object. *)
Lemma CreateTexture_miss_outcome env n ctx st :
  mSharing (this st) = false \/ mTextureCache (this st) !! n = None ->
  exists evs hr,
    trace (world (final (CreateTexture env (Some n) ctx ValidOut) st)) =
      trace (world st) ++ evs /\
    (List.filter is_loader_call evs = [EvDDS n hr] \/
     List.filter is_loader_call evs = [EvWIC ctx n hr]) /\
    outcome (CreateTexture env (Some n) ctx ValidOut) st =
      (if FAILED hr then Throws (failed_hresult hr)
       else Returns (next_object (world st))).
Proof.
  intros Hmiss. unfold CreateTexture. run_method.
  all: try (destruct Hmiss; congruence); try absurd_bool.
  all: assoc_traces; do 2 eexists; (split; [reflexivity|]).
  all: (split; [simpl; auto|]).
  all: repeat reuse_case; reflexivity.
Qed.

Lemma CreatePixelShader_miss_outcome env n st :
  mSharing (this st) = false \/ mShaderCache (this st) !! n = None ->
  exists evs hr,
    trace (world (final (CreatePixelShader env (Some n) ValidOut) st)) =
      trace (world st) ++ evs /\
    ((FAILED hr = true /\
      List.filter is_shader_call evs = [EvReadEntireFile n hr] /\
      outcome (CreatePixelShader env (Some n) ValidOut) st =
        Throws (failed_hresult hr)) \/
     (FAILED hr = false /\
      exists hr',
        List.filter is_shader_call evs =
          [EvReadEntireFile n hr; EvDeviceCreatePixelShader hr'] /\
        outcome (CreatePixelShader env (Some n) ValidOut) st =
          (if FAILED hr' then Throws (failed_hresult hr')
           else Returns (next_object (world st))))).
Proof.
  intros Hmiss. unfold CreatePixelShader. run_method.
  all: try (destruct Hmiss; congruence); try absurd_bool.
  all: assoc_traces; do 2 eexists; (split; [reflexivity|]).
  all: first
         [ left; (split; [|split; reflexivity]); assumption
         | right;
           (split; [|eexists; split;
                       [reflexivity | repeat reuse_case; reflexivity]]);
           assumption ].
Qed.

(** ** Textures and pixel shaders *)

(** C8: [CreateTexture] throws "invalid arguments" exactly when its name
    or its output pointer is null, and so does [CreatePixelShader]; and
    whenever either of them throws, be it for its arguments or because a
    loader failed, the implementation object, and so each of its caches,
    is as it was. *)
Theorem C8_invalid_arguments_and_exceptions env name ctx out st :
  (outcome (CreateTexture env name ctx out) st = Throws invalid_arguments <->
   name = None \/ out = NullOut) /\
  (outcome (CreatePixelShader env name out) st = Throws invalid_arguments <->
   name = None \/ out = NullOut) /\
  (forall e, outcome (CreateTexture env name ctx out) st = Throws e ->
   this (final (CreateTexture env name ctx out) st) = this st) /\
  (forall e, outcome (CreatePixelShader env name out) st = Throws e ->
   this (final (CreatePixelShader env name out) st) = this st).
Proof.
  repeat split.
  all: unfold CreateTexture, CreatePixelShader; run_method.
  all: intros; simplify_eq; auto.
  all: match goal with H : _ \/ _ |- _ => destruct H; discriminate end.
Qed.

(** C10: [ReleaseCache] returns with the three caches empty and with the
    device, the sharing flag, the effects and the COM objects as they
    were; [SetSharing] sets the flag and changes nothing else. *)
Theorem C10_release_cache_and_set_sharing st enabled :
  let released := final ReleaseCache st in
  let set := final (SetSharing enabled) st in
  (outcome ReleaseCache st = Returns tt /\
   mEffectCache (this released) = ∅ /\
   mTextureCache (this released) = ∅ /\
   mShaderCache (this released) = ∅ /\
   device (this released) = device (this st) /\
   mSharing (this released) = mSharing (this st) /\
   effects (world released) = effects (world st) /\
   next_object (world released) = next_object (world st)) /\
  (outcome (SetSharing enabled) st = Returns tt /\
   mSharing (this set) = enabled /\
   mEffectCache (this set) = mEffectCache (this st) /\
   mTextureCache (this set) = mTextureCache (this st) /\
   mShaderCache (this set) = mShaderCache (this st) /\
   device (this set) = device (this st) /\
   world set = world st).
Proof.
  unfold ReleaseCache, SetSharing. unfold_monad. simpl.
  destruct st as [i w]. simpl. repeat split.
Qed.

(** On a miss exactly one texture loader is called, whatever comes of it:
    the DDS loader in a Windows Phone build or for a ".dds" extension,
    the WIC loader with the caller's device context otherwise. *)
Lemma CreateTexture_dispatch env n ctx st :
  mSharing (this st) = false \/ mTextureCache (this st) !! n = None ->
  exists evs hr,
    trace (world (final (CreateTexture env (Some n) ctx ValidOut) st)) =
      trace (world st) ++ evs /\
    List.filter is_loader_call evs =
      [if phone_app env || (_wcsicmp (_wsplitpath_s n) (L ".dds") =? 0)
       then EvDDS n hr else EvWIC ctx n hr].
Proof.
  intros Hmiss. unfold CreateTexture. run_method.
  all: try (destruct Hmiss; congruence).
  all: assoc_traces; do 2 eexists; (split; [reflexivity|]); reflexivity.
Qed.

(** C7, as amended: on a cache miss of a build that is not for Windows
    Phone, [CreateTexture] calls exactly one loader, chosen by the
    extension of the name alone: the DDS loader if and only if the
    extension is ".dds" up to case, the WIC loader otherwise, and the WIC
    loader is given the device context exactly as the caller supplied it
    (none if none).  A Windows Phone build calls the DDS loader whatever
    the extension. *)
Theorem C7_texture_loader_dispatch env n ctx st :
  mSharing (this st) = false \/ mTextureCache (this st) !! n = None ->
  exists evs hr,
    trace (world (final (CreateTexture env (Some n) ctx ValidOut) st)) =
      trace (world st) ++ evs /\
    (phone_app env = false ->
     _wcsicmp (_wsplitpath_s n) (L ".dds") = 0 ->
     List.filter is_loader_call evs = [EvDDS n hr]) /\
    (phone_app env = false ->
     _wcsicmp (_wsplitpath_s n) (L ".dds") <> 0 ->
     List.filter is_loader_call evs = [EvWIC ctx n hr]) /\
    (phone_app env = true ->
     List.filter is_loader_call evs = [EvDDS n hr]).
Proof.
  intros Hmiss.
  destruct (CreateTexture_dispatch env n ctx st Hmiss) as (evs & hr & Ht & Hf).
  exists evs, hr. split; [exact Ht|].
  rewrite Hf. repeat split.
  - intros -> ->. reflexivity.
  - intros -> Hne. apply Z.eqb_neq in Hne. by rewrite Hne.
  - intros ->. reflexivity.
Qed.

Lemma C7_texture_loader_dispatch_witness :
  exists evs hr,
    trace (world (final (CreateTexture env_desktop (Some (L "wood.DDS"))
                           (Some 7%nat) ValidOut) st_fresh)) = [] ++ evs /\
    List.filter is_loader_call evs = [EvDDS (L "wood.DDS") hr].
Proof.
  destruct (C7_texture_loader_dispatch env_desktop (L "wood.DDS") (Some 7%nat)
              st_fresh (or_intror eq_refl)) as (evs & hr & Ht & Hdds & _).
  exists evs, hr. split; [exact Ht|].
  apply Hdds; reflexivity.
Defined.

(** C7, as stated, fails in a Windows Phone build: "wood.png" has not the
    extension ".dds", and yet it is the DDS loader that is called and not
    the WIC loader. *)
Lemma C7_counterexample_phone_build :
  _wcsicmp (_wsplitpath_s (L "wood.png")) (L ".dds") <> 0 /\
  List.filter is_loader_call
    (trace (world (final (CreateTexture env_phone (Some (L "wood.png")) None
                            ValidOut) st_fresh))) =
  [EvDDS (L "wood.png") S_OK].
Proof. split; [discriminate | reflexivity]. Qed.

(** C3: with sharing enabled, a texture or shader cached under the name is
    returned as it is, with a reference added and nothing loaded, created
    or changed.  On a miss the named file is loaded, by one call of a
    texture loader or by reading the file and creating the shader, and
    the method returns the new object unless the load fails, in which
    case it throws the failure code.  The object a miss returns is
    entered in its cache under the name when sharing is enabled and the
    name is not empty.  So, with sharing enabled, asking again for a
    non-empty name gives the resource the first request gave. *)
Theorem C3_resources_shared_by_name env n ctx ctx' st :
  let tex := CreateTexture env (Some n) ctx ValidOut in
  let sha := CreatePixelShader env (Some n) ValidOut in
  (mSharing (this st) = true ->
   forall srv, mTextureCache (this st) !! n = Some srv ->
   tex st = (Returns srv, traced [EvFind TextureCache n; EvAddRef srv] st)) /\
  (mSharing (this st) = true ->
   forall ps, mShaderCache (this st) !! n = Some ps ->
   sha st = (Returns ps, traced [EvFind ShaderCache n; EvAddRef ps] st)) /\
  (mSharing (this st) = false \/ mTextureCache (this st) !! n = None ->
   forall srv, outcome tex st = Returns srv ->
   srv = next_object (world st) /\
   mTextureCache (this (final tex st)) =
     (if mSharing (this st) && nonempty (Some n)
      then <[n := srv]> (mTextureCache (this st))
      else mTextureCache (this st)) /\
   exists evs hr,
     trace (world (final tex st)) = trace (world st) ++ evs /\
     FAILED hr = false /\
     (List.filter is_loader_call evs = [EvDDS n hr] \/
      List.filter is_loader_call evs = [EvWIC ctx n hr])) /\
  (mSharing (this st) = false \/ mShaderCache (this st) !! n = None ->
   forall ps, outcome sha st = Returns ps ->
   ps = next_object (world st) /\
   mShaderCache (this (final sha st)) =
     (if mSharing (this st) && nonempty (Some n)
      then <[n := ps]> (mShaderCache (this st))
      else mShaderCache (this st)) /\
   exists evs hr hr',
     trace (world (final sha st)) = trace (world st) ++ evs /\
     FAILED hr = false /\ FAILED hr' = false /\
     List.filter is_shader_call evs =
       [EvReadEntireFile n hr; EvDeviceCreatePixelShader hr']) /\
  (mSharing (this st) = false \/ mTextureCache (this st) !! n = None ->
   exists evs hr,
     trace (world (final tex st)) = trace (world st) ++ evs /\
     (List.filter is_loader_call evs = [EvDDS n hr] \/
      List.filter is_loader_call evs = [EvWIC ctx n hr]) /\
     outcome tex st =
       (if FAILED hr then Throws (failed_hresult hr)
        else Returns (next_object (world st)))) /\
  (mSharing (this st) = false \/ mShaderCache (this st) !! n = None ->
   exists evs hr,
     trace (world (final sha st)) = trace (world st) ++ evs /\
     ((FAILED hr = true /\
       List.filter is_shader_call evs = [EvReadEntireFile n hr] /\
       outcome sha st = Throws (failed_hresult hr)) \/
      (FAILED hr = false /\
       exists hr',
         List.filter is_shader_call evs =
           [EvReadEntireFile n hr; EvDeviceCreatePixelShader hr'] /\
         outcome sha st =
           (if FAILED hr' then Throws (failed_hresult hr')
            else Returns (next_object (world st)))))) /\
  (mSharing (this st) = true -> n <> [] ->
   forall srv, outcome tex st = Returns srv ->
   outcome (CreateTexture env (Some n) ctx' ValidOut) (final tex st) =
     Returns srv) /\
  (mSharing (this st) = true -> n <> [] ->
   forall ps, outcome sha st = Returns ps ->
   outcome sha (final sha st) = Returns ps).
Proof.
  intros tex sha. subst tex sha. repeat apply conj.
  - intros. by apply CreateTexture_hit.
  - intros. by apply CreatePixelShader_hit.
  - intros Hmiss srv Hr.
    destruct (CreateTexture_miss env n ctx st Hmiss srv Hr) as (? & ? & ? & ?).
    auto.
  - intros Hmiss ps Hr.
    destruct (CreatePixelShader_miss env n st Hmiss ps Hr) as (? & ? & ? & ?).
    auto.
  - apply CreateTexture_miss_outcome.
  - apply CreatePixelShader_miss_outcome.
  - intros Hs Hn srv Hr.
    assert (Hs' : mSharing (this (final (CreateTexture env (Some n) ctx
                                           ValidOut) st)) = true).
    { rewrite <- Hs. apply ext_sharing, CreateTexture_extends. }
    assert (Hc : mTextureCache (this (final (CreateTexture env (Some n) ctx
                                               ValidOut) st)) !! n = Some srv).
    { destruct (mTextureCache (this st) !! n) as [old|] eqn:Hold.
      - unfold outcome, final in *.
        rewrite (CreateTexture_hit env n ctx st old Hs Hold) in *.
        simpl in *. congruence.
      - destruct (CreateTexture_miss env n ctx st (or_intror Hold) srv Hr)
          as (_ & _ & -> & _).
        rewrite Hs. destruct n; [done|]. simpl. apply lookup_insert_eq. }
    unfold outcome. by rewrite (CreateTexture_hit _ _ _ _ _ Hs' Hc).
  - intros Hs Hn ps Hr.
    assert (Hs' : mSharing (this (final (CreatePixelShader env (Some n)
                                           ValidOut) st)) = true).
    { rewrite <- Hs. apply ext_sharing, CreatePixelShader_extends. }
    assert (Hc : mShaderCache (this (final (CreatePixelShader env (Some n)
                                              ValidOut) st)) !! n = Some ps).
    { destruct (mShaderCache (this st) !! n) as [old|] eqn:Hold.
      - unfold outcome, final in *.
        rewrite (CreatePixelShader_hit env n st old Hs Hold) in *.
        simpl in *. congruence.
      - destruct (CreatePixelShader_miss env n st (or_intror Hold) ps Hr)
          as (_ & _ & -> & _).
        rewrite Hs. destruct n; [done|]. simpl. apply lookup_insert_eq. }
    unfold outcome. by rewrite (CreatePixelShader_hit _ _ _ _ Hs' Hc).
Qed.

(** ** One implementation object per device *)

Section InstancePool.

Lemma pool_ok_start : pool_ok process_start.
Proof. intros dev a H. simpl in H. by rewrite lookup_empty in H. Qed.

Lemma pool_grows_trans p1 p2 p3 :
  pool_grows p1 p2 -> pool_grows p2 p3 -> pool_grows p1 p3.
Proof. intros [A B] [C D]. split; auto. Qed.

Lemma DemandCreate_spec dev p :
  pool_ok p ->
  pool_ok (snd (DemandCreate dev p)) /\
  pool_grows p (snd (DemandCreate dev p)) /\
  instancePool (snd (DemandCreate dev p)) !! dev =
    Some (fst (DemandCreate dev p)).
Proof.
  intros Hok. unfold DemandCreate.
  destruct (instancePool p !! dev) as [a|] eqn:Hdev; simpl.
  - split; [exact Hok|]. split; [by split|]. exact Hdev.
  - split; [|split; [split|]].
    + intros d a Hd. simpl in *. destruct (decide (dev = d)) as [->|Hne].
      * rewrite lookup_insert_eq in Hd. injection Hd as <-.
        exists (Impl_ctor d). split; [|reflexivity].
        rewrite lookup_app_r by lia. by rewrite Nat.sub_diag.
      * rewrite lookup_insert_ne in Hd by done.
        destruct (Hok d a Hd) as (impl & Hi & Hdv).
        exists impl. split; [|exact Hdv].
        rewrite lookup_app_l; [exact Hi|]. by eapply lookup_lt_Some.
    + intros d a Hd. simpl. rewrite lookup_insert_ne; [exact Hd|]. congruence.
    + intros a impl Hi. simpl. rewrite lookup_app_l; [exact Hi|].
      by eapply lookup_lt_Some.
    + apply lookup_insert_eq.
Qed.

Lemma construct_all_spec devs : forall p,
  pool_ok p ->
  pool_ok (snd (construct_all devs p)) /\
  pool_grows p (snd (construct_all devs p)) /\
  length (fst (construct_all devs p)) = length devs /\
  forall i f dev,
    fst (construct_all devs p) !! i = Some f -> devs !! i = Some dev ->
    instancePool (snd (construct_all devs p)) !! dev = Some (pImpl f).
Proof.
  induction devs as [|d devs IH]; intros p Hok; simpl.
  - split; [exact Hok|]. split; [by split|]. split; [reflexivity|].
    intros i f dev H. by rewrite lookup_nil in H.
  - destruct (DemandCreate_spec d p Hok) as (Hok1 & Hg1 & Hd1).
    destruct (IH _ Hok1) as (Hok2 & Hg2 & Hlen & Hall).
    split; [exact Hok2|].
    split; [exact (pool_grows_trans _ _ _ Hg1 Hg2)|].
    split; [by rewrite Hlen|].
    intros [|i] f dev Hf Hdev; simpl in *.
    + injection Hf as <-. injection Hdev as <-. simpl.
      by apply Hg2.
    + by eapply Hall.
Qed.

End InstancePool.

(** C5: after any sequence of factory constructions from program start,
    two of the factories have the same implementation object, and with it
    the same three caches, if and only if they were constructed on the
    same device; and the implementation object of a factory is one built
    on its device. *)
Theorem C5_one_implementation_per_device devs i j fi fj di dj :
  let fs := fst (construct_all devs process_start) in
  let p := snd (construct_all devs process_start) in
  fs !! i = Some fi -> fs !! j = Some fj ->
  devs !! i = Some di -> devs !! j = Some dj ->
  (pImpl fi = pImpl fj <-> di = dj) /\
  exists impl, impls p !! pImpl fi = Some impl /\ device impl = di.
Proof.
  intros fs p Hfi Hfj Hdi Hdj.
  destruct (construct_all_spec devs process_start pool_ok_start)
    as (Hok & _ & _ & Hall).
  pose proof (Hall i fi di Hfi Hdi) as Hpi.
  pose proof (Hall j fj dj Hfj Hdj) as Hpj.
  destruct (Hok di _ Hpi) as (impl & Hi & Hdev).
  split; [|by exists impl].
  split.
  - intros Heq. destruct (Hok dj _ Hpj) as (impl' & Hi' & Hdev').
    rewrite <- Heq in Hi'. congruence.
  - intros ->. congruence.
Qed.

Lemma C5_one_implementation_per_device_witness :
  (pImpl (mkFactory 0) = pImpl (mkFactory 0) <-> 5%nat = 5%nat) /\
  (pImpl (mkFactory 0) = pImpl (mkFactory 1) <-> 5%nat = 8%nat).
Proof.
  split.
  - apply (C5_one_implementation_per_device [5; 8; 5]%nat 0 2
             (mkFactory 0) (mkFactory 0) 5%nat 5%nat); reflexivity.
  - apply (C5_one_implementation_per_device [5; 8; 5]%nat 0 1
             (mkFactory 0) (mkFactory 1) 5%nat 8%nat); reflexivity.
Defined.

(** ** Configuring a new effect *)

(** From here on the methods are used through their lemmas. *)
Arguments CreateTexture : simpl never.
Arguments CreatePixelShader : simpl never.
Arguments for_each : simpl never.

Lemma extends_world st0 st st' :
  this st' = this st ->
  next_object (world st') = next_object (world st) ->
  trace (world st') = trace (world st) ->
  extends st0 st -> extends st0 st'.
Proof.
  intros Hi Ho Ht [d s c o (evs & t & g)].
  split; rewrite ?Hi, ?Ho, ?Ht; eauto.
Qed.

Section Appends.

Variable env : Env.
Variable st0 : State.
Variable h : list DGSLEffect.
Variable dev : nat.
Variable ps : option nat.

Local Abbreviation building := (building st0 h dev ps).
Local Abbreviation appends := (appends st0 h dev ps).

Lemma appends_ret {A} (a : A) :
  appends (ret a) (fun r ext ec ec' => r = Returns a /\ ext = [] /\ ec' = ec).
Proof.
  intros log ec st Hb. exists [], ec. rewrite app_nil_r. auto.
Qed.

Lemma appends_call c :
  appends (call (length h) c)
    (fun r ext ec ec' => r = Returns tt /\ ext = [c] /\ ec' = ec).
Proof.
  intros log ec st (He & Hh & Hc). exists [c], ec. split; [|auto].
  split; [|split].
  - by apply (extends_world st0 st).
  - unfold_monad. simpl. rewrite Hh.
    replace (length h) with (length h + 0)%nat by lia.
    rewrite alter_app_r. simpl. reflexivity.
  - exact Hc.
Qed.

Lemma appends_gets_mSharing :
  appends (gets mSharing)
    (fun r ext ec ec' =>
       r = Returns (mSharing (this st0)) /\ ext = [] /\ ec' = ec).
Proof.
  intros log ec st Hb. exists [], ec. rewrite app_nil_r.
  split; [exact Hb|]. destruct Hb as (He & _).
  unfold_monad. simpl. by rewrite (ext_sharing _ _ He).
Qed.

Lemma appends_bind {A B} (m : M A) (f : A -> M B) S1 S2 :
  appends m S1 ->
  (forall a, appends (f a) (S2 a)) ->
  appends (bind m f)
    (fun r ext ec ec' =>
       exists r1 x ec1,
         S1 r1 x ec ec1 /\
         match r1 with
         | Returns a => exists y, ext = x ++ y /\ S2 a r y ec1 ec'
         | Throws e => r = Throws e /\ ext = x /\ ec' = ec1
         | Aborts => r = Aborts /\ ext = x /\ ec' = ec1
         end).
Proof.
  intros Hm Hf log ec st Hb.
  destruct (Hm log ec st Hb) as (x & ec1 & Hb1 & Hs1).
  unfold final, outcome in *. rewrite bind_run.
  unfold final, outcome in *.
  destruct (m st) as [[a|e|] st1]; simpl in *.
  - destruct (Hf a _ _ _ Hb1) as (y & ec' & Hb2 & Hs2).
    exists (x ++ y), ec'. rewrite app_assoc. split; [exact Hb2|].
    exists (Returns a), x, ec1. split; [exact Hs1|]. by exists y.
  - exists x, ec1. split; [exact Hb1|].
    exists (Throws e), x, ec1. auto.
  - exists x, ec1. split; [exact Hb1|].
    exists Aborts, x, ec1. auto.
Qed.

Lemma appends_when (b : bool) (m : M unit) S :
  appends m S ->
  appends (when b m)
    (fun r ext ec ec' =>
       if b then S r ext ec ec'
       else r = Returns tt /\ ext = [] /\ ec' = ec).
Proof. intros Hm. destruct b; [exact Hm|]. apply appends_ret. Qed.

Lemma appends_if {A} (b : bool) (m1 m2 : M A) S1 S2 :
  appends m1 S1 -> appends m2 S2 ->
  appends (if b then m1 else m2)
    (fun r ext ec ec' => if b then S1 r ext ec ec' else S2 r ext ec ec').
Proof. intros H1 H2. by destruct b. Qed.

Lemma appends_mono {A} (m : M A) S S' :
  appends m S ->
  (forall r ext ec ec', S r ext ec ec' -> S' r ext ec ec') ->
  appends m S'.
Proof.
  intros Hm Hs log ec st Hb.
  destruct (Hm log ec st Hb) as (ext & ec' & Hb' & Hr).
  exists ext, ec'. auto.
Qed.

Lemma appends_CreateTexture name ctx out :
  appends (CreateTexture env name ctx out)
    (fun r ext ec ec' =>
       ext = [] /\ ec' = ec /\
       exists st, r = outcome (CreateTexture env name ctx out) st).
Proof.
  intros log ec st (He & Hh & Hc). exists [], ec. rewrite app_nil_r.
  split; [|by eauto].
  destruct (CreateTexture_frame env name ctx out st) as (Hf1 & Hf2 & _).
  split; [|split]; [|congruence|congruence].
  eapply extends_trans; [exact He|]. apply CreateTexture_extends.
Qed.

(** [{ lock_guard lock(mutex); mEffectCache.insert( ... ); }] *)
Lemma appends_insert k v :
  appends (lock_guard (cache_insert EffectCache k v))
    (fun r ext ec ec' =>
       r = Returns tt /\ ext = [] /\ ec' = map_insert k v ec).
Proof.
  intros log ec st (He & Hh & Hc). exists [], (map_insert k v ec).
  rewrite app_nil_r. split; [|auto].
  split; [|split].
  - eapply extends_trans; [exact He|]. unfold_monad. simpl. solve_extends.
  - exact Hh.
  - unfold_monad. simpl. by rewrite Hc.
Qed.

(** A loop whose body leaves the effect cache alone and, when it
    returns, adds the calls [P j] allows. *)
Lemma appends_for_each (body : nat -> M unit) P js :
  (forall j, appends (body j)
     (fun r ext ec ec' => ec' = ec /\ (r = Returns tt -> P j ext))) ->
  appends (for_each js body)
    (fun r ext ec ec' =>
       ec' = ec /\
       (r = Returns tt ->
        exists parts, ext = concat parts /\ Forall2 P js parts)).
Proof.
  intros Hbody. induction js as [|j js IH]; simpl.
  - eapply appends_mono; [apply appends_ret|].
    intros r ext ec ec' (_ & -> & ->). split; [reflexivity|].
    intros _. exists []. split; [reflexivity|constructor].
  - eapply appends_mono;
      [exact (appends_bind _ _ _ _ (Hbody j) (fun _ => IH))|].
    intros r ext ec ec' (r1 & x & ec1 & (-> & Hx) & Hrest).
    destruct r1 as [[]|e|].
    + destruct Hrest as (y & -> & -> & Hy). split; [reflexivity|].
      intros Hr. destruct (Hy Hr) as (parts & -> & Hp).
      exists (x :: parts). split; [reflexivity|]. constructor; auto.
    + destruct Hrest as (-> & -> & ->). split; [reflexivity|discriminate].
    + destruct Hrest as (-> & -> & ->). split; [reflexivity|discriminate].
Qed.

End Appends.

Ltac appends_basic :=
  first
    [ apply appends_call
    | apply appends_ret
    | apply appends_gets_mSharing
    | apply appends_CreateTexture
    | apply appends_insert
    | eapply appends_when
    | eapply appends_bind; [|intros ?]
    | eapply appends_if ].

Ltac open_shape :=
  repeat match goal with
         | H : exists _, _ |- _ => destruct H
         | H : _ /\ _ |- _ => destruct H
         | H : match ?r with Returns _ => _ | Throws _ => _ | Aborts => _ end
           |- _ => destruct r
         | H : if ?b then _ else _ |- _ => destruct b eqn:?
         | H : Returns _ = Returns _ |- _ => injection H as H
         | H : Returns _ = Throws _ |- _ => discriminate H
         | H : Returns _ = Aborts |- _ => discriminate H
         | H : Throws _ = Returns _ |- _ => discriminate H
         | H : Aborts = Returns _ |- _ => discriminate H
         | H : Returns ?u = Returns tt -> _ |- _ =>
             specialize (H ltac:(by destruct u))
         end.

Ltac block_tac :=
  eapply appends_mono; [repeat appends_basic|];
  cbv beta; intros r ext ec ec' HS;
  unfold lighting_calls, specular_calls, dgsl_specular_calls,
    emissive_calls, texture_calls;
  open_shape; simplify_eq; auto.

(** The blocks of the configuration, each with the calls it makes. *)
Section Blocks.

Variable env : Env.
Variable st0 : State.
Variable h : list DGSLEffect.
Variable dev : nat.
Variable ps : option nat.
Variable info : EffectInfo.

Local Abbreviation appends := (appends st0 h dev ps).
Local Abbreviation effect := (length h).

Lemma appends_lighting (lighting : bool) :
  appends
    (when lighting
       (call effect EnableDefaultLighting ;;
        call effect (SetLightingEnabled true)))
    (fun r ext ec ec' =>
       r = Returns tt /\ ext = lighting_calls lighting /\ ec' = ec).
Proof. block_tac. Qed.

Lemma appends_specular :
  appends
    (when (any_component_nonzero (specularColor info))
       (call effect (SetSpecularColor (specularColor info)) ;;
        call effect (SetSpecularPower (specularPower info))))
    (fun r ext ec ec' =>
       r = Returns tt /\ ext = specular_calls info /\ ec' = ec).
Proof. block_tac. Qed.

Lemma appends_dgsl_specular (allowSpecular : bool) :
  appends
    (if allowSpecular && any_component_nonzero (specularColor info) then
       call effect (SetSpecularColor (specularColor info)) ;;
       call effect (SetSpecularPower (specularPower info))
     else
       call effect DisableSpecular)
    (fun r ext ec ec' =>
       r = Returns tt /\ ext = dgsl_specular_calls allowSpecular info /\
       ec' = ec).
Proof. block_tac. Qed.

Lemma appends_emissive :
  appends
    (when (any_component_nonzero (emissiveColor info))
       (call effect (SetEmissiveColor (emissiveColor info))))
    (fun r ext ec ec' =>
       r = Returns tt /\ ext = emissive_calls info /\ ec' = ec).
Proof. block_tac. Qed.

Lemma appends_texture t ctx :
  appends
    (when (nonempty t)
       (srv <- CreateTexture env t ctx ValidOut ;;
        call effect (SetTexture srv) ;;
        call effect (SetTextureEnabled true)))
    (fun r ext ec ec' =>
       ec' = ec /\
       (r = Returns tt ->
        exists srv, ext = texture_calls t srv /\ loaded_by env ctx t srv)).
Proof.
  block_tac; split; auto; intros; simplify_eq.
  - eexists. split; [reflexivity|]. intros _. eauto.
  - exists O. split; [reflexivity|]. intros ?. congruence.
Qed.

Lemma appends_cache (b : bool) k v :
  appends (when b (lock_guard (cache_insert EffectCache k v)))
    (fun r ext ec ec' =>
       r = Returns tt /\ ext = [] /\
       ec' = if b then map_insert k v ec else ec).
Proof. block_tac. Qed.

(** The loop over the seven extra texture slots. *)
Lemma appends_slots (ts : nat -> option (list N)) ctx js :
  appends
    (for_each js (fun j =>
       when (nonempty (ts j))
         (srv <- CreateTexture env (ts j) ctx ValidOut ;;
          call effect (SetTextureAt (Z.of_nat j + 1) srv) ;;
          call effect (SetTextureEnabled true))))
    (fun r ext ec ec' =>
       ec' = ec /\
       (r = Returns tt ->
        exists srvs,
          length srvs = length js /\ ext = slots_calls ts js srvs /\
          Forall2 (fun j srv => loaded_by env ctx (ts j) srv) js srvs)).
Proof.
  eapply appends_mono.
  - apply appends_for_each
      with (P := fun j ext =>
                   exists srv, ext = slot_calls (ts j) j srv /\
                               loaded_by env ctx (ts j) srv).
    intros j. eapply appends_mono; [repeat appends_basic|].
    cbv beta. intros r ext ec ec' HS. unfold slot_calls.
    open_shape; simplify_eq; (split; [reflexivity|]); intros; simplify_eq.
    + eexists. split; [reflexivity|]. intros _. eauto.
    + exists O. split; [reflexivity|]. intros ?. congruence.
  - cbv beta. intros r ext ec ec' (-> & HS). split; [reflexivity|].
    intros Hr. destruct (HS Hr) as (parts & -> & Hparts). clear HS Hr.
    induction Hparts
      as [|j part js parts (srv & -> & Hsrv) _ (srvs & Hlen & IH & Hall)].
    + exists []. repeat split. constructor.
    + exists (srv :: srvs). split; [simpl; by rewrite Hlen|].
      split; [|by constructor].
      unfold slots_calls in *. simpl. by rewrite IH.
Qed.

End Blocks.

Ltac appends_step :=
  first
    [ apply appends_lighting
    | apply appends_specular
    | apply appends_dgsl_specular
    | apply appends_emissive
    | apply appends_texture
    | apply appends_slots
    | apply appends_cache
    | appends_basic ].

(** ** The search of the effect cache *)

Lemma after_lookup_run (info : EffectInfo) st :
  (if nonempty (name info)
   then cache_find EffectCache (wstr (name info))
   else ret None) st =
  (Returns (if nonempty (name info)
            then mEffectCache (this st) !! wstr (name info)
            else None),
   after_lookup info st).
Proof. unfold after_lookup. by destruct (nonempty (name info)). Qed.

Lemma after_lookup_state (info : EffectInfo) st :
  this (after_lookup info st) = this st /\
  effects (world (after_lookup info st)) = effects (world st) /\
  next_object (world (after_lookup info st)) = next_object (world st) /\
  trace (world (after_lookup info st)) =
    trace (world st) ++
    (if nonempty (name info) then [EvFind EffectCache (wstr (name info))]
     else []).
Proof.
  unfold after_lookup. destruct (nonempty (name info)); unfold_monad; simpl.
  - auto.
  - by rewrite app_nil_r.
Qed.

Lemma after_lookup_extends (info : EffectInfo) st :
  extends st (after_lookup info st).
Proof.
  destruct (after_lookup_state info st) as (Ht & He & Ho & Htr).
  split; rewrite ?Ht, ?Ho; auto.
  eexists. split; [exact Htr|]. by destruct (nonempty (name info)).
Qed.

Lemma bind_gets {A B} (f : Impl -> A) (k : A -> M B) st :
  bind (gets f) k st = k (f (this st)) st.
Proof. reflexivity. Qed.

Lemma bind_make_shared {B} dev ps (k : nat -> M B) st :
  bind (make_shared dev ps) k st =
  k (length (effects (world st)))
    (mkState (this st)
       (mkWorld (effects (world st) ++ [mkDGSLEffect dev ps []])
          (next_object (world st)) (trace (world st)))).
Proof. reflexivity. Qed.

Lemma building_start st dev ps :
  let st' := mkState (this st)
               (mkWorld (effects (world st) ++ [mkDGSLEffect dev ps []])
                  (next_object (world st)) (trace (world st))) in
  building st' (effects (world st)) dev ps [] (mEffectCache (this st)) st'.
Proof. split; [apply extends_refl | split; reflexivity]. Qed.

(** A miss in [CreateEffect]: one effect is constructed after those there
    were; if the method returns, it returns that effect, configured by
    the calls listed, and cached if sharing is on and it has a name; if
    the method does not return the effect cache is as it was. *)
Lemma CreateEffect_miss env (info : EffectInfo) ctx st :
  effect_miss info st ->
  let m := CreateEffect env info ctx in
  extends st (final m st) /\
  exists log,
    effects (world (final m st)) =
      effects (world st) ++ [mkDGSLEffect (device (this st)) None log] /\
    match outcome m st with
    | Returns e =>
        e = length (effects (world st)) /\
        (exists srv,
           log = lighting_calls true ++ color_calls info ++
                 specular_calls info ++ emissive_calls info ++
                 texture_calls (texture info) srv /\
           loaded_by env ctx (texture info) srv) /\
        mEffectCache (this (final m st)) =
          (if mSharing (this st) && nonempty (name info)
           then <[wstr (name info) := e]> (mEffectCache (this st))
           else mEffectCache (this st))
    | _ => mEffectCache (this (final m st)) = mEffectCache (this st)
    end.
Proof.
  intros Hmiss m. subst m. unfold final, outcome, CreateEffect.
  rewrite bind_run. unfold outcome, final. rewrite after_lookup_run.
  simpl fst. simpl snd. cbv iota beta.
  rewrite bind_gets.
  destruct (after_lookup_state info st) as (Hthis & Heff & Hobj & _).
  pose proof (after_lookup_extends info st) as Hext.
  rewrite Hthis.
  remember (if nonempty (name info) then _ else _) as it eqn:Hit.
  assert (Hmiss' : mSharing (this st) = false \/ it = None).
  { subst it. destruct Hmiss as [?|[->|?]]; auto. right. by destruct (nonempty _). }
  destruct (mSharing (this st)) eqn:Hs, it as [cached|];
    try (destruct Hmiss'; discriminate).
  all: rewrite bind_gets, bind_make_shared.
  all: lazymatch goal with
       | |- context [snd (?m ?s)] =>
           eassert (Happ : appends s (effects (world (after_lookup info st)))
                             (device (this (after_lookup info st))) None m _)
             by (repeat appends_step)
       end.
  all: destruct (Happ _ _ _ (building_start _ _ _)) as (ext & ec' & Hb & HS).
  all: clear Happ; unfold outcome, final in *.
  all: lazymatch goal with
       | |- context [snd (?m ?s)] =>
           assert (Hstart : extends st s)
             by (eapply extends_trans; [exact Hext|];
                 apply (extends_world _ (after_lookup info st));
                 auto using extends_refl);
           destruct (m s) as [r st']
       end.
  all: destruct Hb as (Hb1 & Hb2 & Hb3).
  all: (split; [exact (extends_trans _ _ _ Hstart Hb1)|]); clear Hstart.
  all: simpl in *; rewrite ?Hthis, ?Heff, ?Hs in *.
  all: eexists; (split; [exact Hb2|]).
  all: open_shape; simplify_eq; simpl.
  all: try congruence.
  all: (split; [reflexivity|]).
  all: (split; [eexists; split; [by rewrite ?app_nil_r|done]|]).
  all: destruct (nonempty (name info)); simpl in *; try congruence.
  all: rewrite map_insert_fresh in * by done; congruence.
Qed.

(** ** The shader root: the code against the words of the specification *)

Lemma after_last_underscore_wcsrchr s : forall rest,
  after_last_underscore s rest =
  match wcsrchr s 95%N with
  | Some last => drop (S last) s
  | None => rest
  end.
Proof.
  induction s as [|c s IH]; intros rest; simpl; [reflexivity|].
  destruct (c =? 95)%N; rewrite IH; destruct (wcsrchr s 95%N); reflexivity.
Qed.

Lemma before_first_period_wcschr r :
  before_first_period r =
  match wcschr r 46%N with
  | Some first => take first r
  | None => r
  end.
Proof.
  induction r as [|c r IH]; simpl; [reflexivity|].
  destruct (c =? 46)%N; [reflexivity|].
  rewrite IH. destruct (wcschr r 46%N); reflexivity.
Qed.

(** The root the code computes is the root the specification describes,
    as long as what follows the last underscore fits the buffer. *)
Lemma shader_root_run s st :
  shader_root s st =
  (if (length (after_last_underscore s s) <? MAX_PATH)%nat
   then Returns (spec_root s) else Aborts, st).
Proof.
  unfold shader_root, spec_root.
  rewrite before_first_period_wcschr, (after_last_underscore_wcsrchr s s).
  unfold wcscpy_s, crt, bind, ret, abort.
  destruct (wcsrchr s 95%N); simpl; case_split; reflexivity.
Qed.

(** A root matches at most one of the three built-in variants. *)
Lemma variant_names_distinct r :
  (_wcsicmp r (L "lambert") = 0 ->
   _wcsicmp r (L "phong") <> 0 /\ _wcsicmp r (L "unlit") <> 0) /\
  (_wcsicmp r (L "phong") = 0 -> _wcsicmp r (L "unlit") <> 0).
Proof.
  destruct r as [|c r]; [split; discriminate|].
  change (L "lambert") with (108%N :: L "ambert").
  change (L "phong") with (112%N :: L "hong").
  change (L "unlit") with (117%N :: L "nlit").
  simpl.
  change (towlower 108) with 108%N. change (towlower 112) with 112%N.
  change (towlower 117) with 117%N.
  destruct (towlower c =? 108)%N eqn:E1, (towlower c =? 112)%N eqn:E2,
    (towlower c =? 117)%N eqn:E3;
    rewrite ?N.eqb_eq, ?N.eqb_neq in *; repeat split; intros; lia.
Qed.

Lemma nonempty_wstr (p : option (list N)) :
  nonempty p = true -> p = Some (wstr p).
Proof. by destruct p as [[|c s]|]. Qed.

Lemma extends_make_shared st dev ps :
  extends st (final (make_shared dev ps) st).
Proof. apply (extends_world st st); auto using extends_refl. Qed.

(** Constructing the effect on a shader that [CreatePixelShader] loads. *)
Lemma shader_variant_loaded env dev file st :
  let m := (ps <- CreatePixelShader env (Some file) ValidOut ;;
            effect <- make_shared dev (Some ps) ;; ret (effect, true, true)) in
  extends st (final m st) /\
  mEffectCache (this (final m st)) = mEffectCache (this st) /\
  match outcome m st with
  | Returns (e, lighting, allowSpecular) =>
      e = length (effects (world st)) /\
      lighting = true /\ allowSpecular = true /\
      exists loaded,
        outcome (CreatePixelShader env (Some file) ValidOut) st = Returns loaded /\
        effects (world (final m st)) =
          effects (world st) ++ [mkDGSLEffect dev (Some loaded) []]
  | _ => effects (world (final m st)) = effects (world st)
  end.
Proof.
  intros m. subst m. unfold final, outcome. rewrite bind_run.
  pose proof (CreatePixelShader_extends env (Some file) ValidOut st) as Hx.
  destruct (CreatePixelShader_frame env (Some file) ValidOut st) as (Hf & Hc & _).
  unfold final, outcome in *.
  destruct (CreatePixelShader env (Some file) ValidOut st) as [[loaded|e|] st1];
    simpl in *; auto.
  split; [|split; [exact Hc|]].
  - eapply extends_trans; [exact Hx|]. apply extends_make_shared.
  - rewrite Hf. repeat split. by exists loaded.
Qed.

Lemma shader_variant_spec env (info : DGSLEffectInfo) st :
  let dev := device (this st) in
  let m := shader_variant env dev info in
  extends st (final m st) /\
  mEffectCache (this (final m st)) = mEffectCache (this st) /\
  match outcome m st with
  | Returns (e, lighting, allowSpecular) =>
      e = length (effects (world st)) /\
      exists ps,
        effects (world (final m st)) =
          effects (world st) ++ [mkDGSLEffect dev ps []] /\
        variant_table env dev (pixelShader info) st ps lighting allowSpecular
  | _ => effects (world (final m st)) = effects (world st)
  end.
Proof.
  intros dev m. subst m. unfold shader_variant, variant_table.
  destruct (nonempty (pixelShader info)) eqn:Hp; simpl negb; cbv iota.
  2:{ split; [apply extends_make_shared|]. split; [reflexivity|].
      split; [reflexivity|]. exists None. split; [reflexivity|].
      split; [auto|discriminate]. }
  unfold final, outcome. rewrite bind_run. unfold final, outcome.
  rewrite shader_root_run.
  destruct (length _ <? MAX_PATH)%nat; simpl fst; simpl snd; cbv iota;
    [|by auto using extends_refl].
  set (root := spec_root (wstr (pixelShader info))).
  destruct (variant_names_distinct root) as (Hlam & Hpho).
  destruct (_wcsicmp root (L "lambert") =? 0) eqn:E1;
    [|destruct (_wcsicmp root (L "phong") =? 0) eqn:E2;
      [|destruct (_wcsicmp root (L "unlit") =? 0) eqn:E3]];
    rewrite ?Z.eqb_eq, ?Z.eqb_neq in *.
  - split; [apply extends_make_shared|]. split; [reflexivity|].
    split; [reflexivity|]. exists None. split; [reflexivity|].
    split; [discriminate|]. intros _. destruct (Hlam E1). repeat split; tauto.
  - split; [apply extends_make_shared|]. split; [reflexivity|].
    split; [reflexivity|]. exists None. split; [reflexivity|].
    split; [discriminate|]. intros _. pose proof (Hpho E2).
    repeat split; tauto.
  - split; [apply extends_make_shared|]. split; [reflexivity|].
    split; [reflexivity|]. exists None. split; [reflexivity|].
    split; [discriminate|]. intros _. repeat split; tauto.
  - destruct (GetFeatureLevel env dev <? D3D_FEATURE_LEVEL_10_0) eqn:Hlevel.
    + rewrite bind_run. unfold wcscat_s, crt, outcome, final.
      destruct (_ <? MAX_PATH)%nat; simpl fst; simpl snd; cbv iota;
        [|by auto using extends_refl].
      destruct (shader_variant_loaded env dev (root ++ L ".cso") st)
        as (Hx & Hc & Hr).
      unfold final, outcome in *.
      match goal with |- context [snd (?m st)] => destruct (m st) as [r st'] end.
      simpl in *. split; [exact Hx|]. split; [exact Hc|].
      destruct r as [[[e lighting] allowSpecular]|ex|]; auto.
      destruct Hr as (-> & -> & -> & loaded & Hl & He).
      split; [reflexivity|]. exists (Some loaded). split; [exact He|].
      split; [discriminate|]. intros _. repeat split; try tauto.
      by exists (root ++ L ".cso"), loaded.
    + destruct (shader_variant_loaded env dev (wstr (pixelShader info)) st)
        as (Hx & Hc & Hr).
      rewrite <- (nonempty_wstr _ Hp) in *.
      unfold final, outcome in *.
      match goal with |- context [snd (?m st)] => destruct (m st) as [r st'] end.
      simpl in *. split; [exact Hx|]. split; [exact Hc|].
      destruct r as [[[e lighting] allowSpecular]|ex|]; auto.
      destruct Hr as (-> & -> & -> & loaded & Hl & He).
      split; [reflexivity|]. exists (Some loaded). split; [exact He|].
      split; [discriminate|]. intros _. repeat split; try tauto.
      exists (wstr (pixelShader info)), loaded.
      by rewrite <- (nonempty_wstr _ Hp).
Qed.

(** A miss in [CreateDGSLEffect]: if the method returns, it returns a new
    effect, constructed as the variant table says, configured by the
    calls listed, and cached if sharing is on and it has a name; if the
    method does not return the effect cache is as it was. *)
Lemma CreateDGSLEffect_miss env (info : DGSLEffectInfo) ctx st :
  effect_miss info st ->
  let m := CreateDGSLEffect env info ctx in
  extends st (final m st) /\
  match outcome m st with
  | Returns e =>
      e = length (effects (world st)) /\
      (exists ps lighting allowSpecular srv srvs,
         effects (world (final m st)) =
           effects (world st) ++
           [mkDGSLEffect (device (this st)) ps
              (lighting_calls lighting ++ color_calls info ++
               dgsl_specular_calls allowSpecular info ++
               emissive_calls info ++ texture_calls (texture info) srv ++
               slots_calls (textures info) (seq 0 7) srvs)] /\
         length srvs = 7%nat /\
         variant_table env (device (this st)) (pixelShader info)
           (after_lookup info st) ps lighting allowSpecular /\
         loaded_by env ctx (texture info) srv /\
         Forall2 (fun j srv => loaded_by env ctx (textures info j) srv)
           (seq 0 7) srvs) /\
      mEffectCache (this (final m st)) =
        (if mSharing (this st) && nonempty (name info)
         then <[wstr (name info) := e]> (mEffectCache (this st))
         else mEffectCache (this st))
  | _ => mEffectCache (this (final m st)) = mEffectCache (this st)
  end.
Proof.
  intros Hmiss m. subst m. unfold final, outcome, CreateDGSLEffect.
  rewrite bind_run. unfold outcome, final. rewrite after_lookup_run.
  simpl fst. simpl snd. cbv iota beta.
  rewrite bind_gets.
  destruct (after_lookup_state info st) as (Hthis & Heff & Hobj & _).
  pose proof (after_lookup_extends info st) as Hext.
  rewrite Hthis.
  remember (if nonempty (name info) then _ else _) as it eqn:Hit.
  assert (Hmiss' : mSharing (this st) = false \/ it = None).
  { subst it. destruct Hmiss as [?|[->|?]]; auto. right. by destruct (nonempty _). }
  destruct (shader_variant_spec env info (after_lookup info st))
    as (Hvx & Hvc & Hv).
  destruct (mSharing (this st)) eqn:Hs, it as [cached|];
    try (destruct Hmiss'; discriminate).
  all: rewrite bind_gets, bind_run; unfold outcome, final in *.
  all: destruct (shader_variant env (device (this (after_lookup info st))) info
                   (after_lookup info st))
         as [[[[e lighting] allowSpecular]|ex|] st2];
       simpl fst in *; simpl snd in *; cbv iota beta in *.
  all: try (split; [exact (extends_trans _ _ _ Hext Hvx) | congruence]).
  all: destruct Hv as (-> & ps & Hheap & Htable).
  all: lazymatch goal with
       | |- context [snd (?m ?s)] =>
           eassert (Happ : appends s (effects (world (after_lookup info st)))
                             (device (this (after_lookup info st))) ps m _)
             by (repeat appends_step);
           destruct (Happ [] (mEffectCache (this s)) s
                       (conj (extends_refl s) (conj Hheap eq_refl)))
             as (ext & ec' & Hb & HS);
           clear Happ; unfold outcome, final in *;
           destruct (m s) as [r st']
       end.
  all: destruct Hb as (Hb1 & Hb2 & Hb3).
  all: (split; [exact (extends_trans _ _ _ Hext (extends_trans _ _ _ Hvx Hb1))|]).
  all: simpl in *;
       rewrite ?(ext_sharing _ _ Hvx), ?Hvc, ?Hthis, ?Heff, ?Hs in *.
  all: open_shape; simplify_eq; simpl.
  all: try congruence.
  all: (split; [reflexivity|]).
  all: (split; [do 5 eexists; rewrite ?app_nil_r in *; simpl in *; eauto|]).
  all: destruct (nonempty (name info)); simpl in *; try congruence.
  all: rewrite map_insert_fresh in * by done; congruence.
Qed.

(** ** Effects *)

Lemma CreateEffect_hit env (info : EffectInfo) ctx st e :
  mSharing (this st) = true ->
  nonempty (name info) = true ->
  mEffectCache (this st) !! wstr (name info) = Some e ->
  CreateEffect env info ctx st =
  (Returns e, traced [EvFind EffectCache (wstr (name info))] st).
Proof.
  intros Hs Hn Hc. unfold CreateEffect. rewrite bind_run.
  unfold outcome, final. rewrite after_lookup_run. simpl fst. simpl snd.
  cbv iota beta. rewrite bind_gets. unfold after_lookup. rewrite Hn.
  unfold_monad. simpl. by rewrite Hs, Hc.
Qed.

Lemma CreateDGSLEffect_hit env (info : DGSLEffectInfo) ctx st e :
  mSharing (this st) = true ->
  nonempty (name info) = true ->
  mEffectCache (this st) !! wstr (name info) = Some e ->
  CreateDGSLEffect env info ctx st =
  (Returns e, traced [EvFind EffectCache (wstr (name info))] st).
Proof.
  intros Hs Hn Hc. unfold CreateDGSLEffect. rewrite bind_run.
  unfold outcome, final. rewrite after_lookup_run. simpl fst. simpl snd.
  cbv iota beta. rewrite bind_gets. unfold after_lookup. rewrite Hn.
  unfold_monad. simpl. by rewrite Hs, Hc.
Qed.

Lemma hit_or_miss (info : EffectInfo) st :
  (mSharing (this st) = true /\ nonempty (name info) = true /\
   exists e, mEffectCache (this st) !! wstr (name info) = Some e) \/
  effect_miss info st.
Proof.
  unfold effect_miss.
  destruct (mSharing (this st)), (nonempty (name info)),
    (mEffectCache (this st) !! wstr (name info)); eauto 6.
Qed.

Lemma extends_traced evs st :
  discipline LookupsUnlocked false evs = Some false ->
  extends st (traced evs st).
Proof. intros Hd. split; auto. by exists evs. Qed.

Lemma CreateEffect_extends env info ctx st :
  extends st (final (CreateEffect env info ctx) st).
Proof.
  destruct (hit_or_miss info st) as [(Hs & Hn & e & Hc)|Hmiss].
  - unfold final. rewrite (CreateEffect_hit env info ctx st e Hs Hn Hc).
    by apply extends_traced.
  - apply (CreateEffect_miss env info ctx st Hmiss).
Qed.

Lemma CreateDGSLEffect_extends env (info : DGSLEffectInfo) ctx st :
  extends st (final (CreateDGSLEffect env info ctx) st).
Proof.
  destruct (hit_or_miss info st) as [(Hs & Hn & e & Hc)|Hmiss].
  - unfold final. rewrite (CreateDGSLEffect_hit env info ctx st e Hs Hn Hc).
    by apply extends_traced.
  - apply (CreateDGSLEffect_miss env info ctx st Hmiss).
Qed.

(** C6, as amended: every insertion into a cache and every clearing of
    the caches, in [CreateEffect], [CreateDGSLEffect], [CreateTexture],
    [CreatePixelShader] and [ReleaseCache], is done while the one mutex
    of the implementation object is held, and the mutex is free again
    when the method ends; the lookups are done before the mutex is taken,
    not under it. *)
Theorem C6_writes_locked_lookups_unlocked env (info : EffectInfo)
  (dinfo : DGSLEffectInfo) name ctx out st :
  keeps_discipline LookupsUnlocked (CreateEffect env info ctx) st /\
  keeps_discipline LookupsUnlocked (CreateDGSLEffect env dinfo ctx) st /\
  keeps_discipline LookupsUnlocked (CreateTexture env name ctx out) st /\
  keeps_discipline LookupsUnlocked (CreatePixelShader env name out) st /\
  keeps_discipline LookupsUnlocked ReleaseCache st.
Proof.
  repeat split.
  - apply ext_trace, CreateEffect_extends.
  - apply ext_trace, CreateDGSLEffect_extends.
  - apply ext_trace, CreateTexture_extends.
  - apply ext_trace, CreatePixelShader_extends.
  - unfold keeps_discipline, ReleaseCache. unfold_monad. simpl.
    rewrite <- !app_assoc. eexists. split; reflexivity.
Qed.

(** C6, as stated, fails: loading "wood.dds" into a fresh factory
    searches the texture cache before the mutex is taken, so the events
    of the call do not replay under the rule that lookups are locked. *)
Lemma C6_counterexample_lookup_outside_lock :
  trace (world (final (CreateTexture env_desktop (Some (L "wood.dds")) None
                         ValidOut) st_fresh)) =
    [EvFind TextureCache (L "wood.dds"); EvDDS (L "wood.dds") S_OK;
     EvLock; EvInsert TextureCache (L "wood.dds"); EvUnlock] /\
  ~ keeps_discipline LookupsLocked
      (CreateTexture env_desktop (Some (L "wood.dds")) None ValidOut) st_fresh.
Proof.
  split; [reflexivity|].
  intros (evs & Ht & Hd). simpl in Ht. subst evs. discriminate Hd.
Qed.

Lemma shares_effects_intro (create : M nat) (info : EffectInfo) st :
  nonempty (name info) = true ->
  (forall e, mSharing (this st) = true ->
     mEffectCache (this st) !! wstr (name info) = Some e ->
     create st = (Returns e, traced [EvFind EffectCache (wstr (name info))] st)) ->
  extends st (final create st) ->
  (effect_miss info st ->
   match outcome create st with
   | Returns e =>
       e = length (effects (world st)) /\
       (exists new,
          effects (world (final create st)) = effects (world st) ++ [new]) /\
       mEffectCache (this (final create st)) =
         (if mSharing (this st) && nonempty (name info)
          then <[wstr (name info) := e]> (mEffectCache (this st))
          else mEffectCache (this st))
   | _ => mEffectCache (this (final create st)) = mEffectCache (this st)
   end) ->
  shares_effects create (wstr (name info)) st.
Proof.
  intros Hn Hhit Hext Hmiss. split; [|split].
  - intros Hs e Hc. by apply Hhit.
  - intros Hm.
    assert (Hm' : effect_miss info st) by (destruct Hm; unfold effect_miss; auto).
    specialize (Hmiss Hm'). rewrite Hn, andb_true_r in Hmiss.
    destruct (outcome create st) as [e'|ex|]; split.
    + by intros e [= <-].
    + intros Hnot. by destruct (Hnot e').
    + discriminate.
    + done.
    + discriminate.
    + done.
  - intros k e Hk. apply (ext_caches _ _ Hext EffectCache k e Hk).
Qed.

(** C1: for a request with a non-empty name, [CreateEffect] and
    [CreateDGSLEffect] return the effect cached under the name, as it is
    and without constructing an effect or changing a cache, when sharing
    is on and there is one; otherwise an effect is constructed and, when
    the method returns, it is a new one, entered in the effect cache
    under the name if sharing is on; and an entry of the effect cache is
    never removed or replaced, so a name keeps the one effect it was
    given. *)
Theorem C1_effects_shared_by_name env (info : EffectInfo)
  (dinfo : DGSLEffectInfo) ctx st :
  (nonempty (name info) = true ->
   shares_effects (CreateEffect env info ctx) (wstr (name info)) st) /\
  (nonempty (name dinfo) = true ->
   shares_effects (CreateDGSLEffect env dinfo ctx) (wstr (name dinfo)) st).
Proof.
  split; intros Hn; apply shares_effects_intro; auto.
  - intros e Hs Hc. by apply CreateEffect_hit.
  - apply CreateEffect_extends.
  - intros Hmiss.
    destruct (CreateEffect_miss env info ctx st Hmiss) as (_ & log & Hheap & H).
    destruct (outcome (CreateEffect env info ctx) st) as [e'|ex|]; auto.
    destruct H as (-> & _ & Hc). eauto.
  - intros e Hs Hc. by apply CreateDGSLEffect_hit.
  - apply CreateDGSLEffect_extends.
  - intros Hmiss.
    destruct (CreateDGSLEffect_miss env dinfo ctx st Hmiss) as (_ & H).
    destruct (outcome (CreateDGSLEffect env dinfo ctx) st) as [e'|ex|]; auto.
    destruct H as (-> & (ps & l & a & srv & srvs & Hheap & _) & Hc). eauto.
Qed.

(** C9: for a request whose name is null or empty, [CreateEffect] and
    [CreateDGSLEffect] leave the effect cache as it was, whatever the
    outcome and whether or not sharing is on, and the effect they return
    is a new one on every call; and [CreateTexture] and
    [CreatePixelShader] never enter a resource in their cache under the
    empty name. *)
Theorem C9_unnamed_requests_not_cached env (info : EffectInfo)
  (dinfo : DGSLEffectInfo) ctx out st :
  (nonempty (name info) = false ->
   let m := CreateEffect env info ctx in
   mEffectCache (this (final m st)) = mEffectCache (this st) /\
   (exists new, effects (world (final m st)) = effects (world st) ++ [new]) /\
   forall e, outcome m st = Returns e -> e = length (effects (world st))) /\
  (nonempty (name dinfo) = false ->
   let m := CreateDGSLEffect env dinfo ctx in
   mEffectCache (this (final m st)) = mEffectCache (this st) /\
   forall e, outcome m st = Returns e ->
     e = length (effects (world st)) /\
     exists new, effects (world (final m st)) = effects (world st) ++ [new]) /\
  mTextureCache (this (final (CreateTexture env (Some []) ctx out) st)) =
    mTextureCache (this st) /\
  mShaderCache (this (final (CreatePixelShader env (Some []) out) st)) =
    mShaderCache (this st).
Proof.
  split; [|split; [|split]].
  - intros Hn m. subst m.
    assert (Hmiss : effect_miss info st) by (unfold effect_miss; auto).
    destruct (CreateEffect_miss env info ctx st Hmiss) as (_ & log & Hheap & H).
    rewrite Hn, andb_false_r in H.
    destruct (outcome (CreateEffect env info ctx) st) as [e'| |].
    + destruct H as (-> & _ & Hc). split; [exact Hc|].
      split; [eauto|]. by intros e [= <-].
    + split; [exact H|]. split; [eauto|discriminate].
    + split; [exact H|]. split; [eauto|discriminate].
  - intros Hn m. subst m.
    assert (Hmiss : effect_miss dinfo st) by (unfold effect_miss; auto).
    destruct (CreateDGSLEffect_miss env dinfo ctx st Hmiss) as (_ & H).
    rewrite Hn, andb_false_r in H.
    destruct (outcome (CreateDGSLEffect env dinfo ctx) st) as [e'| |].
    + destruct H as (-> & (ps & l & a & srv & srvs & Hheap & _) & Hc).
      split; [exact Hc|]. intros e [= <-]. eauto.
    + split; [exact H|discriminate].
    + split; [exact H|discriminate].
  - unfold CreateTexture. run_method; auto.
  - unfold CreatePixelShader. run_method; auto.
Qed.

(** ** What the calls on a new effect say *)

Lemma in_slots_calls ts js : forall srvs c,
  In c (slots_calls ts js srvs) ->
  c = SetTextureEnabled true \/
  exists i j srv,
    js !! i = Some j /\ srvs !! i = Some srv /\ nonempty (ts j) = true /\
    c = SetTextureAt (Z.of_nat j + 1) srv.
Proof.
  unfold slots_calls.
  induction js as [|j js IH]; intros [|srv srvs] c; simpl; try tauto.
  rewrite in_app_iff. intros [Hc|Hc].
  - unfold slot_calls in Hc. destruct (nonempty (ts j)) eqn:Hn; [|done].
    destruct Hc as [<-|[<-|[]]]; [|by left].
    right. by exists O, j, srv.
  - destruct (IH srvs c Hc) as [->|(i & j' & srv' & ? & ? & ? & ->)]; [by left|].
    right. by exists (S i), j', srv'.
Qed.

Lemma slots_calls_in ts js : forall srvs i j srv,
  js !! i = Some j -> srvs !! i = Some srv -> nonempty (ts j) = true ->
  In (SetTextureAt (Z.of_nat j + 1) srv) (slots_calls ts js srvs) /\
  In (SetTextureEnabled true) (slots_calls ts js srvs).
Proof.
  unfold slots_calls.
  induction js as [|j0 js IH]; intros [|srv0 srvs] [|i] j srv Hj Hs Hn;
    simpl in *; try discriminate.
  - injection Hj as ->. injection Hs as ->. unfold slot_calls. rewrite Hn.
    rewrite !in_app_iff. simpl. auto.
  - destruct (IH srvs i j srv Hj Hs Hn). rewrite !in_app_iff. auto.
Qed.

Ltac unfold_calls :=
  unfold lighting_calls, color_calls, specular_calls, dgsl_specular_calls,
    emissive_calls, texture_calls in *.

Ltac in_calls :=
  repeat match goal with
         | H : In _ (_ ++ _) |- _ => apply in_app_or in H; destruct H
         | H : In _ (_ :: _) |- _ => destruct H
         | H : In _ [] |- _ => destruct H
         | H : In _ (if ?b then _ else _) |- _ => destruct b eqn:?
         | H : In _ (slots_calls _ _ _) |- _ =>
             apply in_slots_calls in H;
             destruct H as [H|(? & ? & ? & ? & ? & ? & H)]
         end;
  simplify_eq.

Section CallLog.

Variable info : EffectInfo.
Variables pre spec post : list EffectCall.
Variable srv : nat.

Hypothesis Hpre : forall c, In c pre ->
  c = EnableDefaultLighting \/ exists b, c = SetLightingEnabled b.
Hypothesis Hspec : forall c, In c spec ->
  c = DisableSpecular \/ (exists v, c = SetSpecularColor v) \/
  exists v, c = SetSpecularPower v.
Hypothesis Hpost : forall c, In c post ->
  c = SetTextureEnabled true \/ exists k v, c = SetTextureAt k v.

Local Abbreviation calls :=
  (pre ++ color_calls info ++ spec ++ emissive_calls info ++
   texture_calls (texture info) srv ++ post).

(** Where a call of the log comes from. *)
Lemma calls_source c :
  In c calls ->
  (In c pre /\
     (c = EnableDefaultLighting \/ exists b, c = SetLightingEnabled b)) \/
  c = SetAmbientColor (ambientColor info) \/
  c = SetDiffuseColor (diffuseColor info) \/
  c = SetAlpha (alpha info) \/
  (In c spec /\
     (c = DisableSpecular \/ (exists v, c = SetSpecularColor v) \/
      exists v, c = SetSpecularPower v)) \/
  (c = SetEmissiveColor (emissiveColor info) /\
     any_component_nonzero (emissiveColor info) = true) \/
  ((c = SetTexture srv \/ c = SetTextureEnabled true) /\
     nonempty (texture info) = true) \/
  (In c post /\
     (c = SetTextureEnabled true \/ exists k v, c = SetTextureAt k v)).
Proof.
  unfold color_calls, emissive_calls, texture_calls.
  rewrite !in_app_iff. simpl.
  intros [H|[[H|[H|[H|[]]]]|[H|[H|[H|H]]]]]; auto 12.
  - destruct (any_component_nonzero (emissiveColor info));
      [destruct H as [<-|[]]; auto 10 | destruct H].
  - destruct (nonempty (texture info));
      [destruct H as [<-|[<-|[]]]; auto 10 | destruct H].
Qed.

Ltac from_source H :=
  apply calls_source in H;
  repeat match goal with
         | H' : _ \/ _ |- _ => destruct H'
         | H' : _ /\ _ |- _ => destruct H'
         | H' : exists _, _ |- _ => destruct H'
         end;
  simplify_eq.

Lemma material_configured_log : material_configured info calls.
Proof.
  unfold material_configured.
  split; [|split; [|split; [|split]]]; try intros c; split.
  all: try (intros H; from_source H; done).
  all: unfold color_calls, emissive_calls, texture_calls.
  all: rewrite ?in_app_iff; simpl.
  - intros ->. tauto.
  - intros ->. tauto.
  - intros ->. tauto.
  - intros (-> & ->). simpl. tauto.
  - intros (v & H). from_source H; done.
  - intros ->. exists srv. repeat (rewrite in_app_iff; simpl). auto 12.
Qed.

Lemma calls_from_pre c :
  c = EnableDefaultLighting \/ (exists b, c = SetLightingEnabled b) ->
  In c calls <-> In c pre.
Proof.
  intros Hc. split.
  - intros H. from_source H; try done; destruct Hc as [?|[? ?]]; done.
  - intros H. rewrite in_app_iff. auto.
Qed.

Lemma calls_from_spec c :
  c = DisableSpecular \/ (exists v, c = SetSpecularColor v) \/
  (exists v, c = SetSpecularPower v) ->
  In c calls <-> In c spec.
Proof.
  intros Hc. split.
  - intros H. from_source H; try done; destruct Hc as [?|[[? ?]|[? ?]]]; done.
  - intros H. rewrite !in_app_iff. auto.
Qed.

Lemma calls_from_post k v :
  In (SetTextureAt k v) calls <-> In (SetTextureAt k v) post.
Proof.
  split.
  - intros H. from_source H; done.
  - intros H. rewrite !in_app_iff. auto 10.
Qed.

Lemma calls_texture_set v :
  In (SetTexture v) calls -> v = srv.
Proof. intros H. from_source H; done. Qed.

Lemma calls_texture_enabled :
  In (SetTextureEnabled true) calls <->
  nonempty (texture info) = true \/ In (SetTextureEnabled true) post.
Proof.
  split.
  - intros H. from_source H; auto.
  - unfold texture_calls. rewrite !in_app_iff.
    intros [->|H]; simpl; auto 10.
Qed.

End CallLog.

Lemma lighting_calls_kind l c :
  In c (lighting_calls l) ->
  c = EnableDefaultLighting \/ exists b, c = SetLightingEnabled b.
Proof. destruct l; simpl; [intros [<-|[<-|[]]]; eauto | intros []]. Qed.

Lemma specular_calls_kind (info : EffectInfo) a c :
  In c (dgsl_specular_calls a info) \/ In c (specular_calls info) ->
  c = DisableSpecular \/ (exists v, c = SetSpecularColor v) \/
  exists v, c = SetSpecularPower v.
Proof.
  unfold dgsl_specular_calls, specular_calls.
  destruct a, (any_component_nonzero (specularColor info)); simpl;
    intros [H|H]; repeat destruct H as [<-|H]; try destruct H; eauto.
Qed.

Lemma slots_calls_kind ts js srvs c :
  In c (slots_calls ts js srvs) ->
  c = SetTextureEnabled true \/ exists k v, c = SetTextureAt k v.
Proof.
  intros H. apply in_slots_calls in H.
  destruct H as [->|(i & j & srv & _ & _ & _ & ->)]; eauto.
Qed.

Lemma specular_configured_true (info : EffectInfo) calls :
  (forall c, (exists v, c = SetSpecularColor v) \/
             (exists v, c = SetSpecularPower v) ->
             In c calls <-> In c (specular_calls info)) ->
  specular_configured true info calls.
Proof.
  intros H. unfold specular_configured, specular_calls in *. simpl.
  split; intros v; rewrite H by eauto;
    destruct (any_component_nonzero (specularColor info)); simpl;
    intuition congruence.
Qed.

Lemma specular_configured_dgsl (info : EffectInfo) a calls :
  (forall c, c = DisableSpecular \/ (exists v, c = SetSpecularColor v) \/
             (exists v, c = SetSpecularPower v) ->
             In c calls <-> In c (dgsl_specular_calls a info)) ->
  specular_configured a info calls /\
  (In DisableSpecular calls <->
   a && any_component_nonzero (specularColor info) = false).
Proof.
  intros H. unfold specular_configured, dgsl_specular_calls in *.
  split; [split; intros v|]; rewrite H by eauto;
    destruct (a && any_component_nonzero (specularColor info)); simpl;
    intuition congruence.
Qed.

(** The table gives [allowSpecular] as "not the lambert variant". *)
Lemma variant_table_allowSpecular env dev p st ps l a :
  variant_table env dev p st ps l a -> a = negb (is_lambert p).
Proof.
  unfold variant_table, is_lambert. intros (Hno & Hyes).
  destruct (nonempty p); [|by destruct Hno as (_ & _ & ->)].
  destruct (Hyes eq_refl) as (Hlam & Hpho & Hunl & Hoth). simpl.
  destruct (Z.eqb_spec (_wcsicmp (spec_root (wstr p)) (L "lambert")) 0) as [E1|E1].
  { by destruct (Hlam E1) as (_ & _ & ->). }
  destruct (Z.eq_dec (_wcsicmp (spec_root (wstr p)) (L "phong")) 0) as [E2|E2].
  { by destruct (Hpho E2) as (_ & _ & ->). }
  destruct (Z.eq_dec (_wcsicmp (spec_root (wstr p)) (L "unlit")) 0) as [E3|E3].
  { by destruct (Hunl E3) as (_ & _ & ->). }
  by destruct (Hoth E1 E2 E3) as (_ & -> & _).
Qed.

(** The effect a miss of [CreateDGSLEffect] returns. *)
Lemma CreateDGSLEffect_returns env (info : DGSLEffectInfo) ctx st e :
  effect_miss info st ->
  outcome (CreateDGSLEffect env info ctx) st = Returns e ->
  exists ps l a srv srvs,
    effects (world (final (CreateDGSLEffect env info ctx) st)) !! e =
      Some (mkDGSLEffect (device (this st)) ps
              (lighting_calls l ++ color_calls info ++
               dgsl_specular_calls a info ++ emissive_calls info ++
               texture_calls (texture info) srv ++
               slots_calls (textures info) (seq 0 7) srvs)) /\
    length srvs = 7%nat /\
    variant_table env (device (this st)) (pixelShader info)
      (after_lookup info st) ps l a /\
    loaded_by env ctx (texture info) srv /\
    Forall2 (fun j srv => loaded_by env ctx (textures info j) srv)
      (seq 0 7) srvs.
Proof.
  intros Hmiss Hr.
  destruct (CreateDGSLEffect_miss env info ctx st Hmiss) as (_ & H).
  rewrite Hr in H.
  destruct H
    as (-> & (ps & l & a & srv & srvs & Hheap & Hlen & Ht & Hsrv & Hsrvs) & _).
  exists ps, l, a, srv, srvs. rewrite Hheap.
  split; [by apply list_lookup_middle|]. auto.
Qed.

Lemma slots_calls_enabled ts js : forall srvs,
  In (SetTextureEnabled true) (slots_calls ts js srvs) ->
  exists i j, js !! i = Some j /\ nonempty (ts j) = true.
Proof.
  unfold slots_calls.
  induction js as [|j js IH]; intros [|srv srvs]; simpl; try tauto.
  rewrite in_app_iff. intros [H|H].
  - unfold slot_calls in H. destruct (nonempty (ts j)) eqn:Hn; [|done].
    by exists O, j.
  - destruct (IH srvs H) as (i & j' & ? & ?). by exists (S i), j'.
Qed.

Lemma slots_configured_log (info : DGSLEffectInfo) pre spec srv srvs :
  (forall c, In c pre ->
     c = EnableDefaultLighting \/ exists b, c = SetLightingEnabled b) ->
  (forall c, In c spec ->
     c = DisableSpecular \/ (exists v, c = SetSpecularColor v) \/
     exists v, c = SetSpecularPower v) ->
  length srvs = 7%nat ->
  slots_configured info
    (pre ++ color_calls info ++ spec ++ emissive_calls info ++
     texture_calls (texture info) srv ++
     slots_calls (textures info) (seq 0 7) srvs).
Proof.
  intros Hpre Hspec Hlen.
  pose proof (slots_calls_kind (textures info) (seq 0 7) srvs) as Hpost.
  split; [|split].
  - intros j Hj. split.
    + intros (v & H). rewrite calls_from_post in H by assumption.
      apply in_slots_calls in H.
      destruct H as [H|(i & j' & srv' & _ & _ & Hn & H)]; [done|].
      injection H as H _. by replace j with j' by lia.
    + intros Hn.
      assert (Hsrv : is_Some (srvs !! j)) by (apply lookup_lt_is_Some; lia).
      destruct Hsrv as [v Hv]. exists v.
      rewrite calls_from_post by assumption.
      apply (slots_calls_in _ _ _ j j v); auto.
      by rewrite lookup_seq_lt.
  - intros k v H. rewrite calls_from_post in H by assumption.
    apply in_slots_calls in H.
    destruct H as [H|(i & j' & srv' & Hi & _ & _ & H)]; [done|].
    injection H as -> _. apply lookup_seq in Hi. lia.
  - rewrite calls_texture_enabled by assumption. split.
    + intros [H|H]; [by left|]. right.
      destruct (slots_calls_enabled _ _ _ H) as (i & j & Hi & Hn).
      apply lookup_seq in Hi. exists j. split; [lia|done].
    + intros [H|(j & Hj & Hn)]; [by left|]. right.
      assert (Hsrv : is_Some (srvs !! j)) by (apply lookup_lt_is_Some; lia).
      destruct Hsrv as [v Hv].
      apply (slots_calls_in _ _ _ j j v); auto.
      by rewrite lookup_seq_lt.
Qed.

(** ** The textures an effect method loads *)

Lemma with_effects_self st : with_effects (effects (world st)) st = st.
Proof. by destruct st as [i [h o t]]. Qed.

Lemma with_effects_twice h h' st :
  with_effects h (with_effects h' st) = with_effects h st.
Proof. reflexivity. Qed.

(** Loading a texture neither reads nor touches the effects. *)
Lemma CreateTexture_with_effects env name ctx out h s :
  CreateTexture env name ctx out (with_effects h s) =
  (outcome (CreateTexture env name ctx out) s,
   with_effects h (final (CreateTexture env name ctx out) s)).
Proof.
  unfold CreateTexture, with_effects. run_method; reflexivity.
Qed.

Section Configures.

Variable env : Env.
Variable h : list DGSLEffect.
Variable dev : nat.
Variable ps : option nat.

Local Abbreviation configures := (configures h dev ps).

Lemma configures_ret {A} (a : A) :
  configures (ret a) (fun r ext s s' => r = Returns a /\ ext = [] /\ s' = s).
Proof. intros log s. exists [], s. by rewrite app_nil_r. Qed.

Lemma configures_call c :
  configures (call (length h) c)
    (fun r ext s s' => r = Returns tt /\ ext = [c] /\ s' = s).
Proof.
  intros log s. exists [c], s. split; [|done].
  unfold call, modify_world, final, with_effects. simpl.
  replace (length h) with (length h + 0)%nat by lia.
  by rewrite alter_app_r.
Qed.

Lemma configures_gets {A} (f : Impl -> A) :
  configures (gets f)
    (fun r ext s s' => r = Returns (f (this s)) /\ ext = [] /\ s' = s).
Proof. intros log s. exists [], s. by rewrite app_nil_r. Qed.

Lemma configures_bind {A B} (m : M A) (f : A -> M B) S1 S2 :
  configures m S1 ->
  (forall a, configures (f a) (S2 a)) ->
  configures (bind m f)
    (fun r ext s s' =>
       exists r1 x s1,
         S1 r1 x s s1 /\
         match r1 with
         | Returns a => exists y, ext = x ++ y /\ S2 a r y s1 s'
         | Throws e => r = Throws e /\ ext = x /\ s' = s1
         | Aborts => r = Aborts /\ ext = x /\ s' = s1
         end).
Proof.
  intros Hm Hf log s.
  destruct (Hm log s) as (x & s1 & Hs1 & HS1).
  unfold final, outcome in *. rewrite bind_run.
  unfold final, outcome in *.
  destruct (m _) as [[a|e|] st1]; simpl in *; subst st1.
  - destruct (Hf a (log ++ x) s1) as (y & s' & Hs' & HS2).
    exists (x ++ y), s'. rewrite app_assoc. split; [exact Hs'|].
    exists (Returns a), x, s1. split; [exact HS1|]. by exists y.
  - exists x, s1. split; [reflexivity|]. exists (Throws e), x, s1. auto.
  - exists x, s1. split; [reflexivity|]. exists Aborts, x, s1. auto.
Qed.

Lemma configures_when (b : bool) (m : M unit) S :
  configures m S ->
  configures (when b m)
    (fun r ext s s' =>
       if b then S r ext s s' else r = Returns tt /\ ext = [] /\ s' = s).
Proof. intros Hm. destruct b; [exact Hm|]. apply configures_ret. Qed.

Lemma configures_if {A} (b : bool) (m1 m2 : M A) S1 S2 :
  configures m1 S1 -> configures m2 S2 ->
  configures (if b then m1 else m2)
    (fun r ext s s' => if b then S1 r ext s s' else S2 r ext s s').
Proof. intros H1 H2. by destruct b. Qed.

Lemma configures_mono {A} (m : M A) S S' :
  configures m S ->
  (forall r ext s s', S r ext s s' -> S' r ext s s') ->
  configures m S'.
Proof.
  intros Hm HS log s. destruct (Hm log s) as (ext & s' & Hs' & Hr).
  exists ext, s'. auto.
Qed.

Lemma configures_CreateTexture name ctx out :
  configures (CreateTexture env name ctx out)
    (fun r ext s s' =>
       ext = [] /\ r = outcome (CreateTexture env name ctx out) s /\
       s' = final (CreateTexture env name ctx out) s).
Proof.
  intros log s. exists [], (final (CreateTexture env name ctx out) s).
  rewrite app_nil_r. unfold final at 1, outcome at 1.
  by rewrite CreateTexture_with_effects.
Qed.

Lemma configures_insert k v :
  configures (lock_guard (cache_insert EffectCache k v))
    (fun r ext s s' =>
       r = Returns tt /\ ext = [] /\
       s' = final (lock_guard (cache_insert EffectCache k v)) s).
Proof.
  intros log s. exists [], (final (lock_guard (cache_insert EffectCache k v)) s).
  by rewrite app_nil_r.
Qed.

End Configures.

Ltac configures_basic :=
  first
    [ apply configures_call
    | apply configures_ret
    | apply configures_gets
    | apply configures_CreateTexture
    | apply configures_insert
    | eapply configures_when
    | eapply configures_bind; [|intros ?]
    | eapply configures_if ].

Ltac configures_block :=
  eapply configures_mono; [repeat configures_basic|];
  cbv beta; intros r ext s s' HS;
  unfold lighting_calls, specular_calls, dgsl_specular_calls,
    emissive_calls, texture_calls, texture_loaded;
  open_shape; simplify_eq; auto.

Section ConfigureBlocks.

Variable env : Env.
Variable h : list DGSLEffect.
Variable dev : nat.
Variable ps : option nat.
Variable info : EffectInfo.

Local Abbreviation configures := (configures h dev ps).
Local Abbreviation effect := (length h).

Lemma configures_lighting (lighting : bool) :
  configures
    (when lighting
       (call effect EnableDefaultLighting ;;
        call effect (SetLightingEnabled true)))
    (fun r ext s s' =>
       r = Returns tt /\ ext = lighting_calls lighting /\ s' = s).
Proof. configures_block. Qed.

Lemma configures_specular :
  configures
    (when (any_component_nonzero (specularColor info))
       (call effect (SetSpecularColor (specularColor info)) ;;
        call effect (SetSpecularPower (specularPower info))))
    (fun r ext s s' => r = Returns tt /\ ext = specular_calls info /\ s' = s).
Proof. configures_block. Qed.

Lemma configures_dgsl_specular (allowSpecular : bool) :
  configures
    (if allowSpecular && any_component_nonzero (specularColor info) then
       call effect (SetSpecularColor (specularColor info)) ;;
       call effect (SetSpecularPower (specularPower info))
     else
       call effect DisableSpecular)
    (fun r ext s s' =>
       r = Returns tt /\ ext = dgsl_specular_calls allowSpecular info /\
       s' = s).
Proof. configures_block. Qed.

Lemma configures_emissive :
  configures
    (when (any_component_nonzero (emissiveColor info))
       (call effect (SetEmissiveColor (emissiveColor info))))
    (fun r ext s s' => r = Returns tt /\ ext = emissive_calls info /\ s' = s).
Proof. configures_block. Qed.

(** The texture is loaded in the state the block starts in, and only if
    it is named. *)
Lemma configures_texture t ctx :
  configures
    (when (nonempty t)
       (srv <- CreateTexture env t ctx ValidOut ;;
        call effect (SetTexture srv) ;;
        call effect (SetTextureEnabled true)))
    (fun r ext s s' =>
       s' = texture_loaded env ctx t s /\
       (r = Returns tt ->
        exists srv,
          ext = texture_calls t srv /\
          (nonempty t = true ->
           outcome (CreateTexture env t ctx ValidOut) s = Returns srv))).
Proof.
  configures_block; split; auto; intros; simplify_eq.
  - eexists. split; [reflexivity|]. intros _. eauto.
  - exists O. split; [reflexivity|]. intros ?. congruence.
Qed.

Lemma configures_slot (ts : nat -> option (list N)) ctx j :
  configures
    (when (nonempty (ts j))
       (srv <- CreateTexture env (ts j) ctx ValidOut ;;
        call effect (SetTextureAt (Z.of_nat j + 1) srv) ;;
        call effect (SetTextureEnabled true)))
    (fun r ext s s' =>
       s' = texture_loaded env ctx (ts j) s /\
       (r = Returns tt ->
        exists srv,
          ext = slot_calls (ts j) j srv /\
          (nonempty (ts j) = true ->
           outcome (CreateTexture env (ts j) ctx ValidOut) s = Returns srv))).
Proof.
  unfold slot_calls.
  configures_block; split; auto; intros; simplify_eq.
  - eexists. split; [reflexivity|]. intros _. eauto.
  - exists O. split; [reflexivity|]. intros ?. congruence.
Qed.

Lemma configures_cache (b : bool) k v :
  configures (when b (lock_guard (cache_insert EffectCache k v)))
    (fun r ext s s' =>
       r = Returns tt /\ ext = [] /\
       s' = if b then final (lock_guard (cache_insert EffectCache k v)) s
            else s).
Proof. configures_block. Qed.

End ConfigureBlocks.

Lemma textures_loaded_cons env ctx t ts s :
  textures_loaded env ctx (t :: ts) s =
  textures_loaded env ctx ts (texture_loaded env ctx t s).
Proof. reflexivity. Qed.

(** The loop over the extra texture slots [js]: the textures are loaded
    one after the other, each in the state the one before it left. *)
Lemma configures_slots env h dev ps (ts : nat -> option (list N)) ctx js :
  configures h dev ps
    (for_each js (fun j =>
       when (nonempty (ts j))
         (srv <- CreateTexture env (ts j) ctx ValidOut ;;
          call (length h) (SetTextureAt (Z.of_nat j + 1) srv) ;;
          call (length h) (SetTextureEnabled true))))
    (fun r ext s s' =>
       r = Returns tt ->
       s' = textures_loaded env ctx (map ts js) s /\
       exists srvs,
         length srvs = length js /\ ext = slots_calls ts js srvs /\
         forall i j srv,
           js !! i = Some j -> srvs !! i = Some srv ->
           nonempty (ts j) = true ->
           outcome (CreateTexture env (ts j) ctx ValidOut)
             (textures_loaded env ctx (map ts (take i js)) s) = Returns srv).
Proof.
  induction js as [|j js IH].
  - eapply configures_mono; [apply configures_ret|].
    cbv beta. intros r ext s s' (_ & -> & ->) _. split; [reflexivity|].
    exists []. split; [reflexivity|]. split; [reflexivity|].
    intros i j srv Hi. by destruct i.
  - eapply configures_mono;
      [exact (configures_bind _ _ _ _ _ _ _
                (configures_slot env h dev ps ts ctx j) (fun _ => IH))|].
    cbv beta. intros r ext s s' (r1 & x & s1 & (-> & Hx) & Hrest) Hr.
    destruct r1 as [[]|e|]; [|destruct Hrest; congruence..].
    destruct Hrest as (y & -> & Hy).
    destruct (Hx eq_refl) as (srv & -> & Hsrv).
    destruct (Hy Hr) as (-> & srvs & Hlen & -> & Hall).
    split; [reflexivity|].
    exists (srv :: srvs). split; [simpl; by rewrite Hlen|].
    split; [reflexivity|].
    intros [|i] j' srv' Hj Hs Hn; simpl in Hj, Hs.
    + injection Hj as <-. injection Hs as <-. by apply Hsrv.
    + by apply (Hall i j' srv').
Qed.

Ltac configures_step :=
  first
    [ apply configures_lighting
    | apply configures_specular
    | apply configures_dgsl_specular
    | apply configures_emissive
    | apply configures_texture
    | apply configures_slots
    | apply configures_cache
    | configures_basic ].

Lemma resources_as_cached (b : bool) name e s :
  resources_as b name s
    (if b && nonempty name
     then final (lock_guard (cache_insert EffectCache (wstr name) e)) s
     else s).
Proof.
  unfold resources_as, caching_events.
  destruct (b && nonempty name); [|by rewrite app_nil_r].
  unfold_monad. simpl. by rewrite <- !app_assoc.
Qed.

Lemma texture_loaded_sharing env ctx t s :
  mSharing (this (texture_loaded env ctx t s)) = mSharing (this s).
Proof.
  unfold texture_loaded. destruct (nonempty t); [|reflexivity].
  apply (ext_sharing _ _ (CreateTexture_extends env t ctx ValidOut s)).
Qed.

Lemma resources_as_with_effects b name s h st' :
  resources_as b name s st' -> resources_as b name s (with_effects h st').
Proof. done. Qed.

(** What a miss of [CreateEffect] that returns leaves: the new effect
    with its calls, the texture being the one [CreateTexture] returns in
    the state the search of the effect cache left; and beside the effects
    and the effect cache, the state that this one call leaves if the
    texture is named, and the state of the search if it is not. *)
Lemma CreateEffect_loads env (info : EffectInfo) ctx st e :
  effect_miss info st ->
  outcome (CreateEffect env info ctx) st = Returns e ->
  exists srv,
    effects (world (final (CreateEffect env info ctx) st)) =
      effects (world st) ++
      [mkDGSLEffect (device (this st)) None
         (lighting_calls true ++ color_calls info ++ specular_calls info ++
          emissive_calls info ++ texture_calls (texture info) srv)] /\
    e = length (effects (world st)) /\
    (nonempty (texture info) = true ->
     outcome (CreateTexture env (texture info) ctx ValidOut)
       (after_lookup info st) = Returns srv) /\
    resources_as (mSharing (this st)) (name info)
      (texture_loaded env ctx (texture info) (after_lookup info st))
      (final (CreateEffect env info ctx) st).
Proof.
  intros Hmiss. unfold final, outcome, CreateEffect.
  rewrite bind_run. unfold outcome, final. rewrite after_lookup_run.
  simpl fst. simpl snd. cbv iota beta.
  rewrite bind_gets.
  destruct (after_lookup_state info st) as (Hthis & Heff & Hobj & _).
  set (s0 := after_lookup info st) in *.
  remember (if nonempty (name info) then _ else _) as it eqn:Hit.
  assert (Hmiss' : mSharing (this st) = false \/ it = None).
  { subst it. destruct Hmiss as [?|[->|?]]; auto. right. by destruct (nonempty _). }
  rewrite Hthis.
  destruct (mSharing (this st)) eqn:Hs, it as [cached|];
    try (destruct Hmiss'; discriminate).
  all: rewrite bind_gets, bind_make_shared.
  all: lazymatch goal with
       | |- context [snd (?m ?s)] =>
           eassert (Hcfg : configures (effects (world s0)) (device (this s0))
                             None m _)
             by (repeat configures_step);
           destruct (Hcfg [] s0) as (ext & s' & Hfin & HS); clear Hcfg;
           change (with_effects
                     (effects (world s0) ++
                      [mkDGSLEffect (device (this s0)) None []]) s0)
             with s in Hfin, HS;
           change (snd (m s)) with (final m s);
           change (fst (m s)) with (outcome m s);
           rewrite Hfin; clear Hfin;
           destruct (outcome m s) as [e'|ex|]
       end.
  all: intros Hr; open_shape; simplify_eq.
  all: rewrite ?texture_loaded_sharing, ?Hthis, ?Hs, ?andb_true_r in *.
  all: eexists; split;
         [simpl; rewrite Heff, ?app_nil_r; reflexivity|].
  all: split; [by rewrite Heff|]; split; [eassumption|].
  all: apply resources_as_with_effects.
  - apply resources_as_cached.
  - apply (resources_as_cached false).
  - apply (resources_as_cached false).
Qed.

Lemma textures_loaded_sharing env ctx ts : forall s,
  mSharing (this (textures_loaded env ctx ts s)) = mSharing (this s).
Proof.
  induction ts as [|t ts IH]; intros s; [reflexivity|].
  rewrite textures_loaded_cons, IH. apply texture_loaded_sharing.
Qed.

(** The same for [CreateDGSLEffect]: the textures are loaded after the
    effect was constructed, the texture of the material first and then
    those of the seven slots, each in the state the one before it
    left. *)
Lemma CreateDGSLEffect_loads env (info : DGSLEffectInfo) ctx st e :
  effect_miss info st ->
  outcome (CreateDGSLEffect env info ctx) st = Returns e ->
  let dev := device (this st) in
  let s0 := final (shader_variant env dev info) (after_lookup info st) in
  exists ps l a srv srvs,
    effects (world (final (CreateDGSLEffect env info ctx) st)) =
      effects (world st) ++
      [mkDGSLEffect dev ps
         (lighting_calls l ++ color_calls info ++
          dgsl_specular_calls a info ++ emissive_calls info ++
          texture_calls (texture info) srv ++
          slots_calls (textures info) (seq 0 7) srvs)] /\
    e = length (effects (world st)) /\
    length srvs = 7%nat /\
    variant_table env dev (pixelShader info) (after_lookup info st) ps l a /\
    (nonempty (texture info) = true ->
     outcome (CreateTexture env (texture info) ctx ValidOut) s0 = Returns srv) /\
    (forall j srv',
       srvs !! j = Some srv' -> nonempty (textures info j) = true ->
       outcome (CreateTexture env (textures info j) ctx ValidOut)
         (textures_loaded env ctx
            (texture info :: map (textures info) (seq 0 j)) s0)
       = Returns srv') /\
    resources_as (mSharing (this st)) (name info)
      (textures_loaded env ctx
         (texture info :: map (textures info) (seq 0 7)) s0)
      (final (CreateDGSLEffect env info ctx) st).
Proof.
  intros Hmiss Hr dev s0. revert Hr.
  unfold final, outcome, CreateDGSLEffect.
  rewrite bind_run. unfold outcome, final. rewrite after_lookup_run.
  simpl fst. simpl snd. cbv iota beta.
  rewrite bind_gets.
  destruct (after_lookup_state info st) as (Hthis & Heff & Hobj & _).
  set (sl := after_lookup info st) in *.
  remember (if nonempty (name info) then _ else _) as it eqn:Hit.
  assert (Hmiss' : mSharing (this st) = false \/ it = None).
  { subst it. destruct Hmiss as [?|[->|?]]; auto. right. by destruct (nonempty _). }
  destruct (shader_variant_spec env info sl) as (Hvx & _ & Hv).
  rewrite Hthis in *. fold dev in Hv, Hvx.
  change (final (shader_variant env dev info) sl) with s0 in Hv, Hvx.
  destruct (mSharing (this st)) eqn:Hs, it as [cached|];
    try (destruct Hmiss'; discriminate).
  all: rewrite bind_gets, Hthis, bind_run. 
  all: fold dev.
  all: change (final (shader_variant env dev info) sl) with s0.
  all: destruct (outcome (shader_variant env dev info) sl)
         as [[[e' l] a]|ex|]; [|discriminate..].
  all: destruct Hv as (-> & ps & Hheap & Htable).
  all: assert (Hs0 : with_effects
                       (effects (world sl) ++ [mkDGSLEffect dev ps []]) s0
                     = s0)
         by (rewrite <- Hheap; apply with_effects_self).
  all: lazymatch goal with
       | |- context [snd (?m ?s)] =>
           eassert (Hcfg : configures (effects (world sl)) dev ps m _)
             by (repeat configures_step);
           destruct (Hcfg [] s) as (ext & s' & Hfin & HS); clear Hcfg;
           rewrite Hs0 in Hfin, HS;
           change (snd (m s)) with (final m s);
           change (fst (m s)) with (outcome m s);
           rewrite Hfin; clear Hfin;
           destruct (outcome m s) as [e'|ex|]
       end.
  all: intros Hr; open_shape; simplify_eq.
  all: cbn [is_end] in *.
  all: rewrite ?textures_loaded_sharing, ?texture_loaded_sharing,
         ?(ext_sharing _ _ Hvx), ?Hthis, ?Hs, ?andb_true_r in *.
  all: lazymatch goal with
       | Hsrv : _ = true -> _ = Returns ?srv,
         Hlen : length ?srvs = length _ |- _ =>
           exists ps, l, a, srv, srvs
       end.
  all: split; [simpl; rewrite Heff, ?app_nil_r; reflexivity|].
  all: split; [by rewrite Heff|]; split; [assumption|].
  all: split; [assumption|]; split; [assumption|].
  all: split; [|apply resources_as_with_effects; rewrite textures_loaded_cons].
  all: try (intros j srv' Hj Hn;
            lazymatch goal with
            | Hall : forall i j srv, _ !! i = Some j -> _ |- _ =>
                specialize (Hall j j srv');
                change [0; 1; 2; 3; 4; 5; 6]%nat with (seq 0 7) in Hall;
                rewrite take_seq in Hall;
                assert (j < 7)%nat as Hlt
                  by (apply lookup_lt_Some in Hj; simpl in *; lia);
                rewrite Nat.min_l in Hall by lia;
                apply Hall; [by apply lookup_seq_lt | done | done]
            end).
  - apply resources_as_cached.
  - apply (resources_as_cached false).
  - apply (resources_as_cached false).
Qed.

(** C4: the effect a miss returns is configured from the description.
    By either method the ambient colour, the diffuse colour and alpha are
    set to the values of the description; the emissive colour is set
    exactly when one of its components is not zero; the texture is set
    exactly when the description names one.  [CreateEffect] sets the
    specular colour and power exactly when a component of the colour is
    not zero, never disables specular, and enables texturing exactly when
    the texture is named.  [CreateDGSLEffect] sets the specular colour
    and power exactly when a component is not zero and the variant is not
    "lambert", and disables specular otherwise; it sets slot [j + 1]
    exactly when [textures[j]] is named, for each of the seven [j], and
    enables texturing exactly when some texture is named.  The textures
    are loaded by [CreateTexture], in the state the search of the effect
    cache left ([CreateEffect]) or the construction of the effect left
    ([CreateDGSLEffect]), the texture of the material first and then
    those of the slots in their order, each in the state the one before
    it left; the texture set on the effect, or in a slot, is what its
    call returned; and a texture that is not named is not loaded: beside
    the effects and the effect cache, the method leaves what the calls
    for the named textures leave, the texture cache, the shader cache,
    the object counter and the trace, to which only the caching of the
    effect is added. *)
Theorem C4_effect_configured_from_description env (info : EffectInfo)
  (dinfo : DGSLEffectInfo) ctx st :
  (effect_miss info st ->
   forall e, outcome (CreateEffect env info ctx) st = Returns e ->
   exists eff,
     effects (world (final (CreateEffect env info ctx) st)) !! e = Some eff /\
     material_configured info (eff_calls eff) /\
     specular_configured true info (eff_calls eff) /\
     ~ In DisableSpecular (eff_calls eff) /\
     (In (SetTextureEnabled true) (eff_calls eff) <->
      nonempty (texture info) = true) /\
     (forall srv, In (SetTexture srv) (eff_calls eff) ->
      outcome (CreateTexture env (texture info) ctx ValidOut)
        (after_lookup info st) = Returns srv) /\
     resources_as (mSharing (this st)) (name info)
       (texture_loaded env ctx (texture info) (after_lookup info st))
       (final (CreateEffect env info ctx) st)) /\
  (effect_miss dinfo st ->
   forall e, outcome (CreateDGSLEffect env dinfo ctx) st = Returns e ->
   let built :=
     final (shader_variant env (device (this st)) dinfo)
       (after_lookup dinfo st) in
   exists eff,
     effects (world (final (CreateDGSLEffect env dinfo ctx) st)) !! e =
       Some eff /\
     material_configured dinfo (eff_calls eff) /\
     specular_configured (negb (is_lambert (pixelShader dinfo))) dinfo
       (eff_calls eff) /\
     (In DisableSpecular (eff_calls eff) <->
      any_component_nonzero (specularColor dinfo) = false \/
      is_lambert (pixelShader dinfo) = true) /\
     slots_configured dinfo (eff_calls eff) /\
     (forall srv, In (SetTexture srv) (eff_calls eff) ->
      outcome (CreateTexture env (texture dinfo) ctx ValidOut) built
      = Returns srv) /\
     (forall j srv, In (SetTextureAt (Z.of_nat j + 1) srv) (eff_calls eff) ->
      outcome (CreateTexture env (textures dinfo j) ctx ValidOut)
        (textures_loaded env ctx
           (texture dinfo :: map (textures dinfo) (seq 0 j)) built)
      = Returns srv) /\
     resources_as (mSharing (this st)) (name dinfo)
       (textures_loaded env ctx
          (texture dinfo :: map (textures dinfo) (seq 0 7)) built)
       (final (CreateDGSLEffect env dinfo ctx) st)).
Proof.
  split.
  - intros Hmiss e Hr.
    destruct (CreateEffect_loads env info ctx st e Hmiss Hr)
      as (srv & Hheap & -> & Hsrv & Hres).
    eexists. split; [rewrite Hheap; by apply list_lookup_middle|].
    cbn [eff_calls].
    rewrite <- (app_nil_r (texture_calls (texture info) srv)).
    pose proof (lighting_calls_kind true) as Hpre.
    assert (Hspec : forall c, In c (specular_calls info) ->
              c = DisableSpecular \/ (exists v, c = SetSpecularColor v) \/
              exists v, c = SetSpecularPower v).
    { intros c Hc. apply (specular_calls_kind info true). auto. }
    assert (Hpost : forall c, In c [] ->
              c = SetTextureEnabled true \/ exists k v, c = SetTextureAt k v)
      by (intros c []).
    pose proof (material_configured_log info _ _ [] srv Hpre Hspec Hpost)
      as Hmat.
    split; [exact Hmat|].
    split; [|split; [|split; [|split; [|exact Hres]]]].
    + apply specular_configured_true. intros c Hc.
      apply calls_from_spec; tauto.
    + rewrite calls_from_spec by auto. unfold specular_calls.
      destruct (any_component_nonzero _); simpl; naive_solver.
    + rewrite calls_texture_enabled by assumption. simpl. tauto.
    + intros v Hv.
      assert (Hn : nonempty (texture info) = true).
      { destruct Hmat as (_ & _ & _ & _ & Htex). apply Htex. by exists v. }
      apply calls_texture_set in Hv; [|assumption..]. subst v.
      by apply Hsrv.
  - intros Hmiss e Hr built.
    destruct (CreateDGSLEffect_loads env dinfo ctx st e Hmiss Hr)
      as (ps & l & a & srv & srvs & Hheap & -> & Hlen & Ht & Hsrv & Hsrvs
          & Hres).
    fold built in Hsrv, Hsrvs, Hres.
    eexists. split; [rewrite Hheap; by apply list_lookup_middle|].
    cbn [eff_calls].
    apply variant_table_allowSpecular in Ht. subst a.
    pose proof (lighting_calls_kind l) as Hpre.
    assert (Hspec : forall c,
              In c (dgsl_specular_calls (negb (is_lambert (pixelShader dinfo)))
                      dinfo) ->
              c = DisableSpecular \/ (exists v, c = SetSpecularColor v) \/
              exists v, c = SetSpecularPower v).
    { intros c Hc. eapply (specular_calls_kind dinfo). eauto. }
    pose proof (slots_calls_kind (textures dinfo) (seq 0 7) srvs) as Hpost.
    pose proof (material_configured_log dinfo _ _ _ srv Hpre Hspec Hpost)
      as Hmat.
    split; [exact Hmat|].
    destruct (specular_configured_dgsl dinfo
                (negb (is_lambert (pixelShader dinfo)))
                (lighting_calls l ++ color_calls dinfo ++
                 dgsl_specular_calls (negb (is_lambert (pixelShader dinfo)))
                   dinfo ++ emissive_calls dinfo ++
                 texture_calls (texture dinfo) srv ++
                 slots_calls (textures dinfo) (seq 0 7) srvs)) as (Hs1 & Hs2).
    { intros c Hc. apply calls_from_spec; tauto. }
    split; [exact Hs1|].
    split; [|split; [by apply slots_configured_log|split; [|split]]].
    + rewrite Hs2. destruct (is_lambert _), (any_component_nonzero _); simpl;
        naive_solver.
    + intros v Hv.
      assert (Hn : nonempty (texture dinfo) = true).
      { destruct Hmat as (_ & _ & _ & _ & Htex). apply Htex. by exists v. }
      apply calls_texture_set in Hv; [|assumption..]. subst v.
      by apply Hsrv.
    + intros j v Hv. rewrite calls_from_post in Hv by assumption.
      apply in_slots_calls in Hv.
      destruct Hv as [Hv|(i & j' & v' & Hi & Hi' & Hn & Hv)]; [done|].
      injection Hv as Hj ->. replace j with j' by lia.
      apply lookup_seq in Hi. destruct Hi as (Hi & _). simpl in Hi. subst j'.
      by apply Hsrvs.
    + exact Hres.
Qed.

Lemma dgsl_log_variant (info : DGSLEffectInfo) l a srv srvs :
  let calls :=
    lighting_calls l ++ color_calls info ++ dgsl_specular_calls a info ++
    emissive_calls info ++ texture_calls (texture info) srv ++
    slots_calls (textures info) (seq 0 7) srvs in
  (In EnableDefaultLighting calls <-> l = true) /\
  (forall b, In (SetLightingEnabled b) calls <-> b = true /\ l = true) /\
  specular_configured a info calls /\
  (In DisableSpecular calls <->
   a && any_component_nonzero (specularColor info) = false).
Proof.
  intros calls. subst calls.
  pose proof (lighting_calls_kind l) as Hpre.
  assert (Hspec : forall c, In c (dgsl_specular_calls a info) ->
            c = DisableSpecular \/ (exists v, c = SetSpecularColor v) \/
            exists v, c = SetSpecularPower v).
  { intros c Hc. eapply (specular_calls_kind info). eauto. }
  pose proof (slots_calls_kind (textures info) (seq 0 7) srvs) as Hpost.
  split; [|split].
  - rewrite calls_from_pre by auto. destruct l; simpl; intuition congruence.
  - intros b. rewrite calls_from_pre by eauto.
    destruct l; simpl; naive_solver.
  - apply specular_configured_dgsl. intros c Hc.
    apply calls_from_spec; tauto.
Qed.

(** C2: in [CreateDGSLEffect], for a non-empty pixel shader name, the
    variant of the effect a miss returns is selected by the root of the
    name (what follows its last underscore, or all of it, cut at the
    first period), compared without regard to case.  Root "lambert": no
    custom shader, default lighting, specular disabled and never set.
    Root "unlit": no custom shader and lighting not enabled.  Root
    "phong": no custom shader, default lighting, specular by the
    material.  Any other root: default lighting, and the effect is
    constructed on the shader that [CreatePixelShader] returned for the
    named file, or for the root followed by ".cso" when the feature level
    of the device is below 10.0. *)
Theorem C2_shader_name_selects_variant env (info : DGSLEffectInfo) ctx st e :
  nonempty (pixelShader info) = true ->
  effect_miss info st ->
  outcome (CreateDGSLEffect env info ctx) st = Returns e ->
  let root := spec_root (wstr (pixelShader info)) in
  exists eff,
    effects (world (final (CreateDGSLEffect env info ctx) st)) !! e = Some eff /\
    (_wcsicmp root (L "lambert") = 0 ->
     eff_pixelShader eff = None /\
     In EnableDefaultLighting (eff_calls eff) /\
     In (SetLightingEnabled true) (eff_calls eff) /\
     In DisableSpecular (eff_calls eff) /\
     forall c, ~ In (SetSpecularColor c) (eff_calls eff)) /\
    (_wcsicmp root (L "unlit") = 0 ->
     eff_pixelShader eff = None /\
     ~ In EnableDefaultLighting (eff_calls eff) /\
     (forall b, ~ In (SetLightingEnabled b) (eff_calls eff)) /\
     specular_configured true info (eff_calls eff)) /\
    (_wcsicmp root (L "phong") = 0 ->
     eff_pixelShader eff = None /\
     In EnableDefaultLighting (eff_calls eff) /\
     In (SetLightingEnabled true) (eff_calls eff) /\
     specular_configured true info (eff_calls eff)) /\
    (_wcsicmp root (L "lambert") <> 0 ->
     _wcsicmp root (L "phong") <> 0 ->
     _wcsicmp root (L "unlit") <> 0 ->
     In EnableDefaultLighting (eff_calls eff) /\
     In (SetLightingEnabled true) (eff_calls eff) /\
     specular_configured true info (eff_calls eff) /\
     exists loaded,
       eff_pixelShader eff = Some loaded /\
       outcome
         (CreatePixelShader env
            (Some (if GetFeatureLevel env (device (this st))
                      <? D3D_FEATURE_LEVEL_10_0
                   then root ++ L ".cso"
                   else wstr (pixelShader info)))
            ValidOut)
         (after_lookup info st) = Returns loaded).
Proof.
  intros Hp Hmiss Hr root.
  destruct (CreateDGSLEffect_returns env info ctx st e Hmiss Hr)
    as (ps & l & a & srv & srvs & He & Hlen & (_ & Ht) & _).
  specialize (Ht Hp). destruct Ht as (Hlam & Hpho & Hunl & Hoth).
  eexists. split; [exact He|]. cbn [eff_calls eff_pixelShader].
  destruct (dgsl_log_variant info l a srv srvs) as (Hl1 & Hl2 & Hs1 & Hs2).
  split; [|split; [|split]].
  - intros E. destruct (Hlam E) as (-> & -> & ->).
    split; [reflexivity|]. split; [by apply Hl1|]. split; [by apply Hl2|].
    split; [by apply Hs2|].
    intros c Hc. apply Hs1 in Hc. simpl in Hc. by destruct Hc.
  - intros E. destruct (Hunl E) as (-> & -> & ->).
    split; [reflexivity|]. split; [by rewrite Hl1|]. split; [|exact Hs1].
    intros b Hb. apply Hl2 in Hb. by destruct Hb.
  - intros E. destruct (Hpho E) as (-> & -> & ->).
    split; [reflexivity|]. split; [by apply Hl1|]. split; [by apply Hl2|].
    exact Hs1.
  - intros E1 E2 E3.
    destruct (Hoth E1 E2 E3) as (-> & -> & file & loaded & -> & Hload & ->).
    split; [by apply Hl1|]. split; [by apply Hl2|]. split; [exact Hs1|].
    by exists loaded.
Qed.

(** ** The theorems at work on concrete requests *)

(** "brick" was cached as effect 0: asking again returns effect 0. *)
Lemma C1_effects_shared_by_name_witness :
  CreateEffect env_desktop info_brick None st_brick =
    (Returns 0%nat, traced [EvFind EffectCache (L "brick")] st_brick) /\
  mEffectCache (this st_brick) !! L "brick" = Some 0%nat.
Proof.
  destruct (C1_effects_shared_by_name env_desktop info_brick dinfo_wall None
              st_brick) as (H & _).
  destruct (H eq_refl) as (Hhit & _).
  split; [apply Hhit; reflexivity | reflexivity].
Defined.

(** "Wall_Lambert.hlsl" has the root "Lambert": the effect has no shader
    of its own and specular is disabled, shiny as the material is. *)
Lemma C2_shader_name_selects_variant_witness :
  exists eff,
    effects (world (final (CreateDGSLEffect env_desktop dinfo_wall None)
                      st_fresh)) !! 0%nat = Some eff /\
    eff_pixelShader eff = None /\
    In DisableSpecular (eff_calls eff).
Proof.
  destruct (C2_shader_name_selects_variant env_desktop dinfo_wall None st_fresh
              0%nat eq_refl (or_intror (or_intror eq_refl)) eq_refl)
    as (eff & He & Hlam & _).
  exists eff. split; [exact He|].
  destruct (Hlam eq_refl) as (Hps & _ & _ & Hds & _). auto.
Defined.

(** "wood.dds" was loaded as object 100: asking again, with a device
    context this time, returns object 100 and loads nothing. *)
Lemma C3_resources_shared_by_name_witness :
  CreateTexture env_desktop (Some (L "wood.dds")) (Some 7%nat) ValidOut st_wood =
  (Returns 100%nat,
   traced [EvFind TextureCache (L "wood.dds"); EvAddRef 100%nat] st_wood).
Proof.
  destruct (C3_resources_shared_by_name env_desktop (L "wood.dds")
              (Some 7%nat) None st_wood) as (Hhit & _).
  apply Hhit; reflexivity.
Defined.

(** "brick" has no specular colour and a texture: the new effect gets its
    ambient colour and no specular colour, and its texture is the object
    100 that loading "brick.png" created, the one object created. *)
Lemma C4_effect_configured_from_description_witness :
  exists eff,
    effects (world (final (CreateEffect env_desktop info_brick None) st_fresh))
      !! 0%nat = Some eff /\
    In (SetAmbientColor white) (eff_calls eff) /\
    (exists srv, In (SetTexture srv) (eff_calls eff)) /\
    ~ In (SetSpecularColor black) (eff_calls eff) /\
    (forall srv, In (SetTexture srv) (eff_calls eff) -> srv = 100%nat) /\
    next_object
      (world (final (CreateEffect env_desktop info_brick None) st_fresh))
    = 101%nat.
Proof.
  destruct (C4_effect_configured_from_description env_desktop info_brick
              dinfo_wall None st_fresh) as (H & _).
  destruct (H (or_intror (or_intror eq_refl)) 0%nat eq_refl)
    as (eff & He & (Hamb & _ & _ & _ & Htex) & (Hspec & _) & _ & _ & Hload
        & (_ & _ & Hobj & _)).
  exists eff. split; [exact He|].
  split; [by apply Hamb|]. split; [by apply Htex|].
  split; [|split].
  - intros Hin. apply Hspec in Hin. destruct Hin as (_ & Hin). discriminate Hin.
  - intros srv Hin. apply Hload in Hin.
    assert (Hc : outcome
                   (CreateTexture env_desktop (texture info_brick) None ValidOut)
                   (after_lookup info_brick st_fresh) = Returns 100%nat)
      by reflexivity.
    congruence.
  - rewrite Hobj. reflexivity.
Defined.

(** A texture that fails to load: the exception is not "invalid
    arguments" and the factory is as it was. *)
Lemma C8_invalid_arguments_and_exceptions_witness :
  this (final (CreateTexture env_no_files (Some (L "lost.png")) None ValidOut)
          st_fresh) = this st_fresh.
Proof.
  destruct (C8_invalid_arguments_and_exceptions env_no_files
              (Some (L "lost.png")) None ValidOut st_fresh) as (_ & _ & H & _).
  apply (H (failed_hresult E_FAIL)). reflexivity.
Defined.

(** The unnamed material is not cached, sharing on or off. *)
Lemma C9_unnamed_requests_not_cached_witness :
  mEffectCache (this (final (CreateEffect env_desktop info_anonymous None)
                        st_brick)) = mEffectCache (this st_brick) /\
  mEffectCache (this (final (CreateDGSLEffect env_desktop dinfo_glow None)
                        st_unshared)) = mEffectCache (this st_unshared).
Proof.
  split.
  - destruct (C9_unnamed_requests_not_cached env_desktop info_anonymous
                dinfo_glow None ValidOut st_brick) as (H & _).
    apply (H eq_refl).
  - destruct (C9_unnamed_requests_not_cached env_desktop info_anonymous
                dinfo_glow None ValidOut st_unshared) as (_ & H & _).
    apply (H eq_refl).
Defined.
(** * Further properties *)

(** ** How the methods may end *)

Lemma fails_only_mono {A} (t a t' a' : bool) (r : Outcome A) :
  (t = true -> t' = true) -> (a = true -> a' = true) ->
  fails_only t a r -> fails_only t' a' r.
Proof. destruct r as [x|[|hr]|]; simpl; tauto. Qed.

Section Ends.

Variable t a : bool.

Lemma ends_mono {A} (t' a' : bool) (m : M A) :
  (t' = true -> t = true) -> (a' = true -> a = true) ->
  ends t' a' m -> ends t a m.
Proof. intros Ht Ha Hm st. by apply (fails_only_mono t' a'). Qed.

Lemma ends_ret {A} (v : A) : ends t a (ret v).
Proof. intros st. exact I. Qed.

Lemma ends_bind {A B} (m : M A) (f : A -> M B) :
  ends t a m -> (forall v, ends t a (f v)) -> ends t a (bind m f).
Proof.
  intros Hm Hf st. unfold outcome. rewrite bind_run.
  specialize (Hm st). destruct (outcome m st) as [v|e|]; [apply Hf|exact Hm..].
Qed.

Lemma ends_when (b : bool) (m : M unit) :
  (b = true -> ends t a m) -> ends t a (when b m).
Proof. destruct b; simpl; [auto|intros _; apply ends_ret]. Qed.

Lemma ends_for_each (js : list nat) (body : nat -> M unit) :
  (forall j, In j js -> ends t a (body j)) -> ends t a (for_each js body).
Proof.
  induction js as [|j js IH]; intros H; [apply ends_ret|].
  apply ends_bind; [apply H; by left|].
  intros _. apply IH. intros j' Hj'. apply H. by right.
Qed.

Lemma ends_world (f : World -> World) : ends t a (modify_world f).
Proof. intros st. exact I. Qed.

Lemma ends_call (e : nat) (c : EffectCall) : ends t a (call e c).
Proof. apply ends_world. Qed.

Lemma ends_gets {A} (f : Impl -> A) : ends t a (gets f).
Proof. intros st. exact I. Qed.

Lemma ends_make_shared dev ps : ends t a (make_shared dev ps).
Proof. intros st. exact I. Qed.

Lemma ends_cache_find c k : ends t a (cache_find c k).
Proof. intros st. exact I. Qed.

Lemma ends_insert c k v : ends t a (lock_guard (cache_insert c k v)).
Proof. intros st. exact I. Qed.

End Ends.

(** A texture or a shader asked for with a name and a place for the
    result is returned, or the failure code of its loader is thrown. *)
Lemma ends_CreateTexture env n ctx :
  ends true false (CreateTexture env (Some n) ctx ValidOut).
Proof.
  intros st. unfold CreateTexture. run_method; auto.
Qed.

Lemma ends_CreatePixelShader env n :
  ends true false (CreatePixelShader env (Some n) ValidOut).
Proof.
  intros st. unfold CreatePixelShader. run_method; auto.
Qed.

Ltac ends_step :=
  lazymatch goal with
  | |- ends _ _ (ret _) => apply ends_ret
  | |- ends _ _ (call _ _) => apply ends_call
  | |- ends _ _ (gets _) => apply ends_gets
  | |- ends _ _ (make_shared _ _) => apply ends_make_shared
  | |- ends _ _ (cache_find _ _) => apply ends_cache_find
  | |- ends _ _ (lock_guard (cache_insert _ _ _)) => apply ends_insert
  | |- ends _ _ (bind _ _) => apply ends_bind; [|intros ?]
  | |- ends _ _ (when _ _) => apply ends_when; intros ?
  | |- ends _ _ (if ?b then _ else _) => destruct b eqn:?
  | |- ends _ _ (match ?v with _ => _ end) => destruct v
  end.

(** Loading the texture [p] of a description known to name one. *)
Lemma ends_texture env (p : option (list N)) ctx (k : nat -> M unit) t :
  nonempty p = true -> (t = true) -> (forall srv, ends t false (k srv)) ->
  ends t false (srv <- CreateTexture env p ctx ValidOut ;; k srv).
Proof.
  intros Hp -> Hk. apply ends_bind; [|exact Hk].
  rewrite (nonempty_wstr _ Hp). apply ends_CreateTexture.
Qed.

Lemma CreateEffect_ends env (info : EffectInfo) ctx :
  ends (nonempty (texture info)) false (CreateEffect env info ctx).
Proof.
  unfold CreateEffect.
  repeat first [ apply ends_texture; [assumption | assumption | intros ?]
               | ends_step ].
Qed.

Lemma root_copied_spec s : root_copied s = after_last_underscore s s.
Proof. unfold root_copied. by rewrite (after_last_underscore_wcsrchr s s). Qed.

Lemma root_cut_spec s : root_cut s = spec_root s.
Proof.
  unfold root_cut, spec_root.
  by rewrite before_first_period_wcschr, root_copied_spec.
Qed.

Lemma builtin_root_false r :
  (_wcsicmp r (L "lambert") =? 0) = false ->
  (_wcsicmp r (L "phong") =? 0) = false ->
  (_wcsicmp r (L "unlit") =? 0) = false ->
  builtin_root r = false.
Proof. unfold builtin_root. by intros -> -> ->. Qed.

Lemma shader_variant_ends env dev (info : DGSLEffectInfo) :
  ends (dgsl_loads info) (root_overflows env dev (pixelShader info))
    (shader_variant env dev info).
Proof.
  unfold shader_variant.
  destruct (nonempty (pixelShader info)) eqn:Hp; simpl negb; cbv iota;
    [|repeat ends_step].
  intros st. unfold outcome. rewrite bind_run. unfold outcome, final.
  rewrite shader_root_run.
  unfold root_overflows, dgsl_loads.
  rewrite Hp, root_cut_spec, root_copied_spec.
  set (root := spec_root (wstr (pixelShader info))).
  destruct (length _ <? MAX_PATH)%nat eqn:Hfit; simpl fst; simpl snd; cbv iota.
  2:{ cbv [fails_only]. rewrite andb_true_l.
      apply Nat.ltb_ge in Hfit. apply orb_true_intro. left.
      by apply Nat.leb_le. }
  destruct (_wcsicmp root (L "lambert") =? 0) eqn:E1; [exact I|].
  destruct (_wcsicmp root (L "phong") =? 0) eqn:E2; [exact I|].
  destruct (_wcsicmp root (L "unlit") =? 0) eqn:E3; [exact I|].
  rewrite (builtin_root_false root E1 E2 E3). simpl negb.
  rewrite orb_true_r, andb_true_l.
  destruct (GetFeatureLevel env dev <? D3D_FEATURE_LEVEL_10_0) eqn:Hlevel.
  - rewrite bind_run. unfold wcscat_s, crt, outcome, final.
    destruct (_ + _ <? MAX_PATH)%nat eqn:Hcat; simpl fst; simpl snd; cbv iota.
    + apply (fails_only_mono true false); [done|done|].
      apply (ends_bind true false); [apply ends_CreatePixelShader|].
      intros ps. repeat ends_step.
    + cbv [fails_only]. rewrite andb_true_l.
      apply Nat.ltb_ge in Hcat. apply orb_true_intro. right.
      apply Nat.leb_le. exact Hcat.
  - apply (fails_only_mono true false); [done|done|].
    rewrite (nonempty_wstr _ Hp).
    apply (ends_bind true false); [apply ends_CreatePixelShader|].
    intros ps. repeat ends_step.
Qed.

Lemma dgsl_loads_texture (info : DGSLEffectInfo) :
  nonempty (texture info) = true -> dgsl_loads info = true.
Proof. unfold dgsl_loads. by intros ->. Qed.

Lemma dgsl_loads_slot (info : DGSLEffectInfo) j :
  In j (seq 0 7) -> nonempty (textures info j) = true -> dgsl_loads info = true.
Proof.
  intros Hj Hb. unfold dgsl_loads.
  assert (existsb (fun j => nonempty (textures info j)) (seq 0 7) = true) as ->.
  { apply existsb_exists. by exists j. }
  by rewrite orb_true_r.
Qed.

Lemma CreateDGSLEffect_ends env (info : DGSLEffectInfo) ctx st :
  fails_only (dgsl_loads info)
    (root_overflows env (device (this st)) (pixelShader info))
    (outcome (CreateDGSLEffect env info ctx) st).
Proof.
  unfold outcome, CreateDGSLEffect.
  rewrite bind_run. unfold outcome, final. rewrite after_lookup_run.
  simpl fst. simpl snd. cbv iota beta.
  rewrite bind_gets.
  destruct (after_lookup_state info st) as (Hthis & _).
  rewrite Hthis.
  remember (if nonempty (name info) then _ else _) as it eqn:Hit. clear Hit.
  destruct (mSharing (this st)), it as [cached|]; [exact I|..].
  all: rewrite bind_gets, Hthis.
  all: apply ends_bind; [apply shader_variant_ends|].
  all: intros [[effect lighting] allowSpecular].
  all: apply (ends_mono _ _ (dgsl_loads info) false); [done|done|].
  all: repeat first
         [ apply ends_texture;
             [ assumption | by apply dgsl_loads_texture | intros ? ]
         | apply ends_for_each; intros j Hj; apply ends_when; intros Hb;
           apply ends_texture;
             [ assumption | by apply (dgsl_loads_slot info j) | intros ? ]
         | ends_step ].
Qed.

(** ** Conditions kept by the methods that build effects *)

Section Step.

Context {A : Type}.

Lemma step_ret (P : State -> Prop) (v : A) (R : A -> State -> Prop)
  (E : State -> Prop) :
  (forall st, P st -> R v st) -> step P (ret v) R E.
Proof. intros H st HP. by apply H. Qed.

Lemma step_bind {B} (P : State -> Prop) (m : M A) (f : A -> M B)
  (R : A -> State -> Prop) (Q : B -> State -> Prop) (E : State -> Prop) :
  step P m R E -> (forall v, step (R v) (f v) Q E) -> step P (bind m f) Q E.
Proof.
  intros Hm Hf st HP. unfold outcome, final. rewrite bind_run.
  specialize (Hm st HP). destruct (outcome m st) as [v|e|]; [|exact Hm..].
  apply (Hf v _ Hm).
Qed.

(** A computation that leaves the implementation object, the effects and
    the object counter alone keeps whatever depends on these only. *)
Lemma step_same (P : State -> Prop) (m : M A) :
  (forall st st', this st' = this st ->
     effects (world st') = effects (world st) ->
     next_object (world st') = next_object (world st) -> P st -> P st') ->
  (forall st, this (final m st) = this st /\
     effects (world (final m st)) = effects (world st) /\
     next_object (world (final m st)) = next_object (world st)) ->
  step P m (fun _ => P) P.
Proof.
  intros HP Hm st Hst. destruct (Hm st) as (H1 & H2 & H3).
  destruct (outcome m st); by apply (HP st).
Qed.

End Step.

Lemma step_when (P : State -> Prop) (b : bool) (m : M unit)
  (E : State -> Prop) :
  (b = true -> step P m (fun _ => P) E) -> step P (when b m) (fun _ => P) E.
Proof. destruct b; simpl; [auto|]. intros _. by apply step_ret. Qed.

Lemma step_for_each (P : State -> Prop) (js : list nat)
  (body : nat -> M unit) (E : State -> Prop) :
  (forall j, step P (body j) (fun _ => P) E) ->
  step P (for_each js body) (fun _ => P) E.
Proof.
  intros H. induction js as [|j js IH]; [by apply step_ret|].
  eapply step_bind; [apply H|]. intros v. exact IH.
Qed.

Lemma step_weaken {A} (P : State -> Prop) (m : M A)
  (R R' : A -> State -> Prop) (E E' : State -> Prop) :
  (forall v st, R' v st -> R v st) -> (forall st, E' st -> E st) ->
  step P m R' E' -> step P m R E.
Proof.
  intros HR HE Hm st HP. specialize (Hm st HP).
  destruct (outcome m st); auto.
Qed.

Lemma shader_root_final s st : final (shader_root s) st = st.
Proof. unfold final. rewrite shader_root_run. reflexivity. Qed.

Lemma insert_run c k v st :
  lock_guard (cache_insert c k v) st =
  (Returns tt,
   traced [EvLock; EvInsert c k; EvUnlock]
     (mkState (set_cache c (map_insert k v) (this st)) (world st))).
Proof. unfold_monad. simpl. by rewrite <- !app_assoc. Qed.

(** What a texture or shader request leaves: no effect is touched, and
    either the implementation object is as it was, or sharing is on and
    the new object was entered under the name, which is not empty and was
    not cached. *)
Lemma CreateTexture_final env name ctx out st :
  let st' := final (CreateTexture env name ctx out) st in
  effects (world st') = effects (world st) /\
  (this st' = this st /\
   (next_object (world st) <= next_object (world st'))%nat \/
   exists n,
     name = Some n /\ n <> [] /\ mSharing (this st) = true /\
     mTextureCache (this st) !! n = None /\
     this st' =
       set_cache TextureCache (fun c => <[n := next_object (world st)]> c)
         (this st) /\
     next_object (world st') = S (next_object (world st))).
Proof.
  unfold CreateTexture. run_method.
  all: split; [reflexivity|].
  all: try (left; split; [reflexivity | lia]).
  all: right; eexists; split; [reflexivity|].
  all: split; [discriminate|]; split; [reflexivity|]; split; [assumption|].
  all: split; [by rewrite map_insert_fresh | reflexivity].
Qed.

Lemma CreatePixelShader_final env name out st :
  let st' := final (CreatePixelShader env name out) st in
  effects (world st') = effects (world st) /\
  (this st' = this st /\
   (next_object (world st) <= next_object (world st'))%nat \/
   exists n,
     name = Some n /\ n <> [] /\ mSharing (this st) = true /\
     mShaderCache (this st) !! n = None /\
     this st' =
       set_cache ShaderCache (fun c => <[n := next_object (world st)]> c)
         (this st) /\
     next_object (world st') = S (next_object (world st))).
Proof.
  unfold CreatePixelShader. run_method.
  all: split; [reflexivity|].
  all: try (left; split; [reflexivity | lia]).
  all: right; eexists; split; [reflexivity|].
  all: split; [discriminate|]; split; [reflexivity|]; split; [assumption|].
  all: split; [by rewrite map_insert_fresh | reflexivity].
Qed.

Lemma insert_returns c k v st :
  outcome (lock_guard (cache_insert c k v)) st = Returns tt.
Proof. unfold outcome. by rewrite insert_run. Qed.

Lemma wstr_nonempty (p : option (list N)) : nonempty p = true -> wstr p <> [].
Proof. by destruct p as [[|c s]|]. Qed.

Section Kept.

(** A condition [I oe] on the state is kept by the two methods that build
    effects if the steps they are made of keep it, [oe] being the effect
    under construction once there is one. *)
Variable I : option nat -> State -> Prop.

Hypothesis I_weaken : forall e st, I (Some e) st -> I None st.
Hypothesis I_same : forall oe st st',
  this st' = this st ->
  effects (world st') = effects (world st) ->
  next_object (world st') = next_object (world st) ->
  I oe st -> I oe st'.
Hypothesis I_call : forall e c st,
  I (Some e) st -> I (Some e) (final (call e c) st).
Hypothesis I_new : forall dev ps st,
  I None st ->
  I (Some (length (effects (world st)))) (final (make_shared dev ps) st).
Hypothesis I_texture : forall oe env n ctx st,
  I oe st -> I oe (final (CreateTexture env (Some n) ctx ValidOut) st).
Hypothesis I_shader : forall env n st,
  I None st -> I None (final (CreatePixelShader env (Some n) ValidOut) st).
Hypothesis I_insert : forall e k st,
  mSharing (this st) = true -> k <> [] ->
  I (Some e) st ->
  I None (final (lock_guard (cache_insert EffectCache k e)) st).

Local Abbreviation keeps oe m := (step (I oe) m (fun _ => I oe) (I None)).

Lemma I_forget oe st : I oe st -> I None st.
Proof. destruct oe; [apply I_weaken|done]. Qed.

Lemma kept_same {A} oe (m : M A) :
  (forall st, this (final m st) = this st /\
     effects (world (final m st)) = effects (world st) /\
     next_object (world (final m st)) = next_object (world st)) ->
  keeps oe m.
Proof.
  intros Hm. apply (step_weaken _ _ _ (fun _ => I oe) _ (I oe));
    [done | apply I_forget |].
  apply step_same; [apply I_same | exact Hm].
Qed.

Lemma kept_gets {A} oe (f : Impl -> A) : keeps oe (gets f).
Proof. by apply kept_same. Qed.

Lemma kept_find oe c k : keeps oe (cache_find c k).
Proof. by apply kept_same. Qed.

Lemma kept_root oe s : keeps oe (shader_root s).
Proof. apply kept_same. intros st. by rewrite shader_root_final. Qed.

Lemma kept_crt {A} oe (r : option A) : keeps oe (crt r).
Proof. apply kept_same. by destruct r. Qed.

Lemma kept_call e c : keeps (Some e) (call e c).
Proof. intros st H. by apply I_call. Qed.

Lemma kept_new dev ps :
  step (I None) (make_shared dev ps) (fun e => I (Some e)) (I None).
Proof. intros st H. by apply I_new. Qed.

Lemma kept_texture oe env (p : option (list N)) ctx :
  nonempty p = true -> keeps oe (CreateTexture env p ctx ValidOut).
Proof.
  intros Hp st H. rewrite (nonempty_wstr _ Hp).
  pose proof (I_texture oe env (wstr p) ctx st H) as H'.
  destruct (outcome _ st); eauto using I_forget.
Qed.

Lemma kept_shader env (p : option (list N)) :
  nonempty p = true \/ (exists n, p = Some n) ->
  keeps None (CreatePixelShader env p ValidOut).
Proof.
  intros Hp st H.
  assert (exists n, p = Some n) as (n & ->).
  { destruct Hp as [Hp|Hp]; [|exact Hp]. exists (wstr p). by apply nonempty_wstr. }
  pose proof (I_shader env n st H) as H'.
  by destruct (outcome _ st).
Qed.

Lemma kept_cache e (nm : option (list N)) (it : option nat) :
  step (I (Some e))
    (sharing <- gets mSharing ;;
     when (sharing && nonempty nm && is_end it)
       (lock_guard (cache_insert EffectCache (wstr nm) e)) ;;
     ret e)
    (fun _ => I None) (I None).
Proof.
  intros st H. unfold outcome, final. rewrite bind_gets.
  destruct (mSharing (this st) && nonempty nm && is_end it) eqn:Hb;
    cbv [when]; rewrite bind_run.
  - rewrite insert_returns. simpl.
    apply andb_prop in Hb. destruct Hb as (Hb & _).
    apply andb_prop in Hb. destruct Hb as (Hs & Hn).
    apply I_insert; auto using wstr_nonempty.
  - simpl. by apply (I_weaken e).
Qed.

Ltac kept_step :=
  cbv beta;
  lazymatch goal with
  | |- step _ (bind (gets mSharing) (fun _ => bind (when _ (lock_guard _)) _))
         _ _ => apply kept_cache
  | |- step _ (bind _ _) _ _ => eapply step_bind; [|intros ?]
  | |- step _ (ret _) _ _ => apply step_ret; intros ? ?; assumption
  | |- step _ (when _ _) _ _ => apply step_when; intros ?
  | |- step _ (for_each _ _) _ _ => apply step_for_each; intros ?
  | |- step _ (call _ _) _ _ => apply kept_call
  | |- step _ (gets _) _ _ => apply kept_gets
  | |- step _ (cache_find _ _) _ _ => apply kept_find
  | |- step _ (shader_root _) _ _ => apply kept_root
  | |- step _ (crt _) _ _ => apply kept_crt
  | |- step _ (make_shared _ _) _ _ => apply kept_new
  | |- step _ (CreateTexture _ _ _ _) _ _ => apply kept_texture; assumption
  | |- step _ (CreatePixelShader _ _ _) _ _ =>
      apply kept_shader; first [by left | by right; eexists]
  | |- step _ (if ?b then _ else _) _ _ => destruct b eqn:?
  | |- step _ (match ?v with _ => _ end) _ _ => destruct v
  end.

Lemma kept_variant env dev (info : DGSLEffectInfo) :
  step (I None) (shader_variant env dev info)
    (fun v => I (Some (fst (fst v)))) (I None).
Proof.
  unfold shader_variant.
  destruct (nonempty (pixelShader info)) eqn:Hp; simpl negb; cbv iota.
  all: repeat kept_step.
Qed.

Lemma CreateEffect_kept env (info : EffectInfo) ctx st :
  I None st -> I None (final (CreateEffect env info ctx) st).
Proof.
  intros H.
  assert (Hs : step (I None) (CreateEffect env info ctx)
                 (fun _ => I None) (I None)).
  { unfold CreateEffect. repeat kept_step. }
  specialize (Hs st H). by destruct (outcome _ st).
Qed.

Lemma CreateDGSLEffect_kept env (info : DGSLEffectInfo) ctx st :
  I None st -> I None (final (CreateDGSLEffect env info ctx) st).
Proof.
  intros H.
  assert (Hs : step (I None) (CreateDGSLEffect env info ctx)
                 (fun _ => I None) (I None)).
  { unfold CreateDGSLEffect.
    repeat first [apply kept_variant | kept_step]. }
  specialize (Hs st H). by destruct (outcome _ st).
Qed.

End Kept.

(** ** The handles held by the caches *)

Lemma cache_of_set_cache c c' f i :
  cache_of c' (set_cache c f i) =
  if decide (c' = c) then f (cache_of c i) else cache_of c' i.
Proof. by destruct c, c'. Qed.

Lemma cache_ok_grow st st' :
  this st' = this st ->
  (length (effects (world st)) <= length (effects (world st')))%nat ->
  (next_object (world st) <= next_object (world st'))%nat ->
  cache_ok st -> cache_ok st'.
Proof.
  intros Hi He Ho [H1 H2 H3 H4 H5 H6].
  split; rewrite Hi; eauto.
  - intros k e Hk. specialize (H2 k e Hk). lia.
  - intros k v Hk. specialize (H3 k v Hk). lia.
  - intros k v Hk. specialize (H4 k v Hk). lia.
Qed.

(** Entering the object [v], new of its kind, under a name that is not
    empty. *)
Lemma cache_ok_insert c k v st st' :
  cache_ok st -> k <> [] ->
  this st' = set_cache c (fun m => <[k := v]> m) (this st) ->
  (length (effects (world st)) <= length (effects (world st')))%nat ->
  (next_object (world st) <= next_object (world st'))%nat ->
  match c with
  | EffectCache =>
      (v < length (effects (world st')))%nat /\
      forall k', mEffectCache (this st) !! k' <> Some v
  | _ =>
      (next_object (world st) <= v < next_object (world st'))%nat
  end ->
  cache_ok st'.
Proof.
  intros [H1 H2 H3 H4 H5 H6] Hk Hi He Ho Hv.
  split; rewrite Hi.
  - intros c'. rewrite cache_of_set_cache. destruct (decide (c' = c)); [|done].
    by rewrite lookup_insert_ne.
  - intros k' e. destruct c; simpl; rewrite ?lookup_insert_Some.
    + intros [[_ <-]|[_ Hk']]; [tauto|]. specialize (H2 k' e Hk'). lia.
    + intros Hk'. specialize (H2 k' e Hk'). lia.
    + intros Hk'. specialize (H2 k' e Hk'). lia.
  - intros k' v'. destruct c; simpl; rewrite ?lookup_insert_Some.
    + intros Hk'. specialize (H3 k' v' Hk'). lia.
    + intros [[_ <-]|[_ Hk']]; [lia|]. specialize (H3 k' v' Hk'). lia.
    + intros Hk'. specialize (H3 k' v' Hk'). lia.
  - intros k' v'. destruct c; simpl; rewrite ?lookup_insert_Some.
    + intros Hk'. specialize (H4 k' v' Hk'). lia.
    + intros Hk'. specialize (H4 k' v' Hk'). lia.
    + intros [[_ <-]|[_ Hk']]; [lia|]. specialize (H4 k' v' Hk'). lia.
  - intros c' k1 k2 v'. rewrite cache_of_set_cache.
    destruct (decide (c' = c)) as [->|Hc]; [|apply H5].
    rewrite !lookup_insert_Some.
    intros [[<- <-]|[_ Hk1]] [[<- E]|[_ Hk2]]; try done.
    + exfalso. destruct c; simpl in *.
      * destruct Hv as (_ & Hv). by apply (Hv k2).
      * specialize (H3 k2 _ Hk2). lia.
      * specialize (H4 k2 _ Hk2). lia.
    + exfalso. subst v'. destruct c; simpl in *.
      * destruct Hv as (_ & Hv). by apply (Hv k1).
      * specialize (H3 k1 _ Hk1). lia.
      * specialize (H4 k1 _ Hk1). lia.
    + by apply (H5 c k1 k2 v').
  - intros k1 k2 v'. destruct c; simpl; rewrite ?lookup_insert_Some.
    + apply H6.
    + intros [[_ <-]|[_ Hk1]] Hk2; [|by apply (H6 k1 k2 v')].
      specialize (H4 k2 _ Hk2). lia.
    + intros Hk1 [[_ <-]|[_ Hk2]]; [|by apply (H6 k1 k2 v')].
      specialize (H3 k1 _ Hk1). lia.
Qed.

Lemma cache_ok_building_weaken e st :
  cache_ok_building (Some e) st -> cache_ok_building None st.
Proof. intros [H _]. split; [exact H|discriminate]. Qed.

Lemma cache_ok_building_same oe st st' :
  this st' = this st ->
  effects (world st') = effects (world st) ->
  next_object (world st') = next_object (world st) ->
  cache_ok_building oe st -> cache_ok_building oe st'.
Proof.
  intros Hi He Ho [H Hb]. split.
  - apply (cache_ok_grow st); [done|rewrite He; lia|lia|done].
  - rewrite Hi, He. exact Hb.
Qed.

Lemma cache_ok_building_call e c st :
  cache_ok_building (Some e) st ->
  cache_ok_building (Some e) (final (call e c) st).
Proof.
  intros [H Hb]. unfold call, modify_world, final. simpl. split.
  - apply (cache_ok_grow st); simpl; [done|rewrite length_alter; lia|lia|done].
  - simpl. rewrite length_alter. exact Hb.
Qed.

Lemma cache_ok_building_new dev ps st :
  cache_ok_building None st ->
  cache_ok_building (Some (length (effects (world st))))
    (final (make_shared dev ps) st).
Proof.
  intros [H _]. unfold make_shared, final. simpl. split.
  - apply (cache_ok_grow st); simpl; [done|rewrite length_app; lia|lia|done].
  - intros e [= <-]. simpl. rewrite length_app. simpl. split; [lia|].
    intros k Hk. pose proof (ok_effects st H k _ Hk). lia.
Qed.

Lemma cache_ok_building_texture oe env name ctx out st :
  cache_ok_building oe st ->
  cache_ok_building oe (final (CreateTexture env name ctx out) st).
Proof.
  intros [H Hb].
  destruct (CreateTexture_final env name ctx out st)
    as (He & [(Hi & Ho)|(n & -> & Hn & Hs & Hc & Hi & Ho)]).
  - split; [apply (cache_ok_grow st); [done|rewrite He; lia|done|done]|].
    by rewrite Hi, He.
  - split.
    + apply (cache_ok_insert TextureCache n (next_object (world st)) st);
        [done|done|done|rewrite He; lia|lia|lia].
    + rewrite Hi, He. exact Hb.
Qed.

Lemma cache_ok_building_shader oe env name out st :
  cache_ok_building oe st ->
  cache_ok_building oe (final (CreatePixelShader env name out) st).
Proof.
  intros [H Hb].
  destruct (CreatePixelShader_final env name out st)
    as (He & [(Hi & Ho)|(n & -> & Hn & Hs & Hc & Hi & Ho)]).
  - split; [apply (cache_ok_grow st); [done|rewrite He; lia|done|done]|].
    by rewrite Hi, He.
  - split.
    + apply (cache_ok_insert ShaderCache n (next_object (world st)) st);
        [done|done|done|rewrite He; lia|lia|lia].
    + rewrite Hi, He. exact Hb.
Qed.

Lemma cache_ok_building_insert e k st :
  k <> [] ->
  cache_ok_building (Some e) st ->
  cache_ok_building None (final (lock_guard (cache_insert EffectCache k e)) st).
Proof.
  intros Hk [H Hb]. destruct (Hb e eq_refl) as (He & Hfresh).
  split; [|discriminate].
  unfold final. rewrite insert_run. unfold traced. simpl.
  unfold map_insert. destruct (mEffectCache (this st) !! k) eqn:Hc.
  - apply (cache_ok_grow st); simpl; [by destruct (this st)|lia|lia|done].
  - apply (cache_ok_insert EffectCache k e st); simpl; [done|done|done|lia|lia|].
    split; [exact He|exact Hfresh].
Qed.

Lemma CreateEffect_cache_ok env info ctx st :
  cache_ok st -> cache_ok (final (CreateEffect env info ctx) st).
Proof.
  intros H.
  refine (proj1 (CreateEffect_kept cache_ok_building _ _ _ _ _ _
                   env info ctx st _));
    [ apply cache_ok_building_weaken
    | apply cache_ok_building_same
    | apply cache_ok_building_call
    | apply cache_ok_building_new
    | intros; by apply cache_ok_building_texture
    | intros; by apply cache_ok_building_insert
    | split; [exact H|discriminate] ].
Qed.

Lemma CreateDGSLEffect_cache_ok env (info : DGSLEffectInfo) ctx st :
  cache_ok st -> cache_ok (final (CreateDGSLEffect env info ctx) st).
Proof.
  intros H.
  refine (proj1 (CreateDGSLEffect_kept cache_ok_building _ _ _ _ _ _ _
                   env info ctx st _));
    [ apply cache_ok_building_weaken
    | apply cache_ok_building_same
    | apply cache_ok_building_call
    | apply cache_ok_building_new
    | intros; by apply cache_ok_building_texture
    | intros; by apply cache_ok_building_shader
    | intros; by apply cache_ok_building_insert
    | split; [exact H|discriminate] ].
Qed.

Lemma ReleaseCache_cache_ok st : cache_ok (final ReleaseCache st).
Proof.
  unfold ReleaseCache. unfold_monad. simpl.
  split; simpl; try done. all: by intros [].
Qed.

Lemma SetSharing_cache_ok enabled st :
  cache_ok st -> cache_ok (final (SetSharing enabled) st).
Proof.
  intros [H1 H2 H3 H4 H5 H6]. unfold SetSharing, modify_impl, final. simpl.
  split; simpl; done.
Qed.

Lemma serve_cache_ok env q st : cache_ok st -> cache_ok (serve env st q).
Proof.
  intros H. destruct q as [info ctx|info ctx|name ctx out|name out| |enabled];
    simpl.
  - by apply CreateEffect_cache_ok.
  - by apply CreateDGSLEffect_cache_ok.
  - apply (cache_ok_building_texture None). split; [exact H|discriminate].
  - apply (cache_ok_building_shader None). split; [exact H|discriminate].
  - apply ReleaseCache_cache_ok.
  - by apply SetSharing_cache_ok.
Qed.

Lemma serve_all_cache_ok env qs st :
  cache_ok st -> cache_ok (serve_all env qs st).
Proof.
  revert st. induction qs as [|q qs IH]; intros st H; [exact H|].
  apply IH. by apply serve_cache_ok.
Qed.

Lemma Impl_ctor_cache_ok dev w : cache_ok (mkState (Impl_ctor dev) w).
Proof. split; simpl; try done. all: by intros []. Qed.

(** ** Requests made with sharing off *)

Section Unshared.

Variable i : Impl.
Hypothesis unshared : mSharing i = false.

Lemma impl_is_texture oe env name ctx out st :
  impl_is i oe st -> impl_is i oe (final (CreateTexture env name ctx out) st).
Proof.
  unfold impl_is. intros Hi.
  destruct (CreateTexture_final env name ctx out st)
    as (_ & [(H & _)|(n & _ & _ & Hs & _)]); congruence.
Qed.

Lemma impl_is_shader oe env name out st :
  impl_is i oe st -> impl_is i oe (final (CreatePixelShader env name out) st).
Proof.
  unfold impl_is. intros Hi.
  destruct (CreatePixelShader_final env name out st)
    as (_ & [(H & _)|(n & _ & _ & Hs & _)]); congruence.
Qed.

Lemma impl_is_CreateEffect env info ctx st :
  this st = i -> this (final (CreateEffect env info ctx) st) = i.
Proof.
  intros H.
  refine (CreateEffect_kept (impl_is i) _ _ _ _ _ _ env info ctx st H);
    unfold impl_is.
  - done.
  - congruence.
  - done.
  - done.
  - intros. by apply (impl_is_texture None).
  - congruence.
Qed.

Lemma impl_is_CreateDGSLEffect env (info : DGSLEffectInfo) ctx st :
  this st = i -> this (final (CreateDGSLEffect env info ctx) st) = i.
Proof.
  intros H.
  refine (CreateDGSLEffect_kept (impl_is i) _ _ _ _ _ _ _ env info ctx st H);
    unfold impl_is.
  - done.
  - congruence.
  - done.
  - done.
  - intros. by apply (impl_is_texture None).
  - intros. by apply (impl_is_shader None).
  - congruence.
Qed.

End Unshared.

(** ** The effects handed out earlier *)

Section EffectsKept.

Variable h : list DGSLEffect.

Lemma effects_kept_weaken e st :
  effects_kept h (Some e) st -> effects_kept h None st.
Proof. intros [H _]. by split. Qed.

Lemma effects_kept_same oe st st' :
  this st' = this st ->
  effects (world st') = effects (world st) ->
  next_object (world st') = next_object (world st) ->
  effects_kept h oe st -> effects_kept h oe st'.
Proof. unfold effects_kept. by intros _ -> _. Qed.

Lemma effects_kept_call e c st :
  effects_kept h (Some e) st -> effects_kept h (Some e) (final (call e c) st).
Proof.
  intros [H Hb]. split; [|exact Hb].
  unfold call, modify_world, final. simpl.
  rewrite take_alter. specialize (Hb e eq_refl).
  destruct (decide (e < length h)%nat); [lia|exact H].
Qed.

Lemma effects_kept_new dev ps st :
  effects_kept h None st ->
  effects_kept h (Some (length (effects (world st))))
    (final (make_shared dev ps) st).
Proof.
  intros [H _].
  assert (Hlen : (length h <= length (effects (world st)))%nat).
  { rewrite <- H at 1. rewrite length_take. lia. }
  split.
  - unfold make_shared, final. simpl. by rewrite take_app_le.
  - by intros e [= <-].
Qed.

Lemma effects_kept_texture oe env name ctx out st :
  effects_kept h oe st ->
  effects_kept h oe (final (CreateTexture env name ctx out) st).
Proof.
  unfold effects_kept.
  by destruct (CreateTexture_final env name ctx out st) as (-> & _).
Qed.

Lemma effects_kept_shader oe env name out st :
  effects_kept h oe st ->
  effects_kept h oe (final (CreatePixelShader env name out) st).
Proof.
  unfold effects_kept.
  by destruct (CreatePixelShader_final env name out st) as (-> & _).
Qed.

Lemma effects_kept_insert e k st :
  effects_kept h (Some e) st ->
  effects_kept h None (final (lock_guard (cache_insert EffectCache k e)) st).
Proof.
  intros [H _]. unfold final. rewrite insert_run. by split.
Qed.

Lemma effects_kept_serve env q st :
  effects_kept h None st -> effects_kept h None (serve env st q).
Proof.
  intros H. destruct q as [info ctx|info ctx|name ctx out|name out| |enabled];
    simpl.
  - refine (CreateEffect_kept (effects_kept h) _ _ _ _ _ _ env info ctx st H).
    + apply effects_kept_weaken.
    + apply effects_kept_same.
    + apply effects_kept_call.
    + apply effects_kept_new.
    + intros. by apply effects_kept_texture.
    + intros. by apply effects_kept_insert.
  - refine (CreateDGSLEffect_kept (effects_kept h) _ _ _ _ _ _ _
              env info ctx st H).
    + apply effects_kept_weaken.
    + apply effects_kept_same.
    + apply effects_kept_call.
    + apply effects_kept_new.
    + intros. by apply effects_kept_texture.
    + intros. by apply effects_kept_shader.
    + intros. by apply effects_kept_insert.
  - by apply effects_kept_texture.
  - by apply effects_kept_shader.
  - exact H.
  - exact H.
Qed.

End EffectsKept.

(** ** How the effect methods fail *)

(** X1: [CreateEffect] never ends the process and never throws "invalid
    arguments": it returns, or it throws a failure code, and this only
    if the description names a texture; a request that names no texture
    always returns. *)
Theorem CreateEffect_failure env (info : EffectInfo) ctx st :
  let r := outcome (CreateEffect env info ctx) st in
  r <> Aborts /\
  (forall e, r = Throws e ->
     nonempty (texture info) = true /\
     exists hr, e = failed_hresult hr /\ FAILED hr = true) /\
  (nonempty (texture info) = false -> exists e, r = Returns e).
Proof.
  intros r. pose proof (CreateEffect_ends env info ctx st) as H.
  fold r in H. destruct r as [e|[|hr]|]; cbv [fails_only] in H;
    try contradiction; try discriminate.
  - split; [discriminate|]. split; [discriminate|]. by exists e.
  - destruct H as (Ht & Hhr). split; [discriminate|]. split.
    + intros e [= <-]. split; [exact Ht|]. by exists hr.
    + congruence.
Qed.

Lemma shader_variant_aborts env dev (info : DGSLEffectInfo) st :
  root_overflows env dev (pixelShader info) = true ->
  outcome (shader_variant env dev info) st = Aborts.
Proof.
  unfold root_overflows. intros H.
  apply andb_prop in H. destruct H as (Hp & H).
  rewrite root_cut_spec, root_copied_spec in H.
  unfold shader_variant. rewrite Hp. simpl negb. cbv iota.
  unfold outcome. rewrite bind_run. unfold outcome, final.
  rewrite shader_root_run.
  destruct (length _ <? MAX_PATH)%nat eqn:Hfit; [|reflexivity].
  apply Nat.ltb_lt in Hfit. apply Nat.leb_gt in Hfit.
  rewrite Hfit, orb_false_l in H.
  apply andb_prop in H. destruct H as (H & Hcat).
  apply andb_prop in H. destruct H as (Hb & Hlevel).
  apply negb_true_iff in Hb. unfold builtin_root in Hb.
  apply orb_false_elim in Hb. destruct Hb as (Hb & E3).
  apply orb_false_elim in Hb. destruct Hb as (E1 & E2).
  simpl fst. simpl snd. cbv iota. rewrite E1, E2, E3, Hlevel.
  rewrite bind_run. unfold wcscat_s, crt, outcome, final.
  apply Nat.leb_le in Hcat.
  assert ((length (spec_root (wstr (pixelShader info))) + length (L ".cso")
           <? MAX_PATH)%nat = false) as ->; [|reflexivity].
  apply Nat.ltb_ge. exact Hcat.
Qed.

Lemma CreateDGSLEffect_overflow env (info : DGSLEffectInfo) ctx st :
  effect_miss info st ->
  root_overflows env (device (this st)) (pixelShader info) = true ->
  outcome (CreateDGSLEffect env info ctx) st = Aborts.
Proof.
  intros Hmiss Hover. unfold outcome, CreateDGSLEffect.
  rewrite bind_run. unfold outcome, final. rewrite after_lookup_run.
  simpl fst. simpl snd. cbv iota beta.
  rewrite bind_gets.
  destruct (after_lookup_state info st) as (Hthis & _).
  rewrite Hthis.
  remember (if nonempty (name info) then _ else _) as it eqn:Hit.
  assert (Hmiss' : mSharing (this st) = false \/ it = None).
  { subst it. destruct Hmiss as [?|[->|?]]; auto. right. by destruct (nonempty _). }
  destruct (mSharing (this st)), it as [cached|];
    try (destruct Hmiss'; discriminate).
  all: rewrite bind_gets, Hthis, bind_run.
  all: by rewrite (shader_variant_aborts env _ info _ Hover).
Qed.

Lemma root_overflows_short env dev (p : option (list N)) :
  (length (wstr p) + 4 < MAX_PATH)%nat -> root_overflows env dev p = false.
Proof.
  intros Hlen. unfold root_overflows.
  assert (H1 : (length (root_copied (wstr p)) <= length (wstr p))%nat).
  { unfold root_copied. destruct (wcsrchr _ _); [rewrite length_drop|]; lia. }
  assert (H2 : (length (root_cut (wstr p)) <= length (root_copied (wstr p)))%nat).
  { unfold root_cut. destruct (wcschr _ _); [rewrite length_take|]; lia. }
  assert ((MAX_PATH <=? length (root_copied (wstr p)))%nat = false) as ->
    by (apply Nat.leb_gt; lia).
  assert ((MAX_PATH <=? length (root_cut (wstr p)) + 4)%nat = false) as ->
    by (apply Nat.leb_gt; lia).
  by rewrite andb_false_r, orb_false_l, andb_false_r.
Qed.

(** X2: [CreateDGSLEffect] never throws "invalid arguments": what it
    throws is a failure code, and only if the description names a file
    to load (a texture, one of the seven extra textures, or a pixel
    shader that is not built in); and it returns whenever there is no
    file to load and the pixel shader name fits the buffer. *)
Theorem CreateDGSLEffect_failure env (info : DGSLEffectInfo) ctx st :
  let r := outcome (CreateDGSLEffect env info ctx) st in
  (forall e, r = Throws e ->
     dgsl_loads info = true /\
     exists hr, e = failed_hresult hr /\ FAILED hr = true) /\
  (dgsl_loads info = false ->
   root_overflows env (device (this st)) (pixelShader info) = false ->
   exists e, r = Returns e).
Proof.
  intros r. pose proof (CreateDGSLEffect_ends env info ctx st) as H.
  fold r in H. destruct r as [e|[|hr]|]; cbv [fails_only] in H;
    try contradiction.
  - split; [discriminate|]. by exists e.
  - destruct H as (Ht & Hhr). split.
    + intros e [= <-]. split; [exact Ht|]. by exists hr.
    + congruence.
  - split; [discriminate|]. congruence.
Qed.

(** X3: [CreateDGSLEffect] ends the process, through the invalid
    parameter handler of [wcscpy_s] or [wcscat_s], exactly when the
    effect is not taken from the cache and the pixel shader name does
    not fit [root[MAX_PATH]]; a name of fewer than [MAX_PATH - 4]
    characters always fits. *)
Theorem CreateDGSLEffect_aborts env (info : DGSLEffectInfo) ctx st :
  (outcome (CreateDGSLEffect env info ctx) st = Aborts <->
   effect_miss info st /\
   root_overflows env (device (this st)) (pixelShader info) = true) /\
  ((length (wstr (pixelShader info)) + 4 < MAX_PATH)%nat ->
   outcome (CreateDGSLEffect env info ctx) st <> Aborts).
Proof.
  pose proof (CreateDGSLEffect_ends env info ctx st) as H.
  assert (Hiff : outcome (CreateDGSLEffect env info ctx) st = Aborts ->
                 effect_miss info st /\
                 root_overflows env (device (this st)) (pixelShader info) = true).
  { intros Hr. rewrite Hr in H. split; [|exact H].
    destruct (hit_or_miss info st) as [(Hs & Hn & e & Hc)|Hmiss]; [|exact Hmiss].
    unfold outcome in Hr.
    by rewrite (CreateDGSLEffect_hit env info ctx st e Hs Hn Hc) in Hr. }
  split.
  - split; [exact Hiff|]. intros (Hmiss & Hover).
    by apply CreateDGSLEffect_overflow.
  - intros Hlen Hr. destruct (Hiff Hr) as (_ & Hover).
    by rewrite (root_overflows_short env _ _ Hlen) in Hover.
Qed.

(** ** The state after any sequence of calls *)

(** X4: after any sequence of calls on a new implementation object,
    however each of them ended, no cache has an entry under the empty
    name, every cached effect is an effect that was allocated, every
    cached texture or shader is an object that was created, and no
    object is cached twice. *)
Theorem caches_hold_valid_handles env dev w qs :
  cache_ok (serve_all env qs (mkState (Impl_ctor dev) w)).
Proof. apply serve_all_cache_ok, Impl_ctor_cache_ok. Qed.

(** X5: what a request that misses the cache returns is not an object
    the cache holds: after any sequence of calls on a new implementation
    object, a texture or shader that is loaded, and an effect that is
    constructed, is cached under no name at all, also when sharing is
    off and the name has an entry. *)
Theorem miss_returns_uncached_object env dev w qs n ctx (info : EffectInfo) :
  let st := serve_all env qs (mkState (Impl_ctor dev) w) in
  (mSharing (this st) = false \/ mTextureCache (this st) !! n = None ->
   forall srv k,
     outcome (CreateTexture env (Some n) ctx ValidOut) st = Returns srv ->
     mTextureCache (this st) !! k <> Some srv /\
     mShaderCache (this st) !! k <> Some srv) /\
  (mSharing (this st) = false \/ mShaderCache (this st) !! n = None ->
   forall ps k,
     outcome (CreatePixelShader env (Some n) ValidOut) st = Returns ps ->
     mTextureCache (this st) !! k <> Some ps /\
     mShaderCache (this st) !! k <> Some ps) /\
  (effect_miss info st ->
   forall e k,
     outcome (CreateEffect env info ctx) st = Returns e ->
     mEffectCache (this st) !! k <> Some e).
Proof.
  intros st.
  assert (Hok : cache_ok st) by apply serve_all_cache_ok, Impl_ctor_cache_ok.
  split; [|split].
  - intros Hmiss srv k Hr.
    destruct (CreateTexture_miss env n ctx st Hmiss srv Hr) as (-> & _).
    split; intros Hk.
    + pose proof (ok_textures st Hok k _ Hk). lia.
    + pose proof (ok_shaders st Hok k _ Hk). lia.
  - intros Hmiss ps k Hr.
    destruct (CreatePixelShader_miss env n st Hmiss ps Hr) as (-> & _).
    split; intros Hk.
    + pose proof (ok_textures st Hok k _ Hk). lia.
    + pose proof (ok_shaders st Hok k _ Hk). lia.
  - intros Hmiss e k Hr.
    destruct (CreateEffect_miss env info ctx st Hmiss) as (_ & log & _ & H).
    rewrite Hr in H. destruct H as (-> & _).
    intros Hk. pose proof (ok_effects st Hok k _ Hk). lia.
Qed.

(** X6: with sharing off, none of the four methods that create
    resources changes the implementation object, however it ends: no
    cache gets an entry, and none loses one. *)
Theorem unshared_requests_leave_caches env (info : EffectInfo)
  (dinfo : DGSLEffectInfo) name ctx out st :
  mSharing (this st) = false ->
  this (final (CreateEffect env info ctx) st) = this st /\
  this (final (CreateDGSLEffect env dinfo ctx) st) = this st /\
  this (final (CreateTexture env name ctx out) st) = this st /\
  this (final (CreatePixelShader env name out) st) = this st.
Proof.
  intros Hs. split; [|split; [|split]].
  - by apply impl_is_CreateEffect.
  - by apply impl_is_CreateDGSLEffect.
  - by apply (impl_is_texture (this st) Hs None).
  - by apply (impl_is_shader (this st) Hs None).
Qed.

Lemma effects_kept_serve_all h env qs st :
  effects_kept h None st -> effects_kept h None (serve_all env qs st).
Proof.
  revert st. induction qs as [|q qs IH]; intros st H; [exact H|].
  apply IH. by apply effects_kept_serve.
Qed.

(** X7: no call ever touches an effect that existed before it: after any
    sequence of calls the effects there were are where they were, with
    the calls that had been made on them and no other; what is new comes
    after them. *)
Theorem effects_never_modified env qs st :
  exists new,
    effects (world (serve_all env qs st)) = effects (world st) ++ new.
Proof.
  destruct (effects_kept_serve_all (effects (world st)) env qs st) as (H & _).
  { split; [by rewrite firstn_all|done]. }
  exists (drop (length (effects (world st)))
            (effects (world (serve_all env qs st)))).
  etransitivity; [symmetry; apply (take_drop (length (effects (world st))))|].
  by rewrite H.
Qed.

(** ** Requests after the caches were released *)

(** X8: [ReleaseCache] makes the factory forget: the next request for a
    texture calls a loader and the next request for a shader reads its
    file, whatever the name and whether or not it had been cached, and
    what they return is a new object; and the next effect asked for is
    constructed anew. *)
Theorem released_cache_loads_again env n ctx (info : EffectInfo) st :
  let st1 := final ReleaseCache st in
  (exists evs hr,
     trace (world (final (CreateTexture env (Some n) ctx ValidOut) st1)) =
       trace (world st1) ++ evs /\
     (List.filter is_loader_call evs = [EvDDS n hr] \/
      List.filter is_loader_call evs = [EvWIC ctx n hr]) /\
     outcome (CreateTexture env (Some n) ctx ValidOut) st1 =
       (if FAILED hr then Throws (failed_hresult hr)
        else Returns (next_object (world st)))) /\
  (exists evs hr,
     trace (world (final (CreatePixelShader env (Some n) ValidOut) st1)) =
       trace (world st1) ++ evs /\
     In (EvReadEntireFile n hr) evs /\
     forall ps,
       outcome (CreatePixelShader env (Some n) ValidOut) st1 = Returns ps ->
       ps = next_object (world st)) /\
  (exists new,
     effects (world (final (CreateEffect env info ctx) st1)) =
       effects (world st) ++ [new] /\
     forall e, outcome (CreateEffect env info ctx) st1 = Returns e ->
               e = length (effects (world st))).
Proof.
  intros st1.
  assert (Hst1 : mEffectCache (this st1) = ∅ /\ mTextureCache (this st1) = ∅ /\
                 mShaderCache (this st1) = ∅ /\
                 effects (world st1) = effects (world st) /\
                 next_object (world st1) = next_object (world st)).
  { subst st1. unfold ReleaseCache. unfold_monad. simpl. done. }
  destruct Hst1 as (He & Ht & Hs & Heff & Hobj).
  split; [|split].
  - destruct (CreateTexture_miss_outcome env n ctx st1) as (evs & hr & H1 & H2 & H3).
    { right. by rewrite Ht. }
    exists evs, hr. by rewrite <- Hobj.
  - destruct (CreatePixelShader_miss_outcome env n st1) as (evs & hr & H1 & H2).
    { right. by rewrite Hs. }
    exists evs, hr. split; [exact H1|].
    assert (Hin : forall ev, In ev (List.filter is_shader_call evs) -> In ev evs).
    { intros ev Hev. by apply filter_In in Hev as (? & _). }
    destruct H2 as [(_ & Hf & Hr)|(_ & hr' & Hf & Hr)].
    + split; [apply Hin; rewrite Hf; by left|]. intros ps. by rewrite Hr.
    + split; [apply Hin; rewrite Hf; by left|]. intros ps. rewrite Hr.
      destruct (FAILED hr'); [done|]. intros [= ?]. congruence.
  - destruct (CreateEffect_miss env info ctx st1) as (_ & log & Hh & H).
    { right. right. by rewrite He. }
    rewrite Heff in Hh. eexists. split; [exact Hh|].
    intros e Hr. rewrite Hr in H. destruct H as (-> & _). by rewrite Heff.
Qed.

(** ** What a request leaves alone *)

(** X9: a request changes no cache entry but that of its own name: a
    texture request leaves the textures cached under every other name,
    and the effect and shader caches; a shader request the shaders under
    every other name, and the effect and texture caches; and the two
    effect methods leave the effects cached under every other name. *)
Theorem requests_keep_other_names env k n ctx out (info : EffectInfo)
  (dinfo : DGSLEffectInfo) st :
  (k <> n ->
   let st' := final (CreateTexture env (Some n) ctx out) st in
   mTextureCache (this st') !! k = mTextureCache (this st) !! k /\
   mEffectCache (this st') = mEffectCache (this st) /\
   mShaderCache (this st') = mShaderCache (this st)) /\
  (k <> n ->
   let st' := final (CreatePixelShader env (Some n) out) st in
   mShaderCache (this st') !! k = mShaderCache (this st) !! k /\
   mEffectCache (this st') = mEffectCache (this st) /\
   mTextureCache (this st') = mTextureCache (this st)) /\
  (k <> wstr (name info) ->
   mEffectCache (this (final (CreateEffect env info ctx) st)) !! k =
   mEffectCache (this st) !! k) /\
  (k <> wstr (name dinfo) ->
   mEffectCache (this (final (CreateDGSLEffect env dinfo ctx) st)) !! k =
   mEffectCache (this st) !! k).
Proof.
  split; [|split; [|split]].
  - intros Hk st'. subst st'.
    destruct (CreateTexture_frame env (Some n) ctx out st) as (_ & He & Hs).
    split; [|by split].
    destruct (CreateTexture_final env (Some n) ctx out st)
      as (_ & [(-> & _)|(n' & [= <-] & _ & _ & _ & -> & _)]); [done|].
    simpl. by rewrite lookup_insert_ne.
  - intros Hk st'. subst st'.
    destruct (CreatePixelShader_frame env (Some n) out st) as (_ & He & Ht).
    split; [|by split].
    destruct (CreatePixelShader_final env (Some n) out st)
      as (_ & [(-> & _)|(n' & [= <-] & _ & _ & _ & -> & _)]); [done|].
    simpl. by rewrite lookup_insert_ne.
  - intros Hk.
    destruct (hit_or_miss info st) as [(Hs & Hn & e & Hc)|Hmiss].
    + unfold final. by rewrite (CreateEffect_hit env info ctx st e Hs Hn Hc).
    + destruct (CreateEffect_miss env info ctx st Hmiss) as (_ & log & _ & H).
      destruct (outcome _ st) as [e|ex|]; [|by rewrite H..].
      destruct H as (_ & _ & ->).
      destruct (_ && _); [by rewrite lookup_insert_ne|done].
  - intros Hk.
    destruct (hit_or_miss dinfo st) as [(Hs & Hn & e & Hc)|Hmiss].
    + unfold final. by rewrite (CreateDGSLEffect_hit env dinfo ctx st e Hs Hn Hc).
    + destruct (CreateDGSLEffect_miss env dinfo ctx st Hmiss) as (_ & H).
      destruct (outcome _ st) as [e|ex|]; [|by rewrite H..].
      destruct H as (_ & _ & ->).
      destruct (_ && _); [by rewrite lookup_insert_ne|done].
Qed.

(** X10: no method that creates a resource ever removes or replaces a
    cache entry, in any of the three caches, or changes the device or
    the sharing flag: whatever is cached under a name stays cached under
    it, also when the same name is loaded again with sharing off. *)
Theorem cached_entries_are_kept env (info : EffectInfo) (dinfo : DGSLEffectInfo)
  name ctx out st c k v :
  cache_of c (this st) !! k = Some v ->
  let kept st' :=
    cache_of c (this st') !! k = Some v /\
    device (this st') = device (this st) /\
    mSharing (this st') = mSharing (this st) in
  kept (final (CreateEffect env info ctx) st) /\
  kept (final (CreateDGSLEffect env dinfo ctx) st) /\
  kept (final (CreateTexture env name ctx out) st) /\
  kept (final (CreatePixelShader env name out) st).
Proof.
  intros Hk kept. subst kept. cbv beta.
  pose proof (CreateEffect_extends env info ctx st) as [d1 s1 c1 _ _].
  pose proof (CreateDGSLEffect_extends env dinfo ctx st) as [d2 s2 c2 _ _].
  pose proof (CreateTexture_extends env name ctx out st) as [d3 s3 c3 _ _].
  pose proof (CreatePixelShader_extends env name out st) as [d4 s4 c4 _ _].
  auto 10.
Qed.

(** ** The mutex and the loaders *)

(** X11: on a cache miss the texture loader runs under the mutex of the
    implementation object exactly when it is the WIC loader and it is
    given a device context; the DDS loader, and the WIC loader without a
    device context, run with the mutex free. *)
Theorem loader_locked_with_context env n ctx st :
  mSharing (this st) = false \/ mTextureCache (this st) !! n = None ->
  exists evs hr,
    trace (world (final (CreateTexture env (Some n) ctx ValidOut) st)) =
      trace (world st) ++ evs /\
    List.filter is_loader_call evs =
      [if phone_app env || (_wcsicmp (_wsplitpath_s n) (L ".dds") =? 0)
       then EvDDS n hr else EvWIC ctx n hr] /\
    List.filter is_loader_call (under_lock false evs) =
      (if phone_app env || (_wcsicmp (_wsplitpath_s n) (L ".dds") =? 0)
       then []
       else match ctx with
            | Some _ => [EvWIC ctx n hr]
            | None => []
            end).
Proof.
  intros Hmiss. unfold CreateTexture. run_method.
  all: try (destruct Hmiss; congruence).
  all: assoc_traces; do 2 eexists; (split; [reflexivity|]); split; reflexivity.
Qed.

(** ** Calls through the public class *)

Lemma deref_run {A} (f : DGSLEffectFactory) (m : M A) g impl :
  impls (process g) !! pImpl f = Some impl ->
  deref f m g =
  Some (outcome m (mkState impl (heap g)),
        mkProgram
          (mkProcess (instancePool (process g))
             (<[pImpl f := this (final m (mkState impl (heap g)))]>
                (impls (process g))))
          (world (final m (mkState impl (heap g))))).
Proof. intros H. unfold deref. by rewrite H. Qed.

Lemma state_eta st : mkState (this st) (world st) = st.
Proof. by destruct st. Qed.

Lemma CreateTexture_then_cached env n ctx st srv :
  mSharing (this st) = true -> n <> [] ->
  outcome (CreateTexture env (Some n) ctx ValidOut) st = Returns srv ->
  mTextureCache (this (final (CreateTexture env (Some n) ctx ValidOut) st)) !! n
  = Some srv.
Proof.
  intros Hs Hn Hr. destruct (mTextureCache (this st) !! n) as [v|] eqn:Hc.
  - unfold outcome, final in *.
    rewrite (CreateTexture_hit env n ctx st v Hs Hc) in *. simpl in *. congruence.
  - destruct (CreateTexture_miss env n ctx st (or_intror Hc) srv Hr)
      as (_ & _ & -> & _).
    rewrite Hs. destruct n; [done|]. simpl. by rewrite lookup_insert_eq.
Qed.

Lemma CreateEffect_then_cached env (info : EffectInfo) ctx st e :
  mSharing (this st) = true -> nonempty (name info) = true ->
  outcome (CreateEffect env info ctx) st = Returns e ->
  mEffectCache (this (final (CreateEffect env info ctx) st)) !! wstr (name info)
  = Some e.
Proof.
  intros Hs Hn Hr.
  destruct (hit_or_miss info st) as [(_ & _ & v & Hc)|Hmiss].
  - unfold outcome, final in *.
    rewrite (CreateEffect_hit env info ctx st v Hs Hn Hc) in *.
    simpl in *. congruence.
  - destruct (CreateEffect_miss env info ctx st Hmiss) as (_ & log & _ & H).
    rewrite Hr in H. destruct H as (_ & _ & ->).
    rewrite Hs, Hn. simpl. by rewrite lookup_insert_eq.
Qed.

Lemma CreateDGSLEffect_then_cached env (info : DGSLEffectInfo) ctx st e :
  mSharing (this st) = true -> nonempty (name info) = true ->
  outcome (CreateDGSLEffect env info ctx) st = Returns e ->
  mEffectCache (this (final (CreateDGSLEffect env info ctx) st))
    !! wstr (name info) = Some e.
Proof.
  intros Hs Hn Hr.
  destruct (hit_or_miss info st) as [(_ & _ & v & Hc)|Hmiss].
  - unfold outcome, final in *.
    rewrite (CreateDGSLEffect_hit env info ctx st v Hs Hn Hc) in *.
    simpl in *. congruence.
  - destruct (CreateDGSLEffect_miss env info ctx st Hmiss) as (_ & H).
    rewrite Hr in H. destruct H as (_ & _ & ->).
    rewrite Hs, Hn. simpl. by rewrite lookup_insert_eq.
Qed.

(** X12: factories that hold the same implementation object share its
    caches: with sharing on, a texture loaded through one of them is
    returned by the other for the same name, with a reference added and
    nothing loaded, and an effect created through one is returned by the
    other, no effect being constructed; neither call changes an
    implementation object. *)
Theorem factories_share_one_cache env f1 f2 g impl n ctx ctx'
  (info : EffectInfo) :
  pImpl f1 = pImpl f2 ->
  impls (process g) !! pImpl f1 = Some impl ->
  mSharing impl = true ->
  (n <> [] ->
   forall srv g1,
     Factory.CreateTexture env f1 (Some n) ctx ValidOut g
       = Some (Returns srv, g1) ->
     exists g2,
       Factory.CreateTexture env f2 (Some n) ctx' ValidOut g1
         = Some (Returns srv, g2) /\
       process g2 = process g1 /\
       trace (heap g2) =
         trace (heap g1) ++ [EvFind TextureCache n; EvAddRef srv]) /\
  (nonempty (name info) = true ->
   forall e g1,
     Factory.CreateEffect env f1 info ctx g = Some (Returns e, g1) ->
     exists g2,
       Factory.CreateEffect env f2 info ctx' g1 = Some (Returns e, g2) /\
       process g2 = process g1 /\
       effects (heap g2) = effects (heap g1)).
Proof.
  intros Hf Himpl Hs.
  pose proof (lookup_lt_Some _ _ _ Himpl) as Hlen.
  split.
  - intros Hn srv g1. unfold Factory.CreateTexture.
    rewrite (deref_run f1 _ g impl Himpl).
    set (st0 := mkState impl (heap g)).
    set (m := CreateTexture env (Some n) ctx ValidOut).
    intros [= Hr <-].
    pose proof (CreateTexture_then_cached env n ctx st0 srv Hs Hn Hr) as Hc.
    pose proof (ext_sharing _ _ (CreateTexture_extends env (Some n) ctx ValidOut st0))
      as Hs'.
    fold m in Hc, Hs'. simpl in Hs'. rewrite Hs in Hs'.
    remember (final m st0) as st1 eqn:Hst1. clear Hst1.
    rewrite (deref_run f2 _ _ (this st1)).
    2:{ simpl. rewrite <- Hf. by apply list_lookup_insert_eq. }
    simpl. rewrite state_eta. unfold outcome, final.
    rewrite (CreateTexture_hit env n ctx' st1 srv Hs' Hc). simpl.
    eexists. split; [reflexivity|]. simpl. split; [|reflexivity].
    by rewrite <- Hf, list_insert_insert_eq.
  - intros Hn e g1. unfold Factory.CreateEffect.
    rewrite (deref_run f1 _ g impl Himpl).
    set (st0 := mkState impl (heap g)).
    set (m := CreateEffect env info ctx).
    intros [= Hr <-].
    pose proof (CreateEffect_then_cached env info ctx st0 e Hs Hn Hr) as Hc.
    pose proof (ext_sharing _ _ (CreateEffect_extends env info ctx st0)) as Hs'.
    fold m in Hc, Hs'. simpl in Hs'. rewrite Hs in Hs'.
    remember (final m st0) as st1 eqn:Hst1. clear Hst1.
    rewrite (deref_run f2 _ _ (this st1)).
    2:{ simpl. rewrite <- Hf. by apply list_lookup_insert_eq. }
    simpl. rewrite state_eta. unfold outcome, final.
    rewrite (CreateEffect_hit env info ctx' st1 e Hs' Hn Hc). simpl.
    eexists. split; [reflexivity|]. simpl. split; [|reflexivity].
    by rewrite <- Hf, list_insert_insert_eq.
Qed.

(** X13: the caches and the sharing flag belong to the implementation
    object, not to the factory that is called: once [ReleaseCache] was
    called through one factory, a texture asked for through another
    factory that holds the same implementation object is loaded anew,
    cached before or not; and once [SetSharing( false )] was called
    through one factory, a texture asked for through the other is loaded
    anew as well, and is not entered in the cache. *)
Theorem factory_settings_are_shared env f1 f2 g impl n ctx :
  pImpl f1 = pImpl f2 ->
  impls (process g) !! pImpl f1 = Some impl ->
  (exists g1,
     Factory.ReleaseCache f1 g = Some (Returns tt, g1) /\
     exists r g2 evs hr,
       Factory.CreateTexture env f2 (Some n) ctx ValidOut g1 = Some (r, g2) /\
       trace (heap g2) = trace (heap g1) ++ evs /\
       (List.filter is_loader_call evs = [EvDDS n hr] \/
        List.filter is_loader_call evs = [EvWIC ctx n hr]) /\
       r = (if FAILED hr then Throws (failed_hresult hr)
            else Returns (next_object (heap g)))) /\
  (exists g1,
     Factory.SetSharing f1 false g = Some (Returns tt, g1) /\
     exists r g2 evs hr,
       Factory.CreateTexture env f2 (Some n) ctx ValidOut g1 = Some (r, g2) /\
       process g2 = process g1 /\
       trace (heap g2) = trace (heap g1) ++ evs /\
       (List.filter is_loader_call evs = [EvDDS n hr] \/
        List.filter is_loader_call evs = [EvWIC ctx n hr]) /\
       r = (if FAILED hr then Throws (failed_hresult hr)
            else Returns (next_object (heap g)))).
Proof.
  intros Hf Himpl.
  pose proof (lookup_lt_Some _ _ _ Himpl) as Hlen.
  set (st0 := mkState impl (heap g)).
  split.
  - unfold Factory.ReleaseCache, Factory.CreateTexture.
    rewrite (deref_run f1 _ g impl Himpl). fold st0.
    assert (Ho : outcome ReleaseCache st0 = Returns tt) by done.
    rewrite Ho. clear Ho.
    remember (final ReleaseCache st0) as st1 eqn:E.
    assert (Hst1 : mTextureCache (this st1) = ∅ /\
                   next_object (world st1) = next_object (heap g))
      by (by subst st1).
    clear E. destruct Hst1 as (Hc & Hobj).
    eexists. split; [reflexivity|].
    rewrite (deref_run f2 _ _ (this st1)).
    2:{ simpl. rewrite <- Hf. by apply list_lookup_insert_eq. }
    simpl. rewrite state_eta.
    destruct (CreateTexture_miss_outcome env n ctx st1)
      as (evs & hr & Ht & Hl & Hr).
    { right. by rewrite Hc. }
    do 2 eexists. exists evs, hr. split; [reflexivity|]. simpl.
    split; [exact Ht|]. split; [exact Hl|]. by rewrite Hr, Hobj.
  - unfold Factory.SetSharing, Factory.CreateTexture.
    rewrite (deref_run f1 _ g impl Himpl). fold st0.
    assert (Ho : outcome (SetSharing false) st0 = Returns tt) by done.
    rewrite Ho. clear Ho.
    remember (final (SetSharing false) st0) as st1 eqn:E.
    assert (Hst1 : mSharing (this st1) = false /\
                   next_object (world st1) = next_object (heap g))
      by (by subst st1).
    clear E. destruct Hst1 as (Hs & Hobj).
    eexists. split; [reflexivity|].
    rewrite (deref_run f2 _ _ (this st1)).
    2:{ simpl. rewrite <- Hf. by apply list_lookup_insert_eq. }
    simpl. rewrite state_eta.
    destruct (CreateTexture_miss_outcome env n ctx st1 (or_introl Hs))
      as (evs & hr & Ht & Hl & Hr).
    pose proof (impl_is_texture (this st1) Hs None env (Some n) ctx ValidOut
                  st1 eq_refl) as Hi.
    unfold impl_is in Hi.
    do 2 eexists. exists evs, hr. split; [reflexivity|]. simpl.
    split; [by rewrite Hi, <- Hf, list_insert_insert_eq|].
    split; [exact Ht|]. split; [exact Hl|]. by rewrite Hr, Hobj.
Qed.

(** ** Effects created by either method *)

(** X14: [CreateEffect] and [CreateDGSLEffect] share the one effect
    cache: with sharing on, an effect either of them has returned for a
    name is returned by the other for that name, whatever else the
    description says, and no effect is constructed. *)
Theorem effect_methods_share_names env (info : EffectInfo)
  (dinfo : DGSLEffectInfo) ctx ctx' st e :
  mSharing (this st) = true ->
  nonempty (name info) = true ->
  name dinfo = name info ->
  (outcome (CreateEffect env info ctx) st = Returns e ->
   let st' := final (CreateEffect env info ctx) st in
   CreateDGSLEffect env dinfo ctx' st' =
   (Returns e, traced [EvFind EffectCache (wstr (name info))] st')) /\
  (outcome (CreateDGSLEffect env dinfo ctx) st = Returns e ->
   let st' := final (CreateDGSLEffect env dinfo ctx) st in
   CreateEffect env info ctx' st' =
   (Returns e, traced [EvFind EffectCache (wstr (name info))] st')).
Proof.
  intros Hs Hn Hname. split.
  - intros Hr st'.
    pose proof (CreateEffect_then_cached env info ctx st e Hs Hn Hr) as Hc.
    pose proof (ext_sharing _ _ (CreateEffect_extends env info ctx st)) as Hs'.
    fold st' in Hc, Hs'. rewrite Hs in Hs'. rewrite <- Hname in *.
    by apply CreateDGSLEffect_hit.
  - intros Hr st'. rewrite <- Hname in Hn.
    pose proof (CreateDGSLEffect_then_cached env dinfo ctx st e Hs Hn Hr) as Hc.
    pose proof (ext_sharing _ _ (CreateDGSLEffect_extends env dinfo ctx st))
      as Hs'.
    fold st' in Hc, Hs'. rewrite Hs in Hs'. rewrite Hname in *.
    by apply CreateEffect_hit.
Qed.

(** ** The root of a pixel shader name *)

Lemma after_last_underscore_shape s : forall rest,
  (after_last_underscore s rest = rest /\ ~ In 95%N s) \/
  (exists pre, s = (pre ++ [95%N]) ++ after_last_underscore s rest) /\
  ~ In 95%N (after_last_underscore s rest).
Proof.
  induction s as [|c s IH]; intros rest; simpl; [left; tauto|].
  destruct (c =? 95)%N eqn:E.
  - apply N.eqb_eq in E. subst c. right.
    destruct (IH s) as [(-> & Hno)|((pre & Hpre) & Hno)].
    + split; [by exists []|exact Hno].
    + split; [|exact Hno]. exists (95%N :: pre). simpl. by rewrite <- Hpre.
  - apply N.eqb_neq in E.
    destruct (IH rest) as [(-> & Hno)|((pre & Hpre) & Hno)].
    + left. split; [reflexivity|]. intros [?|?]; [congruence|tauto].
    + right. split; [|exact Hno]. exists (c :: pre). simpl. by rewrite <- Hpre.
Qed.

Lemma before_first_period_shape t :
  ~ In 46%N (before_first_period t) /\
  exists post,
    t = before_first_period t ++ post /\
    (post = [] \/ exists post', post = 46%N :: post').
Proof.
  induction t as [|c t (Hno & post & Ht & Hpost)]; simpl.
  - split; [tauto|]. exists []. auto.
  - destruct (c =? 46)%N eqn:E.
    + apply N.eqb_eq in E. subst c. split; [simpl; tauto|].
      exists (46%N :: t). split; [reflexivity|]. right. by exists t.
    + apply N.eqb_neq in E. split.
      * intros [?|?]; [congruence|tauto].
      * exists post. split; [simpl; by rewrite <- Ht|exact Hpost].
Qed.

(** X15: the root [CreateDGSLEffect] compares with the names of the
    built-in shaders is a piece of the pixel shader name that holds no
    underscore and no period: what comes before it is nothing or ends
    with an underscore, what comes after it is nothing or begins with a
    period and holds no underscore.  Computing it changes nothing, and
    succeeds for every name shorter than [MAX_PATH]. *)
Theorem shader_root_shape s st :
  final (shader_root s) st = st /\
  ((length s < MAX_PATH)%nat ->
   exists r, outcome (shader_root s) st = Returns r) /\
  forall r, outcome (shader_root s) st = Returns r ->
    ~ In 95%N r /\ ~ In 46%N r /\
    exists pre post,
      s = pre ++ r ++ post /\
      (pre = [] \/ exists pre', pre = pre' ++ [95%N]) /\
      (post = [] \/ exists post', post = 46%N :: post') /\
      ~ In 95%N post.
Proof.
  split; [apply shader_root_final|].
  unfold outcome. rewrite shader_root_run. simpl fst.
  set (tail := after_last_underscore s s).
  assert (Htail : (exists pre, s = pre ++ tail /\
                     (pre = [] \/ exists pre', pre = pre' ++ [95%N])) /\
                  ~ In 95%N tail).
  { destruct (after_last_underscore_shape s s) as [(Ht & Hno)|((pre & Hpre) & Hno)];
      fold tail in Ht || fold tail in Hpre, Hno.
    - rewrite Ht. split; [|exact Hno]. exists []. auto.
    - split; [|exact Hno]. exists (pre ++ [95%N]). split; [exact Hpre|].
      right. by exists pre. }
  destruct Htail as ((pre & Hs & Hpre) & Hno).
  split.
  - intros Hlen.
    assert ((length tail <? MAX_PATH)%nat = true) as ->; [|by eexists].
    apply Nat.ltb_lt. rewrite Hs, length_app in Hlen. lia.
  - intros r Hr. destruct (length tail <? MAX_PATH)%nat; [|discriminate].
    injection Hr as <-. unfold spec_root. fold tail.
    destruct (before_first_period_shape tail) as (Hdot & post & Ht & Hpost).
    assert (Hin : forall c, In c (before_first_period tail) \/ In c post ->
                            In c tail).
    { intros c Hc. rewrite Ht. apply in_or_app. exact Hc. }
    split; [intros Hc; apply Hno, Hin; by left|].
    split; [exact Hdot|].
    exists pre, post. split; [by rewrite <- Ht|].
    split; [exact Hpre|]. split; [exact Hpost|].
    intros Hc. apply Hno, Hin. by right.
Qed.

(** ** What the methods return *)

(** X16: no method returns a dangling handle: after any sequence of
    calls on a new implementation object, an effect that is returned,
    taken from the cache or new, is one of the effects allocated, and a
    texture or shader that is returned is an object that was created. *)
Theorem returned_handles_are_valid env dev w qs (info : EffectInfo)
  (dinfo : DGSLEffectInfo) name ctx out :
  let st := serve_all env qs (mkState (Impl_ctor dev) w) in
  (forall e, outcome (CreateEffect env info ctx) st = Returns e ->
     (e < length (effects (world (final (CreateEffect env info ctx) st))))%nat) /\
  (forall e, outcome (CreateDGSLEffect env dinfo ctx) st = Returns e ->
     (e < length
            (effects (world (final (CreateDGSLEffect env dinfo ctx) st))))%nat) /\
  (forall srv, outcome (CreateTexture env name ctx out) st = Returns srv ->
     (srv < next_object
              (world (final (CreateTexture env name ctx out) st)))%nat) /\
  (forall ps, outcome (CreatePixelShader env name out) st = Returns ps ->
     (ps < next_object
             (world (final (CreatePixelShader env name out) st)))%nat).
Proof.
  intros st.
  assert (Hok : cache_ok st) by apply serve_all_cache_ok, Impl_ctor_cache_ok.
  split; [|split; [|split]].
  - intros e Hr.
    destruct (hit_or_miss info st) as [(Hs & Hn & v & Hc)|Hmiss].
    + unfold outcome, final in *.
      rewrite (CreateEffect_hit env info ctx st v Hs Hn Hc) in *.
      simpl in *. injection Hr as <-. by apply (ok_effects st Hok _ _ Hc).
    + destruct (CreateEffect_miss env info ctx st Hmiss) as (_ & log & -> & H).
      rewrite Hr in H. destruct H as (-> & _). rewrite length_app. simpl. lia.
  - intros e Hr.
    destruct (hit_or_miss dinfo st) as [(Hs & Hn & v & Hc)|Hmiss].
    + unfold outcome, final in *.
      rewrite (CreateDGSLEffect_hit env dinfo ctx st v Hs Hn Hc) in *.
      simpl in *. injection Hr as <-. by apply (ok_effects st Hok _ _ Hc).
    + destruct (CreateDGSLEffect_miss env dinfo ctx st Hmiss) as (_ & H).
      rewrite Hr in H.
      destruct H as (-> & (ps & l & a & srv & srvs & -> & _) & _).
      rewrite length_app. simpl. lia.
  - intros srv Hr. destruct name as [n|], out; try discriminate Hr.
    destruct (mSharing (this st)) eqn:Hs;
      [destruct (mTextureCache (this st) !! n) as [v|] eqn:Hc|].
    + unfold outcome, final in *.
      rewrite (CreateTexture_hit env n ctx st v Hs Hc) in *.
      simpl in *. injection Hr as <-. by apply (ok_textures st Hok _ _ Hc).
    + destruct (CreateTexture_miss env n ctx st (or_intror Hc) srv Hr)
        as (_ & -> & _). lia.
    + destruct (CreateTexture_miss env n ctx st (or_introl Hs) srv Hr)
        as (_ & -> & _). lia.
  - intros ps Hr. destruct name as [n|], out; try discriminate Hr.
    destruct (mSharing (this st)) eqn:Hs;
      [destruct (mShaderCache (this st) !! n) as [v|] eqn:Hc|].
    + unfold outcome, final in *.
      rewrite (CreatePixelShader_hit env n st v Hs Hc) in *.
      simpl in *. injection Hr as <-. by apply (ok_shaders st Hok _ _ Hc).
    + destruct (CreatePixelShader_miss env n st (or_intror Hc) ps Hr)
        as (_ & -> & _). lia.
    + destruct (CreatePixelShader_miss env n st (or_introl Hs) ps Hr)
        as (_ & -> & _). lia.
Qed.

(** ** The further properties at work on concrete requests *)

(** The unnamed, untextured material: [CreateEffect] returns. *)
Lemma CreateEffect_failure_witness :
  exists e, outcome (CreateEffect env_no_files info_anonymous None) st_fresh
            = Returns e.
Proof.
  destruct (CreateEffect_failure env_no_files info_anonymous None st_fresh)
    as (_ & _ & H).
  apply H. reflexivity.
Defined.

(** "sky_unlit.dgsl" selects a built-in shader and the material has no
    texture: nothing is loaded, and the method returns though no file
    can be read. *)
Lemma CreateDGSLEffect_failure_witness :
  exists e, outcome (CreateDGSLEffect env_no_files dinfo_unlit None) st_fresh
            = Returns e.
Proof.
  destruct (CreateDGSLEffect_failure env_no_files dinfo_unlit None st_fresh)
    as (_ & H).
  apply H; reflexivity.
Defined.

(** A pixel shader name of 260 characters ends the process. *)
Lemma CreateDGSLEffect_aborts_witness :
  outcome (CreateDGSLEffect env_desktop dinfo_long None) st_fresh = Aborts.
Proof.
  destruct (CreateDGSLEffect_aborts env_desktop dinfo_long None st_fresh)
    as ((_ & H) & _).
  apply H. split; [right; left; reflexivity | reflexivity].
Defined.

(** With sharing off, "wood.dds" is loaded again, as object 101, which
    is not the object cached under the name. *)
Lemma miss_returns_uncached_object_witness :
  mTextureCache (this (serve_all env_desktop calls_wood st_fresh))
    !! L "wood.dds" <> Some 101%nat.
Proof.
  destruct (miss_returns_uncached_object env_desktop 1%nat
              (mkWorld [] 100%nat []) calls_wood (L "wood.dds") None
              info_anonymous) as (H & _).
  apply (H (or_introl eq_refl) 101%nat (L "wood.dds") eq_refl).
Defined.

(** With sharing off, creating "brick" leaves the implementation object
    as it was. *)
Lemma unshared_requests_leave_caches_witness :
  this (final (CreateEffect env_desktop info_brick None) st_unshared)
  = this st_unshared.
Proof.
  apply (unshared_requests_leave_caches env_desktop info_brick dinfo_wall None
           None ValidOut st_unshared eq_refl).
Defined.

(** Loading "brick.png" leaves what is cached under "wood.dds". *)
Lemma requests_keep_other_names_witness :
  mTextureCache
    (this (final (CreateTexture env_desktop (Some (L "brick.png")) None ValidOut)
             st_wood)) !! L "wood.dds"
  = mTextureCache (this st_wood) !! L "wood.dds".
Proof.
  destruct (requests_keep_other_names env_desktop (L "wood.dds")
              (L "brick.png") None ValidOut info_brick dinfo_wall st_wood)
    as (H & _).
  apply H. discriminate.
Defined.

(** "wood.dds" stays cached as object 100 when "brick" is created. *)
Lemma cached_entries_are_kept_witness :
  mTextureCache (this (final (CreateEffect env_desktop info_brick None) st_wood))
    !! L "wood.dds" = Some 100%nat.
Proof.
  destruct (cached_entries_are_kept env_desktop info_brick dinfo_wall None None
              ValidOut st_wood TextureCache (L "wood.dds") 100%nat eq_refl)
    as ((H & _) & _).
  exact H.
Defined.

(** "brick.png" with the device context 7: the one loader call is a WIC
    call, and it is made under the mutex. *)
Lemma loader_locked_with_context_witness :
  exists evs hr,
    trace (world (final (CreateTexture env_desktop (Some (L "brick.png"))
                           (Some 7%nat) ValidOut) st_fresh)) = [] ++ evs /\
    List.filter is_loader_call (under_lock false evs) =
      [EvWIC (Some 7%nat) (L "brick.png") hr].
Proof.
  destruct (loader_locked_with_context env_desktop (L "brick.png") (Some 7%nat)
              st_fresh (or_intror eq_refl)) as (evs & hr & Ht & _ & Hl).
  exists evs, hr. split; [exact Ht | exact Hl].
Defined.

(** "wood.dds" loaded through one factory is object 100 for the other. *)
Lemma factories_share_one_cache_witness :
  exists g1 g2,
    Factory.CreateTexture env_desktop factory_a (Some (L "wood.dds")) None
      ValidOut program_one = Some (Returns 100%nat, g1) /\
    Factory.CreateTexture env_desktop factory_b (Some (L "wood.dds"))
      (Some 7%nat) ValidOut g1 = Some (Returns 100%nat, g2).
Proof.
  destruct (factories_share_one_cache env_desktop factory_a factory_b
              program_one (Impl_ctor 1%nat) (L "wood.dds") None (Some 7%nat)
              info_brick eq_refl eq_refl eq_refl) as (H & _).
  eexists.
  destruct (H ltac:(discriminate) 100%nat _ eq_refl) as (g2 & Hg2 & _).
  exists g2. split; [reflexivity | exact Hg2].
Defined.

(** "wood.dds" is cached as object 100; after [ReleaseCache] through one
    factory the other loads it again, as object 101. *)
Lemma factory_settings_are_shared_witness :
  exists g1 g2,
    Factory.ReleaseCache factory_a program_wood = Some (Returns tt, g1) /\
    Factory.CreateTexture env_desktop factory_b (Some (L "wood.dds")) None
      ValidOut g1 = Some (Returns 101%nat, g2).
Proof.
  destruct (factory_settings_are_shared env_desktop factory_a factory_b
              program_wood
              (final (CreateTexture env_desktop (Some (L "wood.dds")) None
                        ValidOut) st_fresh).(this)
              (L "wood.dds") None eq_refl eq_refl)
    as ((g1 & Hg1 & r & g2 & evs & hr & Hg2 & _) & _).
  exists g1, g2. split; [exact Hg1|].
  injection Hg1 as <-. rewrite Hg2. injection Hg2 as <- _. reflexivity.
Defined.

(** "brick" created by [CreateEffect] is the effect [CreateDGSLEffect]
    returns for a material of that name. *)
Lemma effect_methods_share_names_witness :
  CreateDGSLEffect env_desktop dinfo_brick None st_brick =
  (Returns 0%nat, traced [EvFind EffectCache (L "brick")] st_brick).
Proof.
  destruct (effect_methods_share_names env_desktop info_brick dinfo_brick None
              None st_fresh 0%nat eq_refl eq_refl eq_refl) as (H & _).
  apply H. reflexivity.
Defined.

(** The root of "Wall_Lambert.hlsl" is "Lambert". *)
Lemma shader_root_shape_witness :
  exists r, outcome (shader_root (L "Wall_Lambert.hlsl")) st_fresh = Returns r.
Proof.
  destruct (shader_root_shape (L "Wall_Lambert.hlsl") st_fresh) as (_ & H & _).
  apply H. vm_compute. lia.
Defined.

(** The effect returned for "brick" is allocated. *)
Lemma returned_handles_are_valid_witness :
  (0 < length (effects (world (final (CreateEffect env_desktop info_brick None)
                                 st_fresh))))%nat.
Proof.
  destruct (returned_handles_are_valid env_desktop 1%nat (mkWorld [] 100%nat [])
              [] info_brick dinfo_wall None None ValidOut) as (H & _).
  apply (H 0%nat eq_refl).
Defined.
